(** * BidBeam: the matching engine and the client-side book replica

    A shallow embedding of [backend/order_book.py] (classes [Order], [Trade],
    [OrderBook]) and of [backend/market_data_model.py] (class
    [ClientOrderBook]), together with the part of Python's [heapq] module the
    two files call ([heappush], [heappop] and their helpers [_siftdown] and
    [_siftup], as in CPython's [Lib/heapq.py]).

    Modelling choices.
    - Prices and timestamps are Python floats in the source.  The engine only
      compares them ([<], [>], [!=]) and uses them as dictionary keys; finite
      floats are totally ordered, so both are modelled by [Z] (a price can be
      read as an amount in cents).  NaN is outside the model.
    - Quantities are Python integers: [Z].
    - A heap is a Python list updated by index: [list] with stdpp's lookup
      [l !! i] and update [<[i:=x]> l].
    - [Order] objects are mutated in place while they sit in a heap
      ([best_sell.quantity -= trade_qty]); the heap entry is updated at its
      index.  Every call of [add_order] is given its own [Order] object, as at
      each call site of [market_data_server.py]; the incoming order, mutated by
      matching, is threaded through the matching loop.
    - [ObjectBook] is the same engine on a store of [Order] objects, with
      heaps of addresses: there one object can be passed to [add_order] more
      than once, and the book in the middle of an iteration of a matching loop
      is a state.  [OrderBook] is [ObjectBook] read through the store as long
      as no object is passed twice (lemmas [add_order_fresh] and
      [run_fresh]).
    - The calls of the [on_market_update] callback are recorded, oldest first,
      in the field [notified]; the flag [on_market_update] says whether a
      callback is installed.  The clock readings ([time.time()]) that the
      source attaches to trades and notifications are not modelled. *)

From stdpp Require Import functions gmap strings list fin_maps sorting.
From Stdlib Require Import ZArith Lia.

Local Open Scope Z_scope.

(** ** Python's [heapq] on a list *)

Module heapq.
Section heapq.
Context {A : Type}.
(** [lt a b] is [a < b], the [__lt__] of the element type. *)
Variable lt : A → A → bool.

(** [(pos - 1) >> 1] *)
Definition parent_of (pos : nat) : nat := ((pos - 1) / 2)%nat.

(** The [while pos > startpos] loop of [_siftdown].  The parent position is
    strictly smaller than [pos], so [pos] iterations are enough: with
    [fuel = pos] the last case is reached only when [pos = 0]. *)
Fixpoint siftdown_loop (fuel : nat) (newitem : A) (startpos : nat)
    (heap : list A) (pos : nat) : list A :=
  match fuel with
  | O => <[pos := newitem]> heap
  | S fuel =>
      if decide (startpos < pos)%nat then
        let parentpos := parent_of pos in
        match heap !! parentpos with
        | Some parent =>
            if lt newitem parent
            then siftdown_loop fuel newitem startpos (<[pos := parent]> heap) parentpos
            else <[pos := newitem]> heap
        | None => heap
        end
      else <[pos := newitem]> heap
  end.

Definition _siftdown (heap : list A) (startpos pos : nat) : list A :=
  match heap !! pos with
  | Some newitem => siftdown_loop pos newitem startpos heap pos
  | None => heap
  end.

(** The child that the loop of [_siftup] moves up:
    [rightpos < endpos and not heap[childpos] < heap[rightpos]]. *)
Definition smaller_child (endpos : nat) (heap : list A) (childpos : nat) : nat :=
  let rightpos := (childpos + 1)%nat in
  if decide (rightpos < endpos)%nat then
    match heap !! childpos, heap !! rightpos with
    | Some c, Some r => if lt c r then childpos else rightpos
    | _, _ => childpos
    end
  else childpos.

(** The [while childpos < endpos] loop of [_siftup]; it returns the list and
    the position of the leaf it stops at.  [childpos] grows by at least one
    per iteration. *)
Fixpoint siftup_loop (fuel : nat) (endpos : nat) (heap : list A)
    (pos childpos : nat) : list A * nat :=
  match fuel with
  | O => (heap, pos)
  | S fuel =>
      if decide (childpos < endpos)%nat then
        let childpos := smaller_child endpos heap childpos in
        match heap !! childpos with
        | Some c => siftup_loop fuel endpos (<[pos := c]> heap) childpos (2 * childpos + 1)
        | None => (heap, pos)
        end
      else (heap, pos)
  end.

Definition _siftup (heap : list A) (pos : nat) : list A :=
  let endpos := length heap in
  let startpos := pos in
  match heap !! pos with
  | Some newitem =>
      let '(heap, pos) := siftup_loop endpos endpos heap pos (2 * pos + 1) in
      _siftdown (<[pos := newitem]> heap) startpos pos
  | None => heap
  end.

Definition heappush (heap : list A) (item : A) : list A :=
  let heap := heap ++ [item] in
  _siftdown heap 0 (length heap - 1).

(** [heappop] returns the popped item and the list it leaves; [None] stands
    for the [IndexError] of [heap.pop()] on an empty list. *)
Definition heappop (heap : list A) : option (A * list A) :=
  match last heap with
  | None => None
  | Some lastelt =>
      let heap := take (length heap - 1) heap in
      match heap with
      | [] => Some (lastelt, [])
      | returnitem :: _ => Some (returnitem, _siftup (<[0%nat := lastelt]> heap) 0)
      end
  end.

(** The heap invariant of [heapq]: [heap[k] <= heap[2*k+1]] and
    [heap[k] <= heap[2*k+2]], read as "no child is less than its parent". *)
Definition heap_ordered (heap : list A) : Prop :=
  ∀ j x y, (0 < j)%nat → heap !! j = Some x → heap !! parent_of j = Some y →
           lt x y = false.

(** The list is heap-ordered everywhere except around position [pos], whose
    content is not constrained; across [pos] the grandparent is not above
    the grandchildren. *)
Definition hole_inv (heap : list A) (pos : nat) : Prop :=
  (∀ j x y, (0 < j)%nat → j ≠ pos → parent_of j ≠ pos →
            heap !! j = Some x → heap !! parent_of j = Some y → lt x y = false) ∧
  (∀ c x y, (0 < pos)%nat → (0 < c)%nat → parent_of c = pos →
            heap !! c = Some x → heap !! parent_of pos = Some y → lt x y = false).

Definition above_children (heap : list A) (pos : nat) (v : A) : Prop :=
  ∀ c x, (0 < c)%nat → parent_of c = pos → heap !! c = Some x → lt x v = false.

End heapq.
End heapq.

(** ** backend/order_book.py *)

(** [@dataclass class Order] *)
Module Order.
Record t : Type := mk {
  order_id : Z;
  price : Z;
  quantity : Z;
  side : bool;            (* True for buy, False for sell *)
  order_type : string;    (* "limit" or "market" *)
  timestamp : Z
}.

Definition set_quantity (o : t) (q : Z) : t :=
  mk (order_id o) (price o) q (side o) (order_type o) (timestamp o).

(** [Order.__lt__]: custom comparison for heap ordering. *)
Definition __lt__ (self other : t) : bool :=
  if side self then
    if negb (price self =? price other) then price self >? price other
    else timestamp self <? timestamp other
  else
    if negb (price self =? price other) then price self <? price other
    else timestamp self <? timestamp other.
End Order.

(** [@dataclass class Trade] *)
Module Trade.
Record t : Type := mk {
  buy_order_id : Z;
  sell_order_id : Z;
  price : Z;
  quantity : Z
}.
End Trade.

(** One call of the [on_market_update] callback:
    [(instrument_id, price, quantity, side, time.time())]. *)
Module LevelUpdate.
Record t : Type := mk {
  instrument_id : string;
  price : Z;
  quantity : Z;
  side : bool
}.
End LevelUpdate.

(** [class OrderBook] *)
Module OrderBook.
Record t : Type := mk {
  instrument_id : string;
  buy_heap : list Order.t;
  sell_heap : list Order.t;
  trade_log : list Trade.t;
  on_market_update : bool;
  notified : list LevelUpdate.t
}.

(** [OrderBook.__init__] *)
Definition __init__ (instrument_id : string) (on_market_update : bool) : t :=
  mk instrument_id [] [] [] on_market_update [].

Definition set_buy_heap (self : t) (h : list Order.t) : t :=
  mk (instrument_id self) h (sell_heap self) (trade_log self)
     (on_market_update self) (notified self).

Definition set_sell_heap (self : t) (h : list Order.t) : t :=
  mk (instrument_id self) (buy_heap self) h (trade_log self)
     (on_market_update self) (notified self).

(** [self.trade_log.append(trade)] *)
Definition log_trade (self : t) (trade : Trade.t) : t :=
  mk (instrument_id self) (buy_heap self) (sell_heap self)
     (trade_log self ++ [trade]) (on_market_update self) (notified self).

Definition _notify_update (self : t) (price quantity : Z) (side : bool) : t :=
  if on_market_update self then
    mk (instrument_id self) (buy_heap self) (sell_heap self) (trade_log self)
       (on_market_update self)
       (notified self ++ [LevelUpdate.mk (instrument_id self) price quantity side])
  else self.

(** One iteration of the [while] loop of [_match_buy]; [None] when the loop
    condition fails or the [break] is taken. *)
Definition match_buy_body (self : t) (buy_order : Order.t) : option (t * Order.t) :=
  if bool_decide (Order.quantity buy_order > 0) then
    match sell_heap self !! 0%nat with
    | None => None
    | Some best_sell =>
        if (Order.order_type buy_order =? "limit")%string
           && (Order.price best_sell >? Order.price buy_order)
        then None
        else
          let trade_qty := Z.min (Order.quantity buy_order) (Order.quantity best_sell) in
          let trade_price := Order.price best_sell in
          let trade := Trade.mk (Order.order_id buy_order) (Order.order_id best_sell)
                                trade_price trade_qty in
          let self := log_trade self trade in
          let buy_order := Order.set_quantity buy_order (Order.quantity buy_order - trade_qty) in
          let best_sell := Order.set_quantity best_sell (Order.quantity best_sell - trade_qty) in
          let self := set_sell_heap self (<[0%nat := best_sell]> (sell_heap self)) in
          if Order.quantity best_sell =? 0 then
            match heapq.heappop Order.__lt__ (sell_heap self) with
            | Some (_, heap) =>
                Some (_notify_update (set_sell_heap self heap) (Order.price best_sell) 0 false,
                      buy_order)
            | None => None
            end
          else
            Some (_notify_update self (Order.price best_sell) (Order.quantity best_sell) false,
                  buy_order)
    end
  else None.

(** The loop itself.  Every iteration that does not pop the best sell order
    leaves the buy order with quantity 0, so the loop runs at most once more
    than there are resting sell orders. *)
Fixpoint match_buy_loop (fuel : nat) (self : t) (buy_order : Order.t) : t * Order.t :=
  match fuel with
  | O => (self, buy_order)
  | S fuel =>
      match match_buy_body self buy_order with
      | Some (self, buy_order) => match_buy_loop fuel self buy_order
      | None => (self, buy_order)
      end
  end.

Definition _match_buy (self : t) (buy_order : Order.t) : t * Order.t :=
  match_buy_loop (S (length (sell_heap self))) self buy_order.

Definition match_sell_body (self : t) (sell_order : Order.t) : option (t * Order.t) :=
  if bool_decide (Order.quantity sell_order > 0) then
    match buy_heap self !! 0%nat with
    | None => None
    | Some best_buy =>
        if (Order.order_type sell_order =? "limit")%string
           && (Order.price best_buy <? Order.price sell_order)
        then None
        else
          let trade_qty := Z.min (Order.quantity sell_order) (Order.quantity best_buy) in
          let trade_price := Order.price best_buy in
          let trade := Trade.mk (Order.order_id best_buy) (Order.order_id sell_order)
                                trade_price trade_qty in
          let self := log_trade self trade in
          let sell_order := Order.set_quantity sell_order (Order.quantity sell_order - trade_qty) in
          let best_buy := Order.set_quantity best_buy (Order.quantity best_buy - trade_qty) in
          let self := set_buy_heap self (<[0%nat := best_buy]> (buy_heap self)) in
          if Order.quantity best_buy =? 0 then
            match heapq.heappop Order.__lt__ (buy_heap self) with
            | Some (_, heap) =>
                Some (_notify_update (set_buy_heap self heap) (Order.price best_buy) 0 true,
                      sell_order)
            | None => None
            end
          else
            Some (_notify_update self (Order.price best_buy) (Order.quantity best_buy) true,
                  sell_order)
    end
  else None.

Fixpoint match_sell_loop (fuel : nat) (self : t) (sell_order : Order.t) : t * Order.t :=
  match fuel with
  | O => (self, sell_order)
  | S fuel =>
      match match_sell_body self sell_order with
      | Some (self, sell_order) => match_sell_loop fuel self sell_order
      | None => (self, sell_order)
      end
  end.

Definition _match_sell (self : t) (sell_order : Order.t) : t * Order.t :=
  match_sell_loop (S (length (buy_heap self))) self sell_order.

(** [add_order] has no [return] and no [raise]: it yields the book it
    leaves behind. *)
Definition add_order (self : t) (order : Order.t) : t :=
  if Order.side order then
    let '(self, order) := _match_buy self order in
    if bool_decide (Order.quantity order > 0) && (Order.order_type order =? "limit")%string
    then set_buy_heap self (heapq.heappush Order.__lt__ (buy_heap self) order)
    else self
  else
    let '(self, order) := _match_sell self order in
    if bool_decide (Order.quantity order > 0) && (Order.order_type order =? "limit")%string
    then set_sell_heap self (heapq.heappush Order.__lt__ (sell_heap self) order)
    else self.

Definition get_best_bid (self : t) : option Order.t := buy_heap self !! 0%nat.
Definition get_best_ask (self : t) : option Order.t := sell_heap self !! 0%nat.
Definition get_trade_log (self : t) : list Trade.t := trade_log self.

(** The loops of [dump_book] that aggregate the orders of one heap by price
    level. *)
Definition levels_of (heap : list Order.t) : gmap Z Z :=
  foldl (λ levels order,
           match levels !! Order.price order with
           | Some q => <[Order.price order := q + Order.quantity order]> levels
           | None => <[Order.price order := Order.quantity order]> levels
           end) ∅ heap.

(** Python orders tuples lexicographically. *)
Definition tuple_le (x y : Z * Z) : Prop :=
  x.1 < y.1 ∨ (x.1 = y.1 ∧ x.2 ≤ y.2).

Global Instance tuple_le_dec x y : Decision (tuple_le x y).
Proof. unfold tuple_le. apply _. Defined.

(** [sorted(levels.items())]; the keys of a dictionary are distinct, so the
    result does not depend on the sorting algorithm. *)
Definition sorted_items (levels : gmap Z Z) : list (Z * Z) :=
  merge_sort tuple_le (map_to_list levels).

(** [dump_book] returns [{"bids": bids, "asks": asks}]. *)
Definition dump_book (self : t) : list (Z * Z) * list (Z * Z) :=
  (reverse (sorted_items (levels_of (buy_heap self))),
   sorted_items (levels_of (sell_heap self))).

(** The book after a sequence of [add_order] calls on a new book. *)
Definition run (instrument_id : string) (on_market_update : bool)
    (orders : list Order.t) : t :=
  foldl add_order (__init__ instrument_id on_market_update) orders.
End OrderBook.

(** ** backend/market_data_model.py *)

(** The protobuf messages the client is given: only the fields that
    [ClientOrderBook] reads. *)
Module OrderBookLevel.
Record t : Type := mk { price : Z; quantity : Z }.
End OrderBookLevel.

Module OrderBookSnapshot.
Record t : Type := mk {
  bids : list OrderBookLevel.t;
  asks : list OrderBookLevel.t;
  timestamp : Z
}.
End OrderBookSnapshot.

Module OrderBookUpdate.
Record t : Type := mk {
  price : Z;
  quantity : Z;
  side : bool;
  timestamp : Z
}.
End OrderBookUpdate.

(** [class ClientOrderBook] *)
Module ClientOrderBook.
Record t : Type := mk {
  instrument_id : string;
  bids : gmap Z Z;
  _bid_heap : list (Z * Z);     (* (-price, price) *)
  asks : gmap Z Z;
  _ask_heap : list (Z * Z);     (* (price, price) *)
  last_update_timestamp : Z
}.

Definition __init__ (instrument_id : string) : t :=
  mk instrument_id ∅ [] ∅ [] 0.

(** [<] on the tuples kept in the two heaps. *)
Definition tuple_lt (x y : Z * Z) : bool :=
  (x.1 <? y.1) || ((x.1 =? y.1) && (x.2 <? y.2)).

Definition apply_snapshot (self : t) (snapshot : OrderBookSnapshot.t) : t :=
  let '(bids, bid_heap) :=
    foldl (λ '(d, h) level,
             (<[OrderBookLevel.price level := OrderBookLevel.quantity level]> d,
              heapq.heappush tuple_lt h
                (- OrderBookLevel.price level, OrderBookLevel.price level)))
          (∅, []) (OrderBookSnapshot.bids snapshot) in
  let '(asks, ask_heap) :=
    foldl (λ '(d, h) level,
             (<[OrderBookLevel.price level := OrderBookLevel.quantity level]> d,
              heapq.heappush tuple_lt h
                (OrderBookLevel.price level, OrderBookLevel.price level)))
          (∅, []) (OrderBookSnapshot.asks snapshot) in
  mk (instrument_id self) bids bid_heap asks ask_heap
     (OrderBookSnapshot.timestamp snapshot).

(** The body of [apply_update] on the dictionary and heap that
    [update.side] selects. *)
Definition update_target (update : OrderBookUpdate.t)
    (target_dict : gmap Z Z) (target_heap : list (Z * Z)) : gmap Z Z * list (Z * Z) :=
  let price := OrderBookUpdate.price update in
  if bool_decide (OrderBookUpdate.quantity update > 0) then
    let target_heap :=
      match target_dict !! price with
      | None =>
          heapq.heappush tuple_lt target_heap
            (if OrderBookUpdate.side update then (- price, price) else (price, price))
      | Some _ => target_heap
      end in
    (<[price := OrderBookUpdate.quantity update]> target_dict, target_heap)
  else
    (match target_dict !! price with
     | Some _ => delete price target_dict
     | None => target_dict
     end, target_heap).

Definition apply_update (self : t) (update : OrderBookUpdate.t) : t :=
  if OrderBookUpdate.side update then
    let '(d, h) := update_target update (bids self) (_bid_heap self) in
    mk (instrument_id self) d h (asks self) (_ask_heap self)
       (OrderBookUpdate.timestamp update)
  else
    let '(d, h) := update_target update (asks self) (_ask_heap self) in
    mk (instrument_id self) (bids self) (_bid_heap self) d h
       (OrderBookUpdate.timestamp update).
(** The [while] loop shared by [get_best_bid] and [get_best_ask], which are
    the same code on the bid and on the ask fields: stale heap entries are
    popped until the first entry is a price of the dictionary with a positive
    quantity.  It returns [(price, quantity)], or [None] for [(None, None)],
    and the heap it leaves.  Every iteration that does not return pops an
    entry, so the length of the heap bounds the iterations. *)
Fixpoint best_level_loop (fuel : nat) (levels : gmap Z Z) (heap : list (Z * Z))
    : option (Z * Z) * list (Z * Z) :=
  match fuel with
  | O => (None, heap)
  | S fuel =>
      match heap !! 0%nat with
      | None => (None, heap)
      | Some (_, price) =>
          match levels !! price with
          | Some quantity =>
              if bool_decide (quantity > 0) then (Some (price, quantity), heap)
              else
                match heapq.heappop tuple_lt heap with
                | Some (_, heap) => best_level_loop fuel levels heap
                | None => (None, heap)
                end
          | None =>
              match heapq.heappop tuple_lt heap with
              | Some (_, heap) => best_level_loop fuel levels heap
              | None => (None, heap)
              end
          end
      end
  end.

(** [get_best_bid] and [get_best_ask] return their result and the replica
    with the heap they have cleaned. *)
Definition get_best_bid (self : t) : option (Z * Z) * t :=
  let '(best, heap) :=
    best_level_loop (length (_bid_heap self)) (bids self) (_bid_heap self) in
  (best, mk (instrument_id self) (bids self) heap (asks self) (_ask_heap self)
            (last_update_timestamp self)).

Definition get_best_ask (self : t) : option (Z * Z) * t :=
  let '(best, heap) :=
    best_level_loop (length (_ask_heap self)) (asks self) (_ask_heap self) in
  (best, mk (instrument_id self) (bids self) (_bid_heap self) (asks self) heap
            (last_update_timestamp self)).

(** [key=lambda x: x[0]] *)
Definition key_le (x y : Z * Z) : Prop := x.1 ≤ y.1.

Global Instance key_le_dec x y : Decision (key_le x y).
Proof. unfold key_le. apply _. Defined.

(** [[(p, q) for p, q in levels.items() if q > 0]], sorted by price.  The
    prices are the keys of a dictionary, hence distinct: the sorted list does
    not depend on the sorting algorithm, and sorting with [reverse=True] gives
    the reverse of the ascending list. *)
Definition sorted_levels (levels : gmap Z Z) : list (Z * Z) :=
  merge_sort key_le (filter (λ level, level.2 > 0) (map_to_list levels)).

(** The slice [l[:n]] for a Python integer [n]: the first [n] elements of
    [l] or, when [n] is negative, all of them but the last [-n]. *)
Definition slice_to {A : Type} (n : Z) (l : list A) : list A :=
  if n <? 0 then take (length l - Z.to_nat (- n)) l else take (Z.to_nat n) l.

(** [get_top_n_levels_list]: a level [{"price": p, "quantity": q}] is the
    pair [(p, q)]. *)
Definition get_top_n_levels_list (self : t) (n : Z) : list (Z * Z) * list (Z * Z) :=
  (slice_to n (reverse (sorted_levels (bids self))), slice_to n (sorted_levels (asks self))).

(** The dictionary returned by [to_dict]. *)
Record book_dict : Type := mk_dict {
  dict_instrument_id : string;
  dict_timestamp : Z;
  dict_best_bid : option (Z * Z);
  dict_best_ask : option (Z * Z);
  dict_bids : list (Z * Z);
  dict_asks : list (Z * Z)
}.

Definition to_dict (self : t) : book_dict * t :=
  let '(bids_list, asks_list) := get_top_n_levels_list self 10 in
  let '(best_bid, self) := get_best_bid self in
  let '(best_ask, self) := get_best_ask self in
  (mk_dict (instrument_id self) (last_update_timestamp self) best_bid best_ask
           bids_list asks_list, self).
End ClientOrderBook.

(** ** backend/market_data_server.py *)

Module MarketDataServicer.
(** The snapshot that [SubscribeMarketData] builds from [dump_book] for a new
    subscriber; [now] is the reading of [time.time()]. *)
Definition snapshot_pb (book : OrderBook.t) (now : Z) : OrderBookSnapshot.t :=
  let snapshot_data := OrderBook.dump_book book in
  OrderBookSnapshot.mk
    ((λ level, OrderBookLevel.mk level.1 level.2) <$> snapshot_data.1)
    ((λ level, OrderBookLevel.mk level.1 level.2) <$> snapshot_data.2)
    now.
End MarketDataServicer.

(** ** The two matching loops as one

    [_match_sell] is [_match_buy] with the two sides exchanged.  [Matching]
    states the loop once, for a taker of side [s]; [match_buy_body] and
    [match_sell_body] are its two instances (lemmas [match_buy_body_eq] and
    [match_sell_body_eq] below), and the proofs are done once. *)
Module Matching.
(** The heap an incoming order of side [s] is matched against. *)
Definition resting (s : bool) (self : OrderBook.t) : list Order.t :=
  if s then OrderBook.sell_heap self else OrderBook.buy_heap self.

(** The heap an incoming order of side [s] rests on. *)
Definition own (s : bool) (self : OrderBook.t) : list Order.t :=
  if s then OrderBook.buy_heap self else OrderBook.sell_heap self.

Definition set_resting (s : bool) (self : OrderBook.t) (h : list Order.t) : OrderBook.t :=
  if s then OrderBook.set_sell_heap self h else OrderBook.set_buy_heap self h.

Definition set_own (s : bool) (self : OrderBook.t) (h : list Order.t) : OrderBook.t :=
  if s then OrderBook.set_buy_heap self h else OrderBook.set_sell_heap self h.

(** The price test before the [break]. *)
Definition beyond_limit (s : bool) (best taker : Order.t) : bool :=
  if s then Order.price best >? Order.price taker
  else Order.price best <? Order.price taker.

Definition trade_of (s : bool) (taker best : Order.t) (qty : Z) : Trade.t :=
  if s then Trade.mk (Order.order_id taker) (Order.order_id best) (Order.price best) qty
  else Trade.mk (Order.order_id best) (Order.order_id taker) (Order.price best) qty.

(** The identifier of the resting order in a trade made by a taker of side
    [s]. *)
Definition maker_id (s : bool) (trade : Trade.t) : Z :=
  if s then Trade.sell_order_id trade else Trade.buy_order_id trade.

Definition body (s : bool) (self : OrderBook.t) (taker : Order.t)
    : option (OrderBook.t * Order.t) :=
  if bool_decide (Order.quantity taker > 0) then
    match resting s self !! 0%nat with
    | None => None
    | Some best =>
        if (Order.order_type taker =? "limit")%string && beyond_limit s best taker
        then None
        else
          let trade_qty := Z.min (Order.quantity taker) (Order.quantity best) in
          let self := OrderBook.log_trade self (trade_of s taker best trade_qty) in
          let taker := Order.set_quantity taker (Order.quantity taker - trade_qty) in
          let best := Order.set_quantity best (Order.quantity best - trade_qty) in
          let self := set_resting s self (<[0%nat := best]> (resting s self)) in
          if Order.quantity best =? 0 then
            match heapq.heappop Order.__lt__ (resting s self) with
            | Some (_, heap) =>
                Some (OrderBook._notify_update (set_resting s self heap)
                        (Order.price best) 0 (negb s), taker)
            | None => None
            end
          else
            Some (OrderBook._notify_update self
                    (Order.price best) (Order.quantity best) (negb s), taker)
    end
  else None.

Fixpoint loop (s : bool) (fuel : nat) (self : OrderBook.t) (taker : Order.t)
    : OrderBook.t * Order.t :=
  match fuel with
  | O => (self, taker)
  | S fuel =>
      match body s self taker with
      | Some (self, taker) => loop s fuel self taker
      | None => (self, taker)
      end
  end.

(** [_match_buy] for [s = true], [_match_sell] for [s = false]. *)
Definition run (s : bool) (self : OrderBook.t) (taker : Order.t) : OrderBook.t * Order.t :=
  loop s (S (length (resting s self))) self taker.
End Matching.

(** ** The engine on [Order] objects

    [add_order] keeps the caller's [Order] object: the heaps hold references
    to objects, matching changes [quantity] in the object itself, and [heapq]
    compares the objects as they are when it runs.  [ObjectBook] states the
    engine on addresses into a store of objects, so that one object can be
    passed to [add_order], and can rest, more than once.  [OrderBook] above is
    what [ObjectBook] does when every call is given an object that does not
    rest in the book (lemmas [add_order_fresh] and [run_fresh] below).

    An iteration of a matching loop is cut in two: the part up to the two
    [quantity -= trade_qty], and the [if best.quantity == 0] that follows.
    The book between the two is the one that a reader in another thread
    ([dump_book] in [SubscribeMarketData]) can find. *)
Module ObjectBook.
(** An [Order] object is known by its address; the store gives the fields
    that each object holds now. *)
Definition store : Type := nat → Order.t.

Record t : Type := mk {
  instrument_id : string;
  buy_heap : list nat;
  sell_heap : list nat;
  trade_log : list Trade.t;
  on_market_update : bool;
  notified : list LevelUpdate.t
}.

Definition __init__ (instrument_id : string) (on_market_update : bool) : t :=
  mk instrument_id [] [] [] on_market_update [].

Definition set_buy_heap (self : t) (h : list nat) : t :=
  mk (instrument_id self) h (sell_heap self) (trade_log self)
     (on_market_update self) (notified self).

Definition set_sell_heap (self : t) (h : list nat) : t :=
  mk (instrument_id self) (buy_heap self) h (trade_log self)
     (on_market_update self) (notified self).

Definition log_trade (self : t) (trade : Trade.t) : t :=
  mk (instrument_id self) (buy_heap self) (sell_heap self)
     (trade_log self ++ [trade]) (on_market_update self) (notified self).

Definition _notify_update (self : t) (price quantity : Z) (side : bool) : t :=
  if on_market_update self then
    mk (instrument_id self) (buy_heap self) (sell_heap self) (trade_log self)
       (on_market_update self)
       (notified self ++ [LevelUpdate.mk (instrument_id self) price quantity side])
  else self.

(** [a < b] on two objects of a heap: [Order.__lt__] on the fields they hold
    when [heapq] compares them. *)
Definition lt (objects : store) (a b : nat) : bool :=
  Order.__lt__ (objects a) (objects b).

(** [order.quantity -= trade_qty] *)
Definition sub_quantity (objects : store) (order : nat) (trade_qty : Z) : store :=
  <[order := Order.set_quantity (objects order)
               (Order.quantity (objects order) - trade_qty)]> objects.

(** [_match_buy], from the loop condition to [best_sell.quantity -= trade_qty]
    (lines 67 to 88); [None] when the loop condition fails or the [break] is
    taken. *)
Definition match_buy_trade (objects : store) (self : t) (buy_order : nat)
    : option (store * t * nat) :=
  if bool_decide (Order.quantity (objects buy_order) > 0) then
    match sell_heap self !! 0%nat with
    | None => None
    | Some best_sell =>
        if (Order.order_type (objects buy_order) =? "limit")%string
           && (Order.price (objects best_sell) >? Order.price (objects buy_order))
        then None
        else
          let trade_qty := Z.min (Order.quantity (objects buy_order))
                                 (Order.quantity (objects best_sell)) in
          let trade_price := Order.price (objects best_sell) in
          let trade := Trade.mk (Order.order_id (objects buy_order))
                                (Order.order_id (objects best_sell))
                                trade_price trade_qty in
          let self := log_trade self trade in
          let objects := sub_quantity objects buy_order trade_qty in
          let objects := sub_quantity objects best_sell trade_qty in
          Some (objects, self, best_sell)
    end
  else None.

(** [_match_buy], the [if best_sell.quantity == 0] (lines 93 to 98). *)
Definition match_buy_settle (objects : store) (self : t) (best_sell : nat) : option t :=
  if Order.quantity (objects best_sell) =? 0 then
    match heapq.heappop (lt objects) (sell_heap self) with
    | Some (_, heap) =>
        Some (_notify_update (set_sell_heap self heap)
                (Order.price (objects best_sell)) 0 false)
    | None => None
    end
  else
    Some (_notify_update self
            (Order.price (objects best_sell)) (Order.quantity (objects best_sell)) false).

Definition match_buy_body (objects : store) (self : t) (buy_order : nat)
    : option (store * t) :=
  match match_buy_trade objects self buy_order with
  | Some (objects, self, best_sell) =>
      match match_buy_settle objects self best_sell with
      | Some self => Some (objects, self)
      | None => None
      end
  | None => None
  end.

Fixpoint match_buy_loop (fuel : nat) (objects : store) (self : t) (buy_order : nat)
    : store * t :=
  match fuel with
  | O => (objects, self)
  | S fuel =>
      match match_buy_body objects self buy_order with
      | Some (objects, self) => match_buy_loop fuel objects self buy_order
      | None => (objects, self)
      end
  end.

Definition _match_buy (objects : store) (self : t) (buy_order : nat) : store * t :=
  match_buy_loop (S (length (sell_heap self))) objects self buy_order.

(** [_match_sell], lines 101 to 122. *)
Definition match_sell_trade (objects : store) (self : t) (sell_order : nat)
    : option (store * t * nat) :=
  if bool_decide (Order.quantity (objects sell_order) > 0) then
    match buy_heap self !! 0%nat with
    | None => None
    | Some best_buy =>
        if (Order.order_type (objects sell_order) =? "limit")%string
           && (Order.price (objects best_buy) <? Order.price (objects sell_order))
        then None
        else
          let trade_qty := Z.min (Order.quantity (objects sell_order))
                                 (Order.quantity (objects best_buy)) in
          let trade_price := Order.price (objects best_buy) in
          let trade := Trade.mk (Order.order_id (objects best_buy))
                                (Order.order_id (objects sell_order))
                                trade_price trade_qty in
          let self := log_trade self trade in
          let objects := sub_quantity objects sell_order trade_qty in
          let objects := sub_quantity objects best_buy trade_qty in
          Some (objects, self, best_buy)
    end
  else None.

(** [_match_sell], lines 127 to 132. *)
Definition match_sell_settle (objects : store) (self : t) (best_buy : nat) : option t :=
  if Order.quantity (objects best_buy) =? 0 then
    match heapq.heappop (lt objects) (buy_heap self) with
    | Some (_, heap) =>
        Some (_notify_update (set_buy_heap self heap)
                (Order.price (objects best_buy)) 0 true)
    | None => None
    end
  else
    Some (_notify_update self
            (Order.price (objects best_buy)) (Order.quantity (objects best_buy)) true).

Definition match_sell_body (objects : store) (self : t) (sell_order : nat)
    : option (store * t) :=
  match match_sell_trade objects self sell_order with
  | Some (objects, self, best_buy) =>
      match match_sell_settle objects self best_buy with
      | Some self => Some (objects, self)
      | None => None
      end
  | None => None
  end.

Fixpoint match_sell_loop (fuel : nat) (objects : store) (self : t) (sell_order : nat)
    : store * t :=
  match fuel with
  | O => (objects, self)
  | S fuel =>
      match match_sell_body objects self sell_order with
      | Some (objects, self) => match_sell_loop fuel objects self sell_order
      | None => (objects, self)
      end
  end.

Definition _match_sell (objects : store) (self : t) (sell_order : nat) : store * t :=
  match_sell_loop (S (length (buy_heap self))) objects self sell_order.

(** [add_order] on the object at address [order]: it yields the store and
    the book it leaves behind. *)
Definition add_order (objects : store) (self : t) (order : nat) : store * t :=
  if Order.side (objects order) then
    let '(objects, self) := _match_buy objects self order in
    if bool_decide (Order.quantity (objects order) > 0)
       && (Order.order_type (objects order) =? "limit")%string
    then (objects, set_buy_heap self (heapq.heappush (lt objects) (buy_heap self) order))
    else (objects, self)
  else
    let '(objects, self) := _match_sell objects self order in
    if bool_decide (Order.quantity (objects order) > 0)
       && (Order.order_type (objects order) =? "limit")%string
    then (objects, set_sell_heap self (heapq.heappush (lt objects) (sell_heap self) order))
    else (objects, self).

(** The book as its readers find it: every heap entry with the fields that
    the object holds now. *)
Definition view (objects : store) (self : t) : OrderBook.t :=
  OrderBook.mk (instrument_id self) (objects <$> buy_heap self) (objects <$> sell_heap self)
    (trade_log self) (on_market_update self) (notified self).

Definition get_best_bid (objects : store) (self : t) : option Order.t :=
  objects <$> buy_heap self !! 0%nat.

Definition get_best_ask (objects : store) (self : t) : option Order.t :=
  objects <$> sell_heap self !! 0%nat.

(** [dump_book] reads [order.price] and [order.quantity] of every heap
    entry. *)
Definition dump_book (objects : store) (self : t) : list (Z * Z) * list (Z * Z) :=
  OrderBook.dump_book (view objects self).

(** A sequence of [add_order] calls, and the same on a new book. *)
Definition calls (objects : store) (self : t) (orders : list nat) : store * t :=
  foldl (λ '(objects, self) order, add_order objects self order) (objects, self) orders.

Definition run (instrument_id : string) (on_market_update : bool)
    (objects : store) (orders : list nat) : store * t :=
  calls objects (__init__ instrument_id on_market_update) orders.

(** The addresses resting in the book. *)
Definition resting_objects (self : t) : list nat := buy_heap self ++ sell_heap self.
End ObjectBook.

(** The two matching loops of [ObjectBook] as one, for a taker of side [s]
    (lemmas [object_buy_body_eq] and [object_sell_body_eq] below). *)
Module ObjectMatching.
Definition resting (s : bool) (self : ObjectBook.t) : list nat :=
  if s then ObjectBook.sell_heap self else ObjectBook.buy_heap self.

Definition own (s : bool) (self : ObjectBook.t) : list nat :=
  if s then ObjectBook.buy_heap self else ObjectBook.sell_heap self.

Definition set_resting (s : bool) (self : ObjectBook.t) (h : list nat) : ObjectBook.t :=
  if s then ObjectBook.set_sell_heap self h else ObjectBook.set_buy_heap self h.

Definition set_own (s : bool) (self : ObjectBook.t) (h : list nat) : ObjectBook.t :=
  if s then ObjectBook.set_buy_heap self h else ObjectBook.set_sell_heap self h.

Definition trade (s : bool) (objects : ObjectBook.store) (self : ObjectBook.t)
    (order : nat) : option (ObjectBook.store * ObjectBook.t * nat) :=
  if bool_decide (Order.quantity (objects order) > 0) then
    match resting s self !! 0%nat with
    | None => None
    | Some best =>
        if (Order.order_type (objects order) =? "limit")%string
           && Matching.beyond_limit s (objects best) (objects order)
        then None
        else
          let trade_qty := Z.min (Order.quantity (objects order))
                                 (Order.quantity (objects best)) in
          let self := ObjectBook.log_trade self
                        (Matching.trade_of s (objects order) (objects best) trade_qty) in
          let objects := ObjectBook.sub_quantity objects order trade_qty in
          let objects := ObjectBook.sub_quantity objects best trade_qty in
          Some (objects, self, best)
    end
  else None.

Definition settle (s : bool) (objects : ObjectBook.store) (self : ObjectBook.t)
    (best : nat) : option ObjectBook.t :=
  if Order.quantity (objects best) =? 0 then
    match heapq.heappop (ObjectBook.lt objects) (resting s self) with
    | Some (_, heap) =>
        Some (ObjectBook._notify_update (set_resting s self heap)
                (Order.price (objects best)) 0 (negb s))
    | None => None
    end
  else
    Some (ObjectBook._notify_update self
            (Order.price (objects best)) (Order.quantity (objects best)) (negb s)).

Definition body (s : bool) (objects : ObjectBook.store) (self : ObjectBook.t)
    (order : nat) : option (ObjectBook.store * ObjectBook.t) :=
  match trade s objects self order with
  | Some (objects, self, best) =>
      match settle s objects self best with
      | Some self => Some (objects, self)
      | None => None
      end
  | None => None
  end.

Fixpoint loop (s : bool) (fuel : nat) (objects : ObjectBook.store) (self : ObjectBook.t)
    (order : nat) : ObjectBook.store * ObjectBook.t :=
  match fuel with
  | O => (objects, self)
  | S fuel =>
      match body s objects self order with
      | Some (objects, self) => loop s fuel objects self order
      | None => (objects, self)
      end
  end.

Definition run (s : bool) (objects : ObjectBook.store) (self : ObjectBook.t)
    (order : nat) : ObjectBook.store * ObjectBook.t :=
  loop s (S (length (resting s self))) objects self order.
End ObjectMatching.

(** ** Vocabulary of the properties *)

(** An order up to its remaining quantity, the one field matching changes. *)
Definition same_order (x y : Order.t) : Prop :=
  Order.set_quantity x 0 = Order.set_quantity y 0.

(** The quantity resting in a heap, and at one price of it. *)
Definition total_quantity (heap : list Order.t) : Z :=
  foldr (λ o acc, Order.quantity o + acc) 0 heap.

Definition level_quantity (p : Z) (heap : list Order.t) : Z :=
  total_quantity (filter (λ o, Order.price o = p) heap).

Definition trades_quantity (trades : list Trade.t) : Z :=
  foldr (λ t acc, Trade.quantity t + acc) 0 trades.

(** The highest and the lowest price resting in a heap. *)
Definition max_price (heap : list Order.t) : option Z :=
  foldr (λ o m, match m with
                | None => Some (Order.price o)
                | Some p => Some (Z.max (Order.price o) p)
                end) None heap.

Definition min_price (heap : list Order.t) : option Z :=
  foldr (λ o m, match m with
                | None => Some (Order.price o)
                | Some p => Some (Z.min (Order.price o) p)
                end) None heap.

(** Either side is empty, or the best bid is strictly below the best ask. *)
Definition uncrossed (self : OrderBook.t) : Prop :=
  match max_price (OrderBook.buy_heap self), min_price (OrderBook.sell_heap self) with
  | Some bid, Some ask => bid < ask
  | _, _ => True
  end.

(** What a call appended to the trade log and to the notifications. *)
Definition new_trades (before after : OrderBook.t) : list Trade.t :=
  drop (length (OrderBook.trade_log before)) (OrderBook.trade_log after).

Definition new_updates (before after : OrderBook.t) : list LevelUpdate.t :=
  drop (length (OrderBook.notified before)) (OrderBook.notified after).

(** The invariant of one heap of the book: the orders of one side, in heap
    order, each with a positive remaining quantity. *)
Definition side_inv (s : bool) (heap : list Order.t) : Prop :=
  Forall (λ o, Order.side o = s) heap ∧
  heapq.heap_ordered Order.__lt__ heap ∧
  Forall (λ o, 0 < Order.quantity o) heap.

Definition book_inv (self : OrderBook.t) : Prop :=
  side_inv true (OrderBook.buy_heap self) ∧
  side_inv false (OrderBook.sell_heap self) ∧
  ∀ x y, x ∈ OrderBook.buy_heap self → y ∈ OrderBook.sell_heap self →
         Order.price x < Order.price y.

(** [x], on the side of an incoming order of side [s], does not cross [y],
    on the opposite side. *)
Definition below (s : bool) (x y : Order.t) : Prop :=
  if s then Order.price x < Order.price y else Order.price y < Order.price x.

(** What one iteration of the matching loop does. *)
Record step_spec (s : bool) (self : OrderBook.t) (taker : Order.t)
    (self' : OrderBook.t) (taker' : Order.t) (best : Order.t) (rest : list Order.t)
    : Prop := {
  step_taker_pos : Order.quantity taker > 0;
  step_resting : Matching.resting s self = best :: rest;
  step_within_limit :
    Order.order_type taker = "limit" → Matching.beyond_limit s best taker = false;
  step_taker : taker' = Order.set_quantity taker
                 (Order.quantity taker - Z.min (Order.quantity taker) (Order.quantity best));
  step_trade : OrderBook.trade_log self' =
               OrderBook.trade_log self ++
               [Matching.trade_of s taker best
                  (Z.min (Order.quantity taker) (Order.quantity best))];
  step_notified : OrderBook.notified self' =
                  OrderBook.notified self ++
                  (if OrderBook.on_market_update self
                   then [LevelUpdate.mk (OrderBook.instrument_id self) (Order.price best)
                           (Order.quantity best
                            - Z.min (Order.quantity taker) (Order.quantity best))
                           (negb s)]
                   else []);
  step_own : Matching.own s self' = Matching.own s self;
  step_instrument : OrderBook.instrument_id self' = OrderBook.instrument_id self;
  step_callback : OrderBook.on_market_update self' = OrderBook.on_market_update self;
  step_heap :
    let best' := Order.set_quantity best
                   (Order.quantity best - Z.min (Order.quantity taker) (Order.quantity best)) in
    if Order.quantity best' =? 0
    then heapq.heappop Order.__lt__ (best' :: rest) = Some (best', Matching.resting s self')
    else Matching.resting s self' = best' :: rest
}.

(** ** The run of the matching loop as a sequence of fills

    A fill is the resting order as it was when it was matched, with the
    quantity traded. *)
Inductive steps (s : bool) :
    OrderBook.t → Order.t → list (Order.t * Z) → OrderBook.t → Order.t → Prop :=
  | steps_done self taker : steps s self taker [] self taker
  | steps_fill self taker self1 taker1 best rest fills self' taker' :
      step_spec s self taker self1 taker1 best rest →
      steps s self1 taker1 fills self' taker' →
      steps s self taker
        ((best, Z.min (Order.quantity taker) (Order.quantity best)) :: fills)
        self' taker'.

Definition fill_trade (s : bool) (taker : Order.t) (fill : Order.t * Z) : Trade.t :=
  Matching.trade_of s taker fill.1 fill.2.

Definition fill_update (s : bool) (instrument_id : string) (fill : Order.t * Z)
    : LevelUpdate.t :=
  LevelUpdate.mk instrument_id (Order.price fill.1)
    (Order.quantity fill.1 - fill.2) (negb s).

(** ** Books and orders of the examples *)

(** Two sell orders resting at the same price. *)
Definition two_asks_book : OrderBook.t :=
  OrderBook.run "BTC_USD" true
    [Order.mk 1 100 5 false "limit" 1; Order.mk 2 100 3 false "limit" 2].

(** Asks [{101: 3, 102: 2}]. *)
Definition thin_asks_orders : list Order.t :=
  [Order.mk 1 101 3 false "limit" 1; Order.mk 2 102 2 false "limit" 2].

(** Four bids at one price, created at the same clock reading and submitted
    in the order of their identifiers. *)
Definition tied_bids_orders : list Order.t :=
  [Order.mk 1 100 5 true "limit" 1; Order.mk 2 100 5 true "limit" 1;
   Order.mk 3 100 5 true "limit" 1; Order.mk 4 100 5 true "limit" 1].

(** A client that has applied a snapshot taken at timestamp 10, with 5 bid at
    100, and an update older than the snapshot. *)
Definition synced_client : ClientOrderBook.t :=
  ClientOrderBook.apply_snapshot (ClientOrderBook.__init__ "BTC_USD")
    (OrderBookSnapshot.mk [OrderBookLevel.mk 100 5] [] 10).

Definition stale_update : OrderBookUpdate.t := OrderBookUpdate.mk 100 7 true 5.

(** A store whose objects were created with the given fields, one object per
    address. *)
Definition objects_of (orders : list Order.t) : ObjectBook.store :=
  λ address, default (Order.mk 0 0 0 false "" 0) (orders !! address).

(** A bid and an ask for 5 at 100, and a second ask for 5 at 100. *)
Definition bid_and_asks : ObjectBook.store :=
  objects_of [Order.mk 1 100 5 true "limit" 1; Order.mk 2 100 5 false "limit" 2;
              Order.mk 3 100 5 false "limit" 3].

(** ** Vocabulary of the replica's properties *)

(** A dictionary of levels and its heap of prices agree: the heap is in heap
    order, its entries are [(key price, price)], every level has a positive
    quantity and its price is in the heap.  [key] is [Z.opp] for the bids and
    the identity for the asks. *)
Definition level_heap_inv (key : Z → Z) (levels : gmap Z Z) (heap : list (Z * Z))
    : Prop :=
  heapq.heap_ordered ClientOrderBook.tuple_lt heap ∧
  Forall (λ entry, entry.1 = key entry.2) heap ∧
  ∀ p q, levels !! p = Some q → q > 0 ∧ (key p, p) ∈ heap.

Definition client_inv (self : ClientOrderBook.t) : Prop :=
  level_heap_inv Z.opp (ClientOrderBook.bids self) (ClientOrderBook._bid_heap self) ∧
  level_heap_inv id (ClientOrderBook.asks self) (ClientOrderBook._ask_heap self).

(** The calls that [market_data_client.py] and [frontend/main.py] make on a
    replica, and a replica after a sequence of them. *)
Inductive client_call : Type :=
  | call_snapshot (snapshot : OrderBookSnapshot.t)
  | call_update (update : OrderBookUpdate.t)
  | call_best_bid
  | call_best_ask
  | call_to_dict.

Definition do_call (self : ClientOrderBook.t) (call : client_call) : ClientOrderBook.t :=
  match call with
  | call_snapshot snapshot => ClientOrderBook.apply_snapshot self snapshot
  | call_update update => ClientOrderBook.apply_update self update
  | call_best_bid => (ClientOrderBook.get_best_bid self).2
  | call_best_ask => (ClientOrderBook.get_best_ask self).2
  | call_to_dict => (ClientOrderBook.to_dict self).2
  end.

(** A snapshot without empty levels, as [dump_book] makes them. *)
Definition positive_snapshot (snapshot : OrderBookSnapshot.t) : Prop :=
  Forall (λ level, OrderBookLevel.quantity level > 0) (OrderBookSnapshot.bids snapshot) ∧
  Forall (λ level, OrderBookLevel.quantity level > 0) (OrderBookSnapshot.asks snapshot).

Definition positive_call (call : client_call) : Prop :=
  match call with
  | call_snapshot snapshot => positive_snapshot snapshot
  | _ => True
  end.

(** The prices resting in a heap. *)
Definition prices_of (heap : list Order.t) : list Z := Order.price <$> heap.

(** The level that an order stands for in [dump_book]. *)
Definition level_of (heap : list Order.t) (o : Order.t) : Z * Z :=
  (Order.price o, level_quantity (Order.price o) heap).

(** The orders of a heap are limit orders. *)
Definition all_limit (heap : list Order.t) : Prop :=
  Forall (λ o, Order.order_type o = "limit") heap.

(** * Facts about [heapq] *)

Section heapq_data.
Context {A : Type}.
Variable lt : A → A → bool.
Implicit Types heap : list A.

Lemma parent_of_lt j : (0 < j)%nat → (heapq.parent_of j < j)%nat.
Proof. unfold heapq.parent_of. intros. apply Nat.Div0.div_lt_upper_bound. lia. Qed.

Lemma parent_of_children c pos :
  (0 < c)%nat → heapq.parent_of c = pos → c = (2 * pos + 1)%nat ∨ c = (2 * pos + 2)%nat.
Proof.
  unfold heapq.parent_of. intros Hc <-.
  pose proof (Nat.div_mod_eq (c - 1) 2) as Hd.
  pose proof (Nat.mod_upper_bound (c - 1) 2). lia.
Qed.

Lemma parent_of_left pos : heapq.parent_of (2 * pos + 1) = pos.
Proof.
  unfold heapq.parent_of. replace (2 * pos + 1 - 1)%nat with (pos * 2)%nat by lia.
  by rewrite Nat.div_mul.
Qed.

Lemma parent_of_right pos : heapq.parent_of (2 * pos + 2) = pos.
Proof.
  unfold heapq.parent_of. replace (2 * pos + 2 - 1)%nat with (1 + pos * 2)%nat by lia.
  rewrite Nat.div_add by lia. done.
Qed.

(** Moving the value found at [i] into [j] and writing [v] at [i] holds the
    same elements as writing [v] at [j]. *)
Lemma insert_move_Permutation heap i j a v :
  heap !! i = Some a → i ≠ j → (j < length heap)%nat →
  <[i := v]> (<[j := a]> heap) ≡ₚ <[j := v]> heap.
Proof.
  intros Hi Hij Hj.
  rewrite <-(list_insert_insert_eq heap j a v).
  apply Permutation_insert_swap.
  - by apply list_lookup_insert_eq.
  - by rewrite list_lookup_insert_ne.
Qed.

Lemma siftdown_loop_length fuel newitem startpos heap pos :
  length (heapq.siftdown_loop lt fuel newitem startpos heap pos) = length heap.
Proof.
  revert heap pos. induction fuel as [|fuel IH]; intros heap pos; simpl.
  { by rewrite length_insert. }
  case_decide; [|by rewrite length_insert].
  destruct (heap !! heapq.parent_of pos) as [parent|]; [|done].
  destruct (lt newitem parent); [|by rewrite length_insert].
  by rewrite IH, length_insert.
Qed.

(** The bound on the iterations of [_siftdown] is enough: more fuel changes
    nothing. *)
Lemma siftdown_loop_fuel fuel1 fuel2 newitem startpos heap pos :
  (pos ≤ fuel1)%nat → (pos ≤ fuel2)%nat →
  heapq.siftdown_loop lt fuel1 newitem startpos heap pos =
  heapq.siftdown_loop lt fuel2 newitem startpos heap pos.
Proof.
  revert fuel2 heap pos.
  induction fuel1 as [|fuel1 IH]; intros [|fuel2] heap pos H1 H2; simpl; try done.
  - assert (pos = 0%nat) as -> by lia. by case_decide; [lia|].
  - assert (pos = 0%nat) as -> by lia. by case_decide; [lia|].
  - case_decide as Hpos; [|done].
    destruct (heap !! heapq.parent_of pos) as [parent|]; [|done].
    destruct (lt newitem parent); [|done].
    pose proof (parent_of_lt pos ltac:(lia)). apply IH; lia.
Qed.

Lemma siftdown_loop_Permutation fuel newitem startpos heap pos :
  (pos < length heap)%nat →
  heapq.siftdown_loop lt fuel newitem startpos heap pos ≡ₚ <[pos := newitem]> heap.
Proof.
  revert heap pos. induction fuel as [|fuel IH]; intros heap pos Hpos; simpl; [done|].
  case_decide as Hgt; [|done].
  destruct (heap !! heapq.parent_of pos) as [parent|] eqn:Hpar.
  - destruct (lt newitem parent); [|done].
    pose proof (parent_of_lt pos ltac:(lia)) as Hlt.
    rewrite IH by (rewrite length_insert; lia).
    apply insert_move_Permutation; [done|lia|done].
  - apply lookup_ge_None_1 in Hpar.
    pose proof (parent_of_lt pos ltac:(lia)). lia.
Qed.

Lemma _siftdown_length heap startpos pos :
  length (heapq._siftdown lt heap startpos pos) = length heap.
Proof.
  unfold heapq._siftdown. destruct (heap !! pos); [|done].
  apply siftdown_loop_length.
Qed.

Lemma _siftdown_Permutation heap startpos pos :
  heapq._siftdown lt heap startpos pos ≡ₚ heap.
Proof.
  unfold heapq._siftdown. destruct (heap !! pos) as [newitem|] eqn:Hpos; [|done].
  rewrite siftdown_loop_Permutation by eauto using lookup_lt_Some.
  by rewrite list_insert_id.
Qed.

Lemma smaller_child_cases endpos heap childpos :
  heapq.smaller_child lt endpos heap childpos = childpos ∨
  (heapq.smaller_child lt endpos heap childpos = (childpos + 1)%nat ∧
   (childpos + 1 < endpos)%nat).
Proof.
  unfold heapq.smaller_child. case_decide; [|by left].
  destruct (heap !! childpos) as [c|]; [|by left].
  destruct (heap !! (childpos + 1)%nat) as [r|]; [|by left].
  destruct (lt c r); [by left|by right].
Qed.

(** The loop of [_siftup] keeps the length, ends on a leaf, and moves the
    hole without losing an element: whatever is written into the hole, the
    lists before and after hold the same elements. *)
Lemma siftup_loop_spec fuel endpos heap pos childpos heap' pos' :
  heapq.siftup_loop lt fuel endpos heap pos childpos = (heap', pos') →
  endpos = length heap →
  childpos = (2 * pos + 1)%nat → (pos < length heap)%nat →
  (length heap ≤ childpos + fuel)%nat →
  length heap' = length heap ∧
  (pos ≤ pos' < length heap)%nat ∧
  (length heap ≤ 2 * pos' + 1)%nat ∧
  ∀ v, <[pos' := v]> heap' ≡ₚ <[pos := v]> heap.
Proof.
  revert heap pos childpos.
  induction fuel as [|fuel IH]; intros heap pos childpos Hrun Hend -> Hpos Hfuel;
    cbn [heapq.siftup_loop] in Hrun.
  { simplify_eq. repeat split; (lia || done). }
  case_decide as Hchild; [|simplify_eq; repeat split; (lia || done)].
  pose proof (smaller_child_cases endpos heap (2 * pos + 1)) as Hcases.
  destruct (heap !! heapq.smaller_child lt endpos heap (2 * pos + 1))
    as [c|] eqn:Hc.
  - pose proof (lookup_lt_Some _ _ _ Hc) as Hclt.
    apply IH in Hrun as (Hlen & Hle & Hleaf & Hperm);
      [|by rewrite length_insert|done|rewrite length_insert; lia
       |rewrite length_insert; lia].
    rewrite length_insert in Hlen, Hle, Hleaf.
    repeat split; [done|lia|lia|done|].
    intros v. rewrite Hperm.
    apply insert_move_Permutation; [done|lia|done].
  - apply lookup_ge_None_1 in Hc. lia.
Qed.

Lemma _siftup_length heap pos : length (heapq._siftup lt heap pos) = length heap.
Proof.
  unfold heapq._siftup. destruct (heap !! pos) as [newitem|] eqn:Hpos; [|done].
  destruct (heapq.siftup_loop _ _ _ _ _ _) as [heap' pos'] eqn:Hrun.
  apply siftup_loop_spec in Hrun as (Hlen & _);
    [|done|done|eauto using lookup_lt_Some|lia].
  by rewrite _siftdown_length, length_insert.
Qed.

Lemma _siftup_Permutation heap pos : heapq._siftup lt heap pos ≡ₚ heap.
Proof.
  unfold heapq._siftup. destruct (heap !! pos) as [newitem|] eqn:Hpos; [|done].
  destruct (heapq.siftup_loop _ _ _ _ _ _) as [heap' pos'] eqn:Hrun.
  apply siftup_loop_spec in Hrun as (_ & _ & _ & Hperm);
    [|done|done|eauto using lookup_lt_Some|lia].
  by rewrite _siftdown_Permutation, Hperm, list_insert_id.
Qed.

Lemma heappush_length heap item :
  length (heapq.heappush lt heap item) = S (length heap).
Proof.
  unfold heapq.heappush. rewrite _siftdown_length, length_app. simpl. lia.
Qed.

Lemma heappush_Permutation heap item :
  heapq.heappush lt heap item ≡ₚ item :: heap.
Proof.
  unfold heapq.heappush. rewrite _siftdown_Permutation.
  by rewrite (comm (++)).
Qed.

(** [heappop] fails on the empty list only; otherwise it returns the first
    element and leaves the others. *)
Lemma heappop_nil : heapq.heappop lt [] = None.
Proof. done. Qed.

Lemma heappop_cons x heap :
  ∃ heap', heapq.heappop lt (x :: heap) = Some (x, heap') ∧
           heap' ≡ₚ heap ∧ length heap' = length heap.
Proof.
  unfold heapq.heappop.
  destruct (last (x :: heap)) as [lastelt|] eqn:Hlast;
    [|by apply last_None in Hlast].
  apply last_Some in Hlast as [front Hfront].
  rewrite Hfront, length_app, take_app_length' by (simpl; lia).
  destruct front as [|y front]; simplify_eq/=.
  { by exists []. }
  eexists; split; [done|].
  split.
  - rewrite _siftup_Permutation. by rewrite (comm (++)).
  - rewrite _siftup_length, length_app. simpl. lia.
Qed.
End heapq_data.

(** The order invariant.  The comparison is only required to behave like a
    strict weak order on the elements that satisfy [P]: [Order.__lt__] does so
    on the orders of one side, not on all orders. *)
Section heapq_order.
Context {A : Type}.
Variable lt : A → A → bool.
Variable P : A → Prop.
Hypothesis lt_asym : ∀ a b, P a → P b → lt a b = true → lt b a = false.
Hypothesis lt_negtrans : ∀ a b c, P a → P b → P c →
  lt b a = false → lt c b = false → lt c a = false.
Implicit Types heap : list A.

Lemma P_lookup heap i x : Forall P heap → heap !! i = Some x → P x.
Proof. apply Forall_lookup_1. Qed.

Lemma lt_irrefl a : P a → lt a a = false.
Proof.
  intros Ha. destruct (lt a a) eqn:Haa; [|done].
  by rewrite (lt_asym a a Ha Ha Haa) in Haa.
Qed.

Lemma heap_ordered_nil : heapq.heap_ordered lt [].
Proof. intros j x y _ Hx. by rewrite lookup_nil in Hx. Qed.

(** The first element of a heap-ordered list is a least element. *)
Lemma heap_ordered_root heap r x :
  heapq.heap_ordered lt heap → Forall P heap →
  heap !! 0%nat = Some r → x ∈ heap → lt x r = false.
Proof.
  intros Hord HP Hr [j Hj]%list_elem_of_lookup_1. revert x Hj.
  induction (lt_wf j) as [j _ IH]; intros x Hj.
  destruct (decide (j = 0%nat)) as [->|Hne].
  { simplify_eq. eapply lt_irrefl, P_lookup; eauto. }
  pose proof (parent_of_lt j ltac:(lia)) as Hlt.
  destruct (lookup_lt_is_Some_2 heap (heapq.parent_of j)) as [y Hy].
  { apply lookup_lt_Some in Hj. lia. }
  eapply (lt_negtrans r y x); eauto using P_lookup.
  eapply Hord; [|done..]. lia.
Qed.

(** Writing an element that compares like the one it replaces keeps the
    order. *)
Lemma heap_ordered_insert_equiv heap i a a' :
  heapq.heap_ordered lt heap → heap !! i = Some a →
  (∀ x, lt a' x = lt a x) → (∀ x, lt x a' = lt x a) →
  heapq.heap_ordered lt (<[i := a']> heap).
Proof.
  intros Hord Hi Hl Hr j x y Hj Hx Hy.
  pose proof (parent_of_lt j Hj) as Hlt.
  apply list_lookup_insert_Some in Hx as [(-> & -> & _)|[Hne Hx]];
    apply list_lookup_insert_Some in Hy as [(Heq & -> & _)|[Hne' Hy]];
    try lia.
  - rewrite Hl. eapply Hord; eauto.
  - rewrite Hr. eapply Hord; eauto. by rewrite <-Heq.
  - eapply Hord; eauto.
Qed.

Lemma hole_inv_insert heap pos v :
  heapq.hole_inv lt heap pos → heapq.hole_inv lt (<[pos := v]> heap) pos.
Proof.
  intros [H1 H2]. split.
  - intros j x y Hj Hne Hpne Hx Hy.
    rewrite list_lookup_insert_ne in Hx, Hy by done. eauto.
  - intros c x y Hpos Hc Hpar Hx Hy.
    pose proof (parent_of_lt c Hc). pose proof (parent_of_lt pos Hpos).
    rewrite list_lookup_insert_ne in Hx, Hy by lia. eauto.
Qed.

(** Filling the hole with a value that fits between the parent and the
    children gives a heap-ordered list. *)
Lemma hole_inv_close heap pos v :
  heapq.hole_inv lt heap pos → heapq.above_children lt heap pos v →
  (∀ y, (0 < pos)%nat → heap !! heapq.parent_of pos = Some y → lt v y = false) →
  heapq.heap_ordered lt (<[pos := v]> heap).
Proof.
  intros [H1 H2] Hch Hpar j x y Hj Hx Hy.
  pose proof (parent_of_lt j Hj) as Hlt.
  apply list_lookup_insert_Some in Hx as [(-> & -> & _)|[Hne Hx]];
    apply list_lookup_insert_Some in Hy as [(Heq & -> & _)|[Hne' Hy]];
    try lia; eauto.
Qed.

Lemma heap_ordered_hole_inv heap pos :
  heapq.heap_ordered lt heap → Forall P heap → heapq.hole_inv lt heap pos.
Proof.
  intros Hord HP. split; [by eauto|].
  intros c x y Hpos Hc Hpar Hx Hy.
  destruct (lookup_lt_is_Some_2 heap pos) as [z Hz].
  { apply lookup_lt_Some in Hx. pose proof (parent_of_lt c Hc). lia. }
  eapply (lt_negtrans y z x); eauto using P_lookup.
  eapply Hord; [done|done|by rewrite Hpar].
Qed.

(** One iteration of [_siftdown]: the parent moves down into the hole. *)
Lemma hole_inv_move_up heap pos newitem parent :
  Forall P heap → P newitem →
  heapq.hole_inv lt heap pos → heapq.above_children lt heap pos newitem →
  (0 < pos)%nat → heap !! heapq.parent_of pos = Some parent →
  lt newitem parent = true →
  heapq.hole_inv lt (<[pos := parent]> heap) (heapq.parent_of pos) ∧
  heapq.above_children lt (<[pos := parent]> heap) (heapq.parent_of pos) newitem.
Proof.
  intros HP Hnew [H1 H2] Hch Hpos Hpar Hlt.
  pose proof (parent_of_lt pos Hpos) as Hppos.
  assert (P parent) as HPpar by eauto using P_lookup.
  assert (lt parent newitem = false) as Hle by eauto.
  split; [split|].
  - intros j x y Hj Hne Hpne Hx Hy.
    apply list_lookup_insert_Some in Hx as [(-> & -> & _)|[Hne1 Hx]]; [done|].
    apply list_lookup_insert_Some in Hy as [(Heq & -> & _)|[Hne2 Hy]]; eauto.
  - intros c x y Hpp Hc Hcpar Hx Hy.
    pose proof (parent_of_lt _ Hpp) as Hlt2.
    rewrite list_lookup_insert_ne in Hy by lia.
    assert (lt parent y = false) as Hpy.
    { apply (H1 (heapq.parent_of pos)); [done|lia|lia|done..]. }
    apply list_lookup_insert_Some in Hx as [(-> & -> & _)|[Hne1 Hx]]; [done|].
    apply (lt_negtrans y parent x); eauto using P_lookup.
    apply (H1 c); [done|done|lia|done|by rewrite Hcpar].
  - intros c x Hc Hcpar Hx.
    apply list_lookup_insert_Some in Hx as [(-> & -> & _)|[Hne1 Hx]]; [done|].
    apply (lt_negtrans newitem parent x); eauto using P_lookup.
    apply (H1 c); [done|done|lia|done|by rewrite Hcpar].
Qed.

Lemma siftdown_loop_ordered fuel newitem heap pos :
  Forall P heap → P newitem → (pos ≤ fuel)%nat →
  heapq.hole_inv lt heap pos → heapq.above_children lt heap pos newitem →
  heapq.heap_ordered lt (heapq.siftdown_loop lt fuel newitem 0 heap pos).
Proof.
  revert heap pos.
  induction fuel as [|fuel IH]; intros heap pos HP Hnew Hfuel Hhole Hch;
    cbn [heapq.siftdown_loop].
  { apply hole_inv_close; [done..|]. intros; lia. }
  case_decide as Hpos; [|apply hole_inv_close; [done..|intros; lia]].
  pose proof (parent_of_lt pos Hpos) as Hppos.
  destruct (heap !! heapq.parent_of pos) as [parent|] eqn:Hpar.
  - destruct (lt newitem parent) eqn:Hlt.
    + destruct (hole_inv_move_up heap pos newitem parent) as [Hhole' Hch']; [done..|].
      apply IH; [|done|lia|done..].
      apply Forall_insert; eauto using P_lookup.
    + apply hole_inv_close; [done..|]. intros y _ Hy. by simplify_eq.
  - destruct Hhole as [H1 _]. intros j x y Hj Hx Hy.
    destruct (decide (j = pos)) as [->|Hne]; [by simplify_eq|].
    destruct (decide (heapq.parent_of j = pos)) as [Heq|Hne']; [|by eauto].
    apply lookup_ge_None_1 in Hpar. apply lookup_lt_Some in Hy. lia.
Qed.

Lemma smaller_child_spec heap pos c :
  Forall P heap →
  heap !! heapq.smaller_child lt (length heap) heap (2 * pos + 1) = Some c →
  heapq.parent_of (heapq.smaller_child lt (length heap) heap (2 * pos + 1)) = pos ∧
  heapq.above_children lt heap pos c.
Proof.
  intros HP Hc. unfold heapq.above_children, heapq.smaller_child in *.
  assert (∀ j x, (0 < j)%nat → heapq.parent_of j = pos → heap !! j = Some x →
            (j = (2 * pos + 1)%nat ∨ j = (2 * pos + 1 + 1)%nat) ∧ P x) as Hkids.
  { intros j x Hj Hpar Hx. split; [|by eauto using P_lookup].
    destruct (parent_of_children j pos Hj Hpar); lia. }
  assert (heapq.parent_of (2 * pos + 1 + 1) = pos) as Hright.
  { replace (2 * pos + 1 + 1)%nat with (2 * pos + 2)%nat by lia.
    apply parent_of_right. }
  pose proof (parent_of_left pos) as Hleft.
  case_decide as Hr.
  - destruct (heap !! (2 * pos + 1)%nat) as [l|] eqn:Hl;
      [|by apply lookup_ge_None_1 in Hl; lia].
    destruct (heap !! (2 * pos + 1 + 1)%nat) as [r|] eqn:Hrr;
      [|by apply lookup_ge_None_1 in Hrr; lia].
    assert (P l ∧ P r) as [HPl HPr] by eauto using P_lookup.
    destruct (lt l r) eqn:Hlr; simplify_eq; (split; [done|]);
      intros j x Hj Hpar Hx; destruct (Hkids j x Hj Hpar Hx) as [[->| ->] HPx];
      simplify_eq; eauto using lt_irrefl.
  - split; [done|]. intros j x Hj Hpar Hx.
    destruct (Hkids j x Hj Hpar Hx) as [[->| ->] HPx]; simplify_eq.
    + by apply lt_irrefl.
    + apply lookup_lt_Some in Hx. lia.
Qed.

(** One iteration of [_siftup]: the smaller child moves up into the hole. *)
Lemma hole_inv_move_down heap pos c :
  Forall P heap → heapq.hole_inv lt heap pos →
  heap !! heapq.smaller_child lt (length heap) heap (2 * pos + 1) = Some c →
  heapq.hole_inv lt (<[pos := c]> heap)
    (heapq.smaller_child lt (length heap) heap (2 * pos + 1)).
Proof.
  intros HP [H1 H2] Hc.
  destruct (smaller_child_spec heap pos c HP Hc) as [Hpar Hch].
  pose proof (smaller_child_cases lt (length heap) heap (2 * pos + 1)) as Hcases.
  set (cp := heapq.smaller_child lt (length heap) heap (2 * pos + 1)) in *.
  assert (0 < cp)%nat as Hcp by (destruct Hcases as [?|[? _]]; lia).
  pose proof (parent_of_lt cp Hcp) as Hlt.
  split.
  - intros j x y Hj Hne Hpne Hx Hy.
    apply list_lookup_insert_Some in Hx as [(Hjp & Hxc & _)|[Hne1 Hx]].
    + subst j x. pose proof (parent_of_lt pos Hj).
      rewrite list_lookup_insert_ne in Hy by lia.
      by apply (H2 cp c y).
    + apply list_lookup_insert_Some in Hy as [(Heq & Hyc & _)|[Hne2 Hy]].
      * subst y. by apply (Hch j).
      * by apply (H1 j).
  - intros g x y _ Hg Hgpar Hx Hy.
    pose proof (parent_of_lt g Hg).
    rewrite list_lookup_insert_ne in Hx by lia.
    rewrite Hpar, list_lookup_insert_eq in Hy
      by (apply lookup_lt_Some in Hc; lia).
    simplify_eq. apply (H1 g); [done|lia|lia|done|by rewrite Hgpar].
Qed.

Lemma siftup_loop_hole fuel endpos heap pos childpos heap' pos' :
  heapq.siftup_loop lt fuel endpos heap pos childpos = (heap', pos') →
  endpos = length heap → childpos = (2 * pos + 1)%nat →
  Forall P heap → heapq.hole_inv lt heap pos →
  Forall P heap' ∧ heapq.hole_inv lt heap' pos'.
Proof.
  revert heap pos childpos.
  induction fuel as [|fuel IH]; intros heap pos childpos Hrun -> -> HP Hhole;
    cbn [heapq.siftup_loop] in Hrun; [by simplify_eq|].
  case_decide; [|by simplify_eq].
  destruct (heap !! heapq.smaller_child lt (length heap) heap (2 * pos + 1))
    as [c|] eqn:Hc; [|by simplify_eq].
  eapply IH in Hrun; [done|by rewrite length_insert|done| |].
  - apply Forall_insert; eauto using P_lookup.
  - by apply hole_inv_move_down.
Qed.

Lemma _siftup_root_ordered heap :
  Forall P heap → heapq.hole_inv lt heap 0 →
  heapq.heap_ordered lt (heapq._siftup lt heap 0).
Proof.
  intros HP Hhole. unfold heapq._siftup.
  destruct (heap !! 0%nat) as [newitem|] eqn:Hpos.
  2:{ apply lookup_ge_None_1 in Hpos. destruct heap; simpl in *; [|lia].
      apply heap_ordered_nil. }
  destruct (heapq.siftup_loop _ _ _ _ _ _) as [heap' pos'] eqn:Hrun.
  pose proof Hrun as Hspec.
  apply siftup_loop_spec in Hspec as (Hlen & Hle & Hleaf & _);
    [|done|done|eauto using lookup_lt_Some|lia].
  apply siftup_loop_hole in Hrun as [HP' Hhole']; [|done..].
  assert (P newitem) by eauto using P_lookup.
  unfold heapq._siftdown. rewrite list_lookup_insert_eq by lia.
  apply siftdown_loop_ordered; [|done|done|by apply hole_inv_insert|].
  - by apply Forall_insert.
  - intros c x Hc Hpar Hx. apply lookup_lt_Some in Hx.
    rewrite length_insert in Hx.
    destruct (parent_of_children c pos' Hc Hpar); lia.
Qed.

Theorem heappush_ordered heap item :
  Forall P heap → P item → heapq.heap_ordered lt heap →
  heapq.heap_ordered lt (heapq.heappush lt heap item).
Proof.
  intros HP Hitem Hord. unfold heapq.heappush, heapq._siftdown.
  rewrite length_app, Nat.add_sub. simpl.
  rewrite lookup_app_r, Nat.sub_diag by done. simpl.
  assert (heapq.hole_inv lt (heap ++ [item]) (length heap)) as Hhole.
  { destruct (heap_ordered_hole_inv heap (length heap) Hord HP) as [H1 H2]. split.
    - intros j x y Hj Hne Hpne Hx Hy. pose proof (parent_of_lt j Hj).
      apply lookup_lt_Some in Hx as Hlen. rewrite length_app in Hlen. simpl in Hlen.
      rewrite lookup_app_l in Hx, Hy by lia. eauto.
    - intros c x y Hpos Hc Hpar Hx Hy. pose proof (parent_of_lt c Hc).
      apply lookup_lt_Some in Hx. rewrite length_app in Hx. simpl in Hx. lia. }
  apply siftdown_loop_ordered; [|done|done|done|].
  - apply Forall_app. by split; [|apply Forall_singleton].
  - intros c x Hc Hpar Hx. pose proof (parent_of_lt c Hc).
    apply lookup_lt_Some in Hx. rewrite length_app in Hx. simpl in Hx. lia.
Qed.

Theorem heappop_ordered heap item heap' :
  Forall P heap → heapq.heap_ordered lt heap →
  heapq.heappop lt heap = Some (item, heap') →
  heapq.heap_ordered lt heap'.
Proof.
  intros HP Hord Hpop. unfold heapq.heappop in Hpop.
  destruct (last heap) as [lastelt|] eqn:Hlast; [|done].
  apply last_Some in Hlast as [front ->].
  rewrite length_app, take_app_length' in Hpop by (simpl; lia).
  destruct front as [|r front]; simplify_eq/=; [apply heap_ordered_nil|].
  apply Forall_cons in HP as [HPr HP]. apply Forall_app in HP as [HP HPl].
  apply Forall_inv in HPl.
  apply _siftup_root_ordered; [by apply Forall_cons|].
  split; [|intros; lia].
  intros j x y Hj _ Hpne Hx Hy.
  pose proof (parent_of_lt j Hj).
  destruct j as [|j]; [lia|].
  destruct (heapq.parent_of (S j)) as [|k] eqn:Hk; [done|].
  simpl in Hx, Hy.
  apply (Hord (S j) x y); [lia|simpl|rewrite Hk; simpl].
  - by apply lookup_app_l_Some.
  - by apply lookup_app_l_Some.
Qed.
End heapq_order.

(** * Facts about the matching engine *)

Lemma match_buy_body_eq self order :
  OrderBook.match_buy_body self order = Matching.body true self order.
Proof. reflexivity. Qed.

Lemma match_sell_body_eq self order :
  OrderBook.match_sell_body self order = Matching.body false self order.
Proof. reflexivity. Qed.

Lemma match_buy_loop_eq fuel self order :
  OrderBook.match_buy_loop fuel self order = Matching.loop true fuel self order.
Proof.
  revert self order. induction fuel as [|fuel IH]; intros self order; [done|].
  cbn [OrderBook.match_buy_loop Matching.loop]. rewrite match_buy_body_eq.
  destruct (Matching.body true self order) as [[??]|]; auto.
Qed.

Lemma match_sell_loop_eq fuel self order :
  OrderBook.match_sell_loop fuel self order = Matching.loop false fuel self order.
Proof.
  revert self order. induction fuel as [|fuel IH]; intros self order; [done|].
  cbn [OrderBook.match_sell_loop Matching.loop]. rewrite match_sell_body_eq.
  destruct (Matching.body false self order) as [[??]|]; auto.
Qed.

Lemma add_order_eq self order :
  OrderBook.add_order self order =
  let s := Order.side order in
  let '(self', order') := Matching.run s self order in
  if bool_decide (Order.quantity order' > 0) && (Order.order_type order' =? "limit")%string
  then Matching.set_own s self'
         (heapq.heappush Order.__lt__ (Matching.own s self') order')
  else self'.
Proof.
  unfold OrderBook.add_order, OrderBook._match_buy, OrderBook._match_sell, Matching.run.
  rewrite match_buy_loop_eq, match_sell_loop_eq.
  by destruct (Order.side order).
Qed.

(** [Order.__lt__] is a strict weak order on the orders of one side, and does
    not look at the quantity. *)
Ltac order_lt_cases :=
  unfold Order.__lt__; rewrite ?Z.gtb_ltb;
  repeat match goal with
         | |- context [(?x =? ?y)] => destruct (Z.eqb_spec x y)
         | |- context [(?x <? ?y)] => destruct (Z.ltb_spec x y)
         end; simpl; try done; try lia.

Lemma order_lt_asym s a b :
  Order.side a = s → Order.side b = s →
  Order.__lt__ a b = true → Order.__lt__ b a = false.
Proof.
  intros Ha Hb. unfold Order.__lt__. rewrite ?Ha, ?Hb.
  destruct s; order_lt_cases.
Qed.

Lemma order_lt_negtrans s a b c :
  Order.side a = s → Order.side b = s → Order.side c = s →
  Order.__lt__ b a = false → Order.__lt__ c b = false → Order.__lt__ c a = false.
Proof.
  intros Ha Hb Hc. unfold Order.__lt__. rewrite ?Ha, ?Hb, ?Hc.
  destruct s; order_lt_cases.
Qed.

Lemma order_lt_set_quantity_l a q x :
  Order.__lt__ (Order.set_quantity a q) x = Order.__lt__ a x.
Proof. done. Qed.

Lemma order_lt_set_quantity_r a q x :
  Order.__lt__ x (Order.set_quantity a q) = Order.__lt__ x a.
Proof. done. Qed.

Lemma body_Some s self taker self' taker' :
  Matching.body s self taker = Some (self', taker') →
  ∃ best rest, step_spec s self taker self' taker' best rest.
Proof.
  unfold Matching.body. case_bool_decide as Hpos; [|done].
  destruct (Matching.resting s self) as [|best rest] eqn:Hrest; [done|].
  cbn [lookup list_lookup].
  destruct ((Order.order_type taker =? "limit")%string && Matching.beyond_limit s best taker)
    eqn:Hlim; [done|].
  assert (Order.order_type taker = "limit" → Matching.beyond_limit s best taker = false).
  { intros Htype. by rewrite Htype in Hlim. }
  destruct (heappop_cons Order.__lt__
              (Order.set_quantity best
                 (Order.quantity best - Z.min (Order.quantity taker) (Order.quantity best)))
              rest) as (heap' & Hpop & _).
  intros Hrun. exists best, rest.
  destruct self as [inst bh sh tl cb nt], s.
  all: cbn -[heapq.heappop Z.min Z.sub Z.eqb] in *; subst.
  all: cbn -[heapq.heappop Z.min Z.sub Z.eqb] in *; rewrite Hpop in Hrun.
  all: destruct (_ =? 0) eqn:Hzero.
  all: destruct cb; simplify_eq.
  all: split; cbn -[heapq.heappop Z.min Z.sub Z.eqb]; rewrite ?Hzero, ?app_nil_r; try done.
  all: apply Z.eqb_eq in Hzero; by rewrite Hzero.
Qed.

(** After an iteration, the resting heap is the old one without its first
    order, or with that order's quantity reduced. *)
Lemma step_resting_cases s self taker self' taker' best rest :
  step_spec s self taker self' taker' best rest →
  let traded := Z.min (Order.quantity taker) (Order.quantity best) in
  (Order.quantity best - traded = 0 ∧
   Matching.resting s self' ≡ₚ rest ∧
   length (Matching.resting s self') = length rest ∧
   heapq.heappop Order.__lt__ (Order.set_quantity best 0 :: rest) =
     Some (Order.set_quantity best 0, Matching.resting s self')) ∨
  (Order.quantity best - traded ≠ 0 ∧ Order.quantity taker' = 0 ∧
   Matching.resting s self' =
     Order.set_quantity best (Order.quantity best - traded) :: rest).
Proof.
  intros Hstep. pose proof (step_heap _ _ _ _ _ _ _ Hstep) as Hheap.
  cbn -[heapq.heappop Z.min Z.sub Z.eqb] in Hheap. cbn zeta.
  destruct (_ =? 0) eqn:Hzero.
  - apply Z.eqb_eq in Hzero. rewrite Hzero in Hheap. left.
    destruct (heappop_cons Order.__lt__ (Order.set_quantity best 0) rest)
      as (heap' & Hpop & Hperm & Hlen).
    rewrite Hpop in Hheap. by simplify_eq.
  - apply Z.eqb_neq in Hzero. right. split; [done|]. split; [|done].
    rewrite (step_taker _ _ _ _ _ _ _ Hstep). simpl. lia.
Qed.

Lemma same_order_refl x : same_order x x.
Proof. done. Qed.

Lemma same_order_set_quantity x q : same_order (Order.set_quantity x q) x.
Proof. done. Qed.

Lemma same_order_fields x y :
  same_order x y →
  Order.order_id x = Order.order_id y ∧ Order.price x = Order.price y ∧
  Order.side x = Order.side y ∧ Order.timestamp x = Order.timestamp y ∧
  Order.order_type x = Order.order_type y.
Proof. destruct x, y. unfold same_order. simpl. intros [=]. by subst. Qed.

(** Matching never adds an order to the resting heap. *)
Lemma step_resting_elem s self taker self' taker' best rest y :
  step_spec s self taker self' taker' best rest →
  y ∈ Matching.resting s self' →
  ∃ y0, y0 ∈ Matching.resting s self ∧ same_order y y0.
Proof.
  intros Hstep Hy. rewrite (step_resting _ _ _ _ _ _ _ Hstep).
  destruct (step_resting_cases _ _ _ _ _ _ _ Hstep) as [(_ & Hperm & _)|(_ & _ & Heq)].
  - rewrite Hperm in Hy. exists y. split; [by right|done].
  - rewrite Heq in Hy. apply elem_of_cons in Hy as [->|Hy].
    + exists best. split; [by left|apply same_order_set_quantity].
    + exists y. split; [by right|done].
Qed.

(** The heap lemmas at [Order.__lt__], for a heap of orders of side [s]. *)
Lemma order_heappush_ordered s heap item :
  Forall (λ o, Order.side o = s) heap → Order.side item = s →
  heapq.heap_ordered Order.__lt__ heap →
  heapq.heap_ordered Order.__lt__ (heapq.heappush Order.__lt__ heap item).
Proof.
  exact (heappush_ordered Order.__lt__ (λ o, Order.side o = s)
           (order_lt_asym s) (order_lt_negtrans s) heap item).
Qed.

Lemma order_heappop_ordered s heap item heap' :
  Forall (λ o, Order.side o = s) heap →
  heapq.heap_ordered Order.__lt__ heap →
  heapq.heappop Order.__lt__ heap = Some (item, heap') →
  heapq.heap_ordered Order.__lt__ heap'.
Proof.
  exact (heappop_ordered Order.__lt__ (λ o, Order.side o = s)
           (order_lt_asym s) (order_lt_negtrans s) heap item heap').
Qed.

Lemma order_heap_root s heap best x :
  heapq.heap_ordered Order.__lt__ heap →
  Forall (λ o, Order.side o = s) heap →
  heap !! 0%nat = Some best → x ∈ heap → Order.__lt__ x best = false.
Proof.
  exact (heap_ordered_root Order.__lt__ (λ o, Order.side o = s)
           (order_lt_asym s) (order_lt_negtrans s) heap best x).
Qed.

Lemma side_inv_nil s : side_inv s [].
Proof.
  split; [by apply Forall_nil|]. split; [|by apply Forall_nil].
  intros j x y _ Hx. by rewrite lookup_nil in Hx.
Qed.

(** The first order of a heap of side [s] is a least order for [__lt__]. *)
Lemma side_inv_root s heap best x :
  side_inv s heap → heap !! 0%nat = Some best → x ∈ heap →
  Order.__lt__ x best = false.
Proof.
  intros (Hside & Hord & _) Hbest Hx. by apply (order_heap_root s heap).
Qed.

Lemma side_inv_heappush s heap order :
  side_inv s heap → Order.side order = s → 0 < Order.quantity order →
  side_inv s (heapq.heappush Order.__lt__ heap order).
Proof.
  intros (Hside & Hord & Hpos) Hs Hq.
  pose proof (heappush_Permutation Order.__lt__ heap order) as Hperm.
  split; [|split].
  - rewrite Hperm. by apply Forall_cons.
  - by apply (order_heappush_ordered s).
  - rewrite Hperm. by apply Forall_cons.
Qed.

Lemma step_side_inv s self taker self' taker' best rest :
  step_spec s self taker self' taker' best rest →
  side_inv (negb s) (Matching.resting s self) →
  side_inv (negb s) (Matching.resting s self').
Proof.
  intros Hstep. rewrite (step_resting _ _ _ _ _ _ _ Hstep).
  intros (Hside & Hord & Hpos).
  apply Forall_cons in Hside as [Hbs Hside]. apply Forall_cons in Hpos as [Hbq Hpos].
  pose proof (step_taker_pos _ _ _ _ _ _ _ Hstep) as Hq.
  assert (∀ q, heapq.heap_ordered Order.__lt__ (Order.set_quantity best q :: rest))
    as Hord'.
  { intros q.
    by apply (heap_ordered_insert_equiv Order.__lt__ (best :: rest) 0 best). }
  destruct (step_resting_cases _ _ _ _ _ _ _ Hstep)
    as [(_ & Hperm & _ & Hpop)|(Hne & _ & ->)].
  - split; [|split].
    + by rewrite Hperm.
    + apply (order_heappop_ordered (negb s) (Order.set_quantity best 0 :: rest)
               (Order.set_quantity best 0)); [by apply Forall_cons|apply Hord'|done].
    + by rewrite Hperm.
  - split; [|split]; [by apply Forall_cons|done|].
    apply Forall_cons. split; [simpl; lia|done].
Qed.

(** The book invariant, read from the side of an incoming order. *)
Lemma book_inv_sides s self :
  book_inv self ↔
  side_inv s (Matching.own s self) ∧
  side_inv (negb s) (Matching.resting s self) ∧
  ∀ x y, x ∈ Matching.own s self → y ∈ Matching.resting s self → below s x y.
Proof.
  unfold book_inv, below.
  destruct s; simpl; (split; intros (H1 & H2 & Hcross); split_and!; auto).
Qed.

Lemma step_book_inv s self taker self' taker' best rest :
  step_spec s self taker self' taker' best rest →
  book_inv self → book_inv self'.
Proof.
  intros Hstep. rewrite !(book_inv_sides s). intros (Hown & Hrest & Hcross).
  rewrite (step_own _ _ _ _ _ _ _ Hstep).
  split; [done|]. split; [by eapply step_side_inv|].
  intros x y Hx Hy.
  destruct (step_resting_elem _ _ _ _ _ _ _ y Hstep Hy) as (y0 & Hy0 & Hsame).
  apply same_order_fields in Hsame as (_ & Hprice & _).
  specialize (Hcross x y0 Hx Hy0). unfold below in *. by rewrite Hprice.
Qed.

(** A property kept by every iteration holds when the loop ends. *)
Lemma loop_invariant (I : OrderBook.t → Order.t → Prop) s :
  (∀ self taker self' taker',
     I self taker → Matching.body s self taker = Some (self', taker') → I self' taker') →
  ∀ fuel self taker, I self taker →
    I (Matching.loop s fuel self taker).1 (Matching.loop s fuel self taker).2.
Proof.
  intros Hbody fuel. induction fuel as [|fuel IH]; intros self taker HI; [done|].
  cbn [Matching.loop].
  destruct (Matching.body s self taker) as [[self' taker']|] eqn:Hrun; [|done].
  eauto.
Qed.

(** The bound on the number of iterations is enough: when the loop stops, its
    condition fails or its [break] is taken. *)
Lemma loop_exit s fuel self taker :
  (length (Matching.resting s self) < fuel)%nat →
  Matching.body s (Matching.loop s fuel self taker).1
                  (Matching.loop s fuel self taker).2 = None.
Proof.
  revert self taker. induction fuel as [|fuel IH]; intros self taker Hfuel; [lia|].
  cbn [Matching.loop].
  destruct (Matching.body s self taker) as [[self' taker']|] eqn:Hrun; [|done].
  destruct (body_Some _ _ _ _ _ Hrun) as (best & rest & Hstep).
  rewrite (step_resting _ _ _ _ _ _ _ Hstep) in Hfuel. simpl in Hfuel.
  destruct (step_resting_cases _ _ _ _ _ _ _ Hstep) as [(_ & _ & Hlen & _)|(_ & Hzero & _)].
  - apply IH. lia.
  - assert (Matching.body s self' taker' = None) as Hnone.
    { unfold Matching.body. rewrite Hzero. done. }
    destruct fuel; cbn [Matching.loop]; [done|]. by rewrite Hnone.
Qed.

Lemma run_exit s self taker :
  Matching.body s (Matching.run s self taker).1 (Matching.run s self taker).2 = None.
Proof. apply loop_exit. lia. Qed.

(** Why an iteration is not run. *)
Lemma body_None s self taker :
  Matching.body s self taker = None →
  Order.quantity taker ≤ 0 ∨ Matching.resting s self = [] ∨
  ∃ best, Matching.resting s self !! 0%nat = Some best ∧
          Order.order_type taker = "limit" ∧
          Matching.beyond_limit s best taker = true.
Proof.
  unfold Matching.body. case_bool_decide as Hpos; [|intros _; left; lia].
  destruct (Matching.resting s self) as [|best rest] eqn:Hrest; [by auto|].
  cbn [lookup list_lookup].
  destruct ((Order.order_type taker =? "limit")%string) eqn:Htype; simpl.
  - destruct (Matching.beyond_limit s best taker) eqn:Hlim.
    { intros _. right; right. exists best. by apply String.eqb_eq in Htype. }
    destruct (heappop_cons Order.__lt__
                (Order.set_quantity best
                   (Order.quantity best - Z.min (Order.quantity taker) (Order.quantity best)))
                rest) as (heap' & Hpop & _).
    destruct self as [inst bh sh tl cb nt], s.
    all: cbn -[heapq.heappop Z.min Z.sub Z.eqb] in *; subst.
    all: cbn -[heapq.heappop Z.min Z.sub Z.eqb] in *; rewrite Hpop.
    all: by destruct (_ =? 0).
  - destruct (heappop_cons Order.__lt__
                (Order.set_quantity best
                   (Order.quantity best - Z.min (Order.quantity taker) (Order.quantity best)))
                rest) as (heap' & Hpop & _).
    destruct self as [inst bh sh tl cb nt], s.
    all: cbn -[heapq.heappop Z.min Z.sub Z.eqb] in *; subst.
    all: cbn -[heapq.heappop Z.min Z.sub Z.eqb] in *; rewrite Hpop.
    all: by destruct (_ =? 0).
Qed.

(** Matching keeps the book invariant and, of the incoming order, changes the
    quantity only. *)
Lemma loop_book_inv s fuel self taker :
  book_inv self → book_inv (Matching.loop s fuel self taker).1.
Proof.
  intros Hinv.
  apply (loop_invariant (λ b _, book_inv b) s); [|done].
  intros b o b' o' Hb Hrun.
  destruct (body_Some _ _ _ _ _ Hrun) as (best & rest & Hstep).
  by eapply step_book_inv.
Qed.

Lemma loop_same_order s fuel self taker :
  same_order (Matching.loop s fuel self taker).2 taker.
Proof.
  apply (loop_invariant (λ _ o, same_order o taker) s); [|done].
  intros b o b' o' Ho Hrun.
  destruct (body_Some _ _ _ _ _ Hrun) as (best & rest & Hstep).
  by rewrite (step_taker _ _ _ _ _ _ _ Hstep).
Qed.

Lemma own_set_own s self h : Matching.own s (Matching.set_own s self h) = h.
Proof. by destruct s. Qed.

Lemma resting_set_own s self h :
  Matching.resting s (Matching.set_own s self h) = Matching.resting s self.
Proof. by destruct s. Qed.

(** An order that the limit test stops is out of reach of every resting
    order, because the first resting order is the best one. *)
Lemma beyond_limit_all s heap best taker y :
  side_inv (negb s) heap → heap !! 0%nat = Some best →
  Matching.beyond_limit s best taker = true → y ∈ heap → below s taker y.
Proof.
  intros Hinv Hbest Hlim Hy.
  pose proof (side_inv_root _ _ _ _ Hinv Hbest Hy) as Hroot.
  destruct Hinv as (Hside & _ & _).
  pose proof (proj1 (Forall_forall _ _) Hside y Hy) as Hys. simpl in Hys.
  revert Hroot Hlim. unfold Order.__lt__, Matching.beyond_limit, below.
  rewrite Hys. destruct s; simpl; order_lt_cases.
Qed.

Theorem add_order_book_inv self order :
  book_inv self → book_inv (OrderBook.add_order self order).
Proof.
  intros Hinv. rewrite add_order_eq. cbn zeta.
  set (s := Order.side order).
  pose proof (loop_book_inv s (S (length (Matching.resting s self))) self order Hinv)
    as Hinv'.
  pose proof (loop_same_order s (S (length (Matching.resting s self))) self order)
    as Hsame.
  pose proof (run_exit s self order) as Hexit.
  unfold Matching.run in *.
  destruct (Matching.loop s _ self order) as [self' order']. simpl in *.
  destruct (bool_decide (Order.quantity order' > 0)) eqn:Hq; [|done].
  destruct ((Order.order_type order' =? "limit")%string) eqn:Htype; [|done]. simpl.
  apply bool_decide_eq_true in Hq.
  apply same_order_fields in Hsame as (_ & _ & Hside & _).
  apply (book_inv_sides s) in Hinv' as (Hown & Hrest & Hcross).
  apply (book_inv_sides s). rewrite own_set_own, resting_set_own.
  split; [apply side_inv_heappush; [done|done|lia]|]. split; [done|].
  intros x y Hx Hy.
  rewrite heappush_Permutation in Hx. apply elem_of_cons in Hx as [->|Hx]; [|by auto].
  apply body_None in Hexit as [?|[Hnil|(best & Hbest & _ & Hlim)]]; [lia| |].
  - rewrite Hnil in Hy. by apply elem_of_nil in Hy.
  - by eapply beyond_limit_all.
Qed.

Lemma book_inv_init instrument_id on_market_update :
  book_inv (OrderBook.__init__ instrument_id on_market_update).
Proof.
  split; [apply side_inv_nil|]. split; [apply side_inv_nil|].
  intros x y Hx. by apply elem_of_nil in Hx.
Qed.

Theorem run_book_inv instrument_id on_market_update orders :
  book_inv (OrderBook.run instrument_id on_market_update orders).
Proof.
  unfold OrderBook.run.
  generalize (book_inv_init instrument_id on_market_update).
  generalize (OrderBook.__init__ instrument_id on_market_update).
  induction orders as [|order orders IH]; intros self Hinv; [done|].
  simpl. apply IH. by apply add_order_book_inv.
Qed.

(** [max_price] and [min_price] are attained. *)
Lemma max_price_Some heap m :
  max_price heap = Some m → ∃ x, x ∈ heap ∧ Order.price x = m.
Proof.
  revert m. induction heap as [|o heap IH]; intros m; simpl; [done|].
  destruct (max_price heap) as [p|] eqn:Hp; intros [= <-].
  - destruct (IH p eq_refl) as (x & Hx & Hxp).
    destruct (Z.max_spec (Order.price o) p) as [[_ ->]|[_ ->]].
    + exists x. split; [by right|done].
    + exists o. split; [by left|done].
  - exists o. split; [by left|done].
Qed.

Lemma min_price_Some heap m :
  min_price heap = Some m → ∃ x, x ∈ heap ∧ Order.price x = m.
Proof.
  revert m. induction heap as [|o heap IH]; intros m; simpl; [done|].
  destruct (min_price heap) as [p|] eqn:Hp; intros [= <-].
  - destruct (IH p eq_refl) as (x & Hx & Hxp).
    destruct (Z.min_spec (Order.price o) p) as [[_ ->]|[_ ->]].
    + exists o. split; [by left|done].
    + exists x. split; [by right|done].
  - exists o. split; [by left|done].
Qed.

Lemma book_inv_uncrossed self : book_inv self → uncrossed self.
Proof.
  intros (_ & _ & Hcross). unfold uncrossed.
  destruct (max_price _) as [bid|] eqn:Hbid; [|done].
  destruct (min_price _) as [ask|] eqn:Hask; [|done].
  apply max_price_Some in Hbid as (x & Hx & <-).
  apply min_price_Some in Hask as (y & Hy & <-). auto.
Qed.

(** The price levels of [dump_book]. *)
Lemma levels_of_positive heap :
  Forall (λ o, 0 < Order.quantity o) heap →
  map_Forall (λ _ q, 1 ≤ q) (OrderBook.levels_of heap).
Proof.
  unfold OrderBook.levels_of.
  generalize (map_Forall_empty (λ (_ : Z) q, 1 ≤ q) (M := gmap Z)).
  generalize (∅ : gmap Z Z).
  induction heap as [|o heap IH]; intros levels Hlevels Hpos; [done|].
  apply Forall_cons in Hpos as [Ho Hpos]. simpl. apply IH; [|done].
  destruct (levels !! Order.price o) as [q|] eqn:Hq.
  - apply map_Forall_insert_2; [|done].
    pose proof (map_Forall_lookup_1 _ _ _ _ Hlevels Hq). simpl in *. lia.
  - apply map_Forall_insert_2; [lia|done].
Qed.

Lemma sorted_items_positive levels :
  map_Forall (λ _ q, 1 ≤ q) levels →
  Forall (λ level, 1 ≤ level.2) (OrderBook.sorted_items levels).
Proof.
  intros Hlevels. unfold OrderBook.sorted_items.
  rewrite merge_sort_Permutation. apply Forall_forall. intros [p q] Hpq.
  apply elem_of_map_to_list in Hpq. by apply (Hlevels p q).
Qed.

(** ** The run of the matching loop as a sequence of fills *)

Lemma loop_steps s fuel self taker :
  ∃ fills, steps s self taker fills
             (Matching.loop s fuel self taker).1 (Matching.loop s fuel self taker).2.
Proof.
  revert self taker. induction fuel as [|fuel IH]; intros self taker.
  { exists []. constructor. }
  cbn [Matching.loop].
  destruct (Matching.body s self taker) as [[self1 taker1]|] eqn:Hrun.
  - destruct (body_Some _ _ _ _ _ Hrun) as (best & rest & Hstep).
    destruct (IH self1 taker1) as [fills Hfills].
    eexists. by eapply steps_fill.
  - exists []. constructor.
Qed.

Lemma trade_of_same_order s taker taker' best q :
  same_order taker' taker →
  Matching.trade_of s taker' best q = Matching.trade_of s taker best q.
Proof.
  intros (Hid & _)%same_order_fields. unfold Matching.trade_of. by rewrite Hid.
Qed.

(** The logs after the loop are the logs before it, followed by one trade
    and, when a callback is installed, one notification for each fill. *)
Lemma steps_logs s self taker fills self' taker' :
  steps s self taker fills self' taker' →
  same_order taker' taker ∧
  OrderBook.trade_log self' = OrderBook.trade_log self ++ (fill_trade s taker <$> fills) ∧
  OrderBook.notified self' =
    OrderBook.notified self ++
    (if OrderBook.on_market_update self
     then fill_update s (OrderBook.instrument_id self) <$> fills else []) ∧
  Matching.own s self' = Matching.own s self ∧
  OrderBook.instrument_id self' = OrderBook.instrument_id self ∧
  OrderBook.on_market_update self' = OrderBook.on_market_update self.
Proof.
  induction 1 as [self taker|self taker self1 taker1 best rest fills self' taker'
                    Hstep _ (Hsame & Htrades & Hnotes & Hown & Hinst & Hcb)].
  { split_and!; try done.
    - by rewrite app_nil_r.
    - by destruct (OrderBook.on_market_update self); rewrite app_nil_r. }
  assert (same_order taker1 taker) as Hsame1.
  { rewrite (step_taker _ _ _ _ _ _ _ Hstep). apply same_order_set_quantity. }
  split_and!.
  - unfold same_order in *. congruence.
  - rewrite Htrades, (step_trade _ _ _ _ _ _ _ Hstep), <-app_assoc. simpl.
    do 2 f_equal. apply list_fmap_ext. intros _ fill _.
    by apply trade_of_same_order.
  - rewrite Hnotes, (step_notified _ _ _ _ _ _ _ Hstep), <-app_assoc.
    rewrite (step_callback _ _ _ _ _ _ _ Hstep), (step_instrument _ _ _ _ _ _ _ Hstep).
    by destruct (OrderBook.on_market_update self).
  - by rewrite Hown, (step_own _ _ _ _ _ _ _ Hstep).
  - by rewrite Hinst, (step_instrument _ _ _ _ _ _ _ Hstep).
  - by rewrite Hcb, (step_callback _ _ _ _ _ _ _ Hstep).
Qed.

(** Every fill is against an order that was resting when the loop started. *)
Lemma steps_makers s self taker fills self' taker' :
  steps s self taker fills self' taker' →
  Forall (λ fill, ∃ maker, maker ∈ Matching.resting s self ∧ same_order fill.1 maker) fills ∧
  ∀ y, y ∈ Matching.resting s self' →
       ∃ y0, y0 ∈ Matching.resting s self ∧ same_order y y0.
Proof.
  induction 1 as [self taker|self taker self1 taker1 best rest fills self' taker'
                    Hstep _ (Hfills & Hrest)].
  { split; [by apply Forall_nil|]. intros y Hy. by exists y. }
  assert (∀ y, y ∈ Matching.resting s self1 →
               ∃ y0, y0 ∈ Matching.resting s self ∧ same_order y y0) as Hback
    by (intros y; by apply (step_resting_elem _ _ _ _ _ _ _ y Hstep)).
  split.
  - apply Forall_cons. split.
    + exists best. split; [|done].
      rewrite (step_resting _ _ _ _ _ _ _ Hstep). by left.
    + eapply Forall_impl; [exact Hfills|].
      intros fill (maker & Hmaker & Hsame). simpl in *.
      destruct (Hback maker Hmaker) as (y0 & Hy0 & Hsame0).
      exists y0. split; [done|]. unfold same_order in *. congruence.
  - intros y Hy. destruct (Hrest y Hy) as (y1 & Hy1 & Hsame1).
    destruct (Hback y1 Hy1) as (y0 & Hy0 & Hsame0).
    exists y0. split; [done|]. unfold same_order in *. congruence.
Qed.

(** [add_order] as the matching loop followed by the optional push. *)
Lemma add_order_steps self order :
  let s := Order.side order in
  ∃ fills self' order',
    steps s self order fills self' order' ∧
    Matching.body s self' order' = None ∧
    OrderBook.add_order self order =
      if bool_decide (Order.quantity order' > 0) && (Order.order_type order' =? "limit")%string
      then Matching.set_own s self'
             (heapq.heappush Order.__lt__ (Matching.own s self') order')
      else self'.
Proof.
  intros s. rewrite add_order_eq. cbn zeta. fold s.
  pose proof (run_exit s self order) as Hexit. unfold Matching.run in *.
  destruct (loop_steps s (S (length (Matching.resting s self))) self order)
    as [fills Hsteps].
  destruct (Matching.loop s _ self order) as [self' order'].
  by exists fills, self', order'.
Qed.

Lemma set_own_logs s self h :
  OrderBook.trade_log (Matching.set_own s self h) = OrderBook.trade_log self ∧
  OrderBook.notified (Matching.set_own s self h) = OrderBook.notified self.
Proof. by destruct s. Qed.

(** What a call of [add_order] appends to the two logs. *)
Lemma add_order_logs self order :
  let s := Order.side order in
  ∃ fills self' order',
    steps s self order fills self' order' ∧
    Matching.body s self' order' = None ∧
    OrderBook.add_order self order =
      (if bool_decide (Order.quantity order' > 0) && (Order.order_type order' =? "limit")%string
       then Matching.set_own s self'
              (heapq.heappush Order.__lt__ (Matching.own s self') order')
       else self') ∧
    new_trades self (OrderBook.add_order self order) = fill_trade s order <$> fills ∧
    new_updates self (OrderBook.add_order self order) =
      if OrderBook.on_market_update self
      then fill_update s (OrderBook.instrument_id self) <$> fills else [].
Proof.
  intros s.
  destruct (add_order_steps self order) as (fills & self' & order' & Hsteps & Hexit & Heq).
  fold s in Hsteps, Hexit, Heq. exists fills, self', order'.
  split; [done|]. split; [done|]. split; [done|]. rewrite Heq.
  destruct (steps_logs _ _ _ _ _ _ Hsteps) as (_ & Htrades & Hnotes & _).
  unfold new_trades, new_updates.
  destruct (_ && _); rewrite ?(proj1 (set_own_logs _ _ _)), ?(proj2 (set_own_logs _ _ _)),
    Htrades, Hnotes, !drop_app_length; done.
Qed.

(** The two logs only grow: [new_trades] and [new_updates] are exactly what
    the call appended. *)
Lemma add_order_appends self order :
  let after := OrderBook.add_order self order in
  OrderBook.trade_log after = OrderBook.trade_log self ++ new_trades self after ∧
  OrderBook.notified after = OrderBook.notified self ++ new_updates self after.
Proof.
  intros after. subst after.
  destruct (add_order_steps self order) as (fills & self' & order' & Hsteps & _ & Heq).
  destruct (steps_logs _ _ _ _ _ _ Hsteps) as (_ & Htrades & Hnotes & _).
  rewrite Heq. unfold new_trades, new_updates.
  destruct (_ && _); rewrite ?(proj1 (set_own_logs _ _ _)), ?(proj2 (set_own_logs _ _ _)),
    Htrades, Hnotes, !drop_app_length; done.
Qed.

Lemma total_quantity_Permutation heap1 heap2 :
  heap1 ≡ₚ heap2 → total_quantity heap1 = total_quantity heap2.
Proof. induction 1; simpl in *; lia. Qed.


Lemma trades_quantity_fills s taker fills :
  trades_quantity (fill_trade s taker <$> fills) = foldr (λ fill acc, fill.2 + acc) 0 fills.
Proof.
  induction fills as [|fill fills IH]; [done|].
  rewrite fmap_cons. simpl. rewrite IH. by destruct s.
Qed.


(** * [ObjectBook] and [OrderBook] *)

(** ** [heapq] commutes with reading the objects

    The heap operations on a list of addresses, read through the store, are
    the heap operations on the list of the objects' fields. *)
Section heapq_fmap.
Context {A B : Type} (f : A → B).
Variable ltA : A → A → bool.
Variable ltB : B → B → bool.
Hypothesis lt_fmap : ∀ a b, ltA a b = ltB (f a) (f b).

Lemma siftdown_loop_fmap fuel newitem startpos heap pos :
  f <$> heapq.siftdown_loop ltA fuel newitem startpos heap pos =
  heapq.siftdown_loop ltB fuel (f newitem) startpos (f <$> heap) pos.
Proof.
  revert heap pos. induction fuel as [|fuel IH]; intros heap pos; simpl.
  { by rewrite list_fmap_insert. }
  case_decide; [|by rewrite list_fmap_insert].
  rewrite list_lookup_fmap.
  destruct (heap !! heapq.parent_of pos) as [parent|]; simpl; [|done].
  rewrite <-lt_fmap. destruct (ltA newitem parent).
  - by rewrite IH, list_fmap_insert.
  - by rewrite list_fmap_insert.
Qed.

Lemma _siftdown_fmap heap startpos pos :
  f <$> heapq._siftdown ltA heap startpos pos =
  heapq._siftdown ltB (f <$> heap) startpos pos.
Proof.
  unfold heapq._siftdown. rewrite list_lookup_fmap.
  destruct (heap !! pos) as [newitem|]; simpl; [|done].
  apply siftdown_loop_fmap.
Qed.

Lemma smaller_child_fmap endpos heap childpos :
  heapq.smaller_child ltB endpos (f <$> heap) childpos =
  heapq.smaller_child ltA endpos heap childpos.
Proof.
  unfold heapq.smaller_child. case_decide; [|done].
  rewrite !list_lookup_fmap.
  destruct (heap !! childpos) as [c|]; simpl; [|done].
  destruct (heap !! (childpos + 1)%nat) as [r|]; simpl; [|done].
  by rewrite <-lt_fmap.
Qed.

Lemma siftup_loop_fmap fuel endpos heap pos childpos :
  heapq.siftup_loop ltB fuel endpos (f <$> heap) pos childpos =
  prod_map (fmap f) id (heapq.siftup_loop ltA fuel endpos heap pos childpos).
Proof.
  revert heap pos childpos.
  induction fuel as [|fuel IH]; intros heap pos childpos; simpl; [done|].
  case_decide; [|done].
  rewrite smaller_child_fmap, list_lookup_fmap.
  destruct (heap !! heapq.smaller_child ltA endpos heap childpos) as [c|]; simpl; [|done].
  by rewrite <-list_fmap_insert, IH.
Qed.

Lemma _siftup_fmap heap pos :
  f <$> heapq._siftup ltA heap pos = heapq._siftup ltB (f <$> heap) pos.
Proof.
  unfold heapq._siftup. rewrite list_lookup_fmap, length_fmap.
  destruct (heap !! pos) as [newitem|]; simpl; [|done].
  rewrite siftup_loop_fmap.
  destruct (heapq.siftup_loop ltA _ _ heap pos _) as [heap' pos']. simpl.
  by rewrite _siftdown_fmap, list_fmap_insert.
Qed.

Lemma heappush_fmap heap item :
  f <$> heapq.heappush ltA heap item = heapq.heappush ltB (f <$> heap) (f item).
Proof.
  unfold heapq.heappush.
  by rewrite _siftdown_fmap, fmap_app, !length_app, length_fmap.
Qed.

Lemma heappop_fmap (heap : list A) :
  heapq.heappop ltB (f <$> heap) =
  prod_map f (fmap (M := list) f) <$> heapq.heappop ltA heap.
Proof.
  unfold heapq.heappop. rewrite fmap_last, length_fmap.
  destruct (last heap) as [lastelt|]; simpl; [|done].
  rewrite <-fmap_take.
  destruct (take (length heap - 1) heap) as [|returnitem rest]; simpl; [done|].
  do 2 f_equal. symmetry. apply (_siftup_fmap (lastelt :: rest)).
Qed.
End heapq_fmap.

(** ** The matching loops of [ObjectBook] *)

Lemma object_buy_body_eq objects self order :
  ObjectBook.match_buy_body objects self order =
  ObjectMatching.body true objects self order.
Proof. reflexivity. Qed.

Lemma object_sell_body_eq objects self order :
  ObjectBook.match_sell_body objects self order =
  ObjectMatching.body false objects self order.
Proof. reflexivity. Qed.

Lemma object_buy_loop_eq fuel objects self order :
  ObjectBook.match_buy_loop fuel objects self order =
  ObjectMatching.loop true fuel objects self order.
Proof.
  revert objects self. induction fuel as [|fuel IH]; intros objects self; [done|].
  cbn [ObjectBook.match_buy_loop ObjectMatching.loop]. rewrite object_buy_body_eq.
  destruct (ObjectMatching.body true objects self order) as [[??]|]; auto.
Qed.

Lemma object_sell_loop_eq fuel objects self order :
  ObjectBook.match_sell_loop fuel objects self order =
  ObjectMatching.loop false fuel objects self order.
Proof.
  revert objects self. induction fuel as [|fuel IH]; intros objects self; [done|].
  cbn [ObjectBook.match_sell_loop ObjectMatching.loop]. rewrite object_sell_body_eq.
  destruct (ObjectMatching.body false objects self order) as [[??]|]; auto.
Qed.

Lemma object_add_order_eq objects self order :
  ObjectBook.add_order objects self order =
  let s := Order.side (objects order) in
  let '(objects', self') := ObjectMatching.run s objects self order in
  if bool_decide (Order.quantity (objects' order) > 0)
     && (Order.order_type (objects' order) =? "limit")%string
  then (objects',
        ObjectMatching.set_own s self'
          (heapq.heappush (ObjectBook.lt objects') (ObjectMatching.own s self') order))
  else (objects', self').
Proof.
  unfold ObjectBook.add_order, ObjectBook._match_buy, ObjectBook._match_sell,
    ObjectMatching.run.
  rewrite object_buy_loop_eq, object_sell_loop_eq.
  by destruct (Order.side (objects order)).
Qed.

(** The view of a book commutes with the operations on it. *)
Lemma view_resting s objects self :
  Matching.resting s (ObjectBook.view objects self) =
  objects <$> ObjectMatching.resting s self.
Proof. by destruct s. Qed.

Lemma view_own s objects self :
  Matching.own s (ObjectBook.view objects self) = objects <$> ObjectMatching.own s self.
Proof. by destruct s. Qed.

Lemma view_set_resting s objects self h :
  ObjectBook.view objects (ObjectMatching.set_resting s self h) =
  Matching.set_resting s (ObjectBook.view objects self) (objects <$> h).
Proof. by destruct s. Qed.

Lemma view_set_own s objects self h :
  ObjectBook.view objects (ObjectMatching.set_own s self h) =
  Matching.set_own s (ObjectBook.view objects self) (objects <$> h).
Proof. by destruct s. Qed.

Lemma view_notify_update objects self price quantity side :
  ObjectBook.view objects (ObjectBook._notify_update self price quantity side) =
  OrderBook._notify_update (ObjectBook.view objects self) price quantity side.
Proof.
  unfold ObjectBook._notify_update, OrderBook._notify_update. simpl.
  by destruct (ObjectBook.on_market_update self).
Qed.

(** A change of the store that leaves the objects of the own side alone is a
    change of the resting heap of the view. *)
Lemma view_store_resting s objects objects' self :
  (∀ r, r ∈ ObjectMatching.own s self → objects' r = objects r) →
  ObjectBook.view objects' self =
  Matching.set_resting s (ObjectBook.view objects self)
    (objects' <$> ObjectMatching.resting s self).
Proof.
  intros Hown.
  assert (objects' <$> ObjectMatching.own s self = objects <$> ObjectMatching.own s self)
    as Heq.
  { apply list_fmap_ext. intros i r Hr. apply Hown. by eapply list_elem_of_lookup_2. }
  destruct s; unfold ObjectBook.view; simpl in *; by rewrite Heq.
Qed.

Lemma sub_quantity_eq objects order q :
  ObjectBook.sub_quantity objects order q order =
  Order.set_quantity (objects order) (Order.quantity (objects order) - q).
Proof. apply fn_lookup_insert. Qed.

Lemma sub_quantity_ne objects order q r :
  order ≠ r → ObjectBook.sub_quantity objects order q r = objects r.
Proof. apply fn_lookup_insert_ne. Qed.

(** One iteration on a book whose resting objects are distinct, for an
    incoming object that does not rest in it, is one iteration of
    [OrderBook] on the fields of the objects. *)
Lemma body_fresh s objects self order :
  NoDup (ObjectMatching.resting s self) →
  order ∉ ObjectMatching.resting s self →
  order ∉ ObjectMatching.own s self →
  (∀ r, r ∈ ObjectMatching.own s self → r ∉ ObjectMatching.resting s self) →
  match ObjectMatching.body s objects self order with
  | Some (objects', self') =>
      Matching.body s (ObjectBook.view objects self) (objects order) =
        Some (ObjectBook.view objects' self', objects' order) ∧
      ObjectMatching.resting s self' ⊆ ObjectMatching.resting s self ∧
      NoDup (ObjectMatching.resting s self') ∧
      ObjectMatching.own s self' = ObjectMatching.own s self ∧
      (∀ r, r ≠ order → r ∉ ObjectMatching.resting s self → objects' r = objects r)
  | None => Matching.body s (ObjectBook.view objects self) (objects order) = None
  end.
Proof.
  intros Hnodup Hfresh Hown Hdisj.
  unfold ObjectMatching.body, ObjectMatching.trade, Matching.body.
  rewrite view_resting, list_lookup_fmap.
  case_bool_decide as Hpos; [|done].
  destruct (ObjectMatching.resting s self) as [|best rest] eqn:Hrest; [done|].
  cbn [lookup list_lookup fmap option_fmap option_map].
  destruct (_ && _) eqn:Hlim; [done|].
  set (q := Z.min (Order.quantity (objects order)) (Order.quantity (objects best))).
  set (objects2 :=
         ObjectBook.sub_quantity (ObjectBook.sub_quantity objects order q) best q).
  assert (best ≠ order) as Hne by (intros ->; apply Hfresh; by left).
  assert (objects2 best =
          Order.set_quantity (objects best) (Order.quantity (objects best) - q)) as Hbest.
  { unfold objects2. by rewrite sub_quantity_eq, sub_quantity_ne. }
  assert (objects2 order =
          Order.set_quantity (objects order) (Order.quantity (objects order) - q))
    as Horder.
  { unfold objects2. rewrite sub_quantity_ne by done. apply sub_quantity_eq. }
  assert (∀ r, r ≠ order → r ≠ best → objects2 r = objects r) as Hother.
  { intros r H1 H2. unfold objects2. by rewrite !sub_quantity_ne. }
  clearbody objects2.
  apply NoDup_cons in Hnodup as [Hbest_rest Hnodup].
  assert (objects2 <$> rest = objects <$> rest) as Hrest2.
  { apply list_fmap_ext. intros i r Hr. apply list_elem_of_lookup_2 in Hr.
    apply Hother; intros ->; [apply Hfresh; by right|done]. }
  assert (objects2 <$> ObjectMatching.own s self = objects <$> ObjectMatching.own s self)
    as Hown2.
  { apply list_fmap_ext. intros i r Hr. apply list_elem_of_lookup_2 in Hr.
    apply Hother; intros ->; [done|]. apply (Hdisj best Hr). by left. }
  destruct (heappop_cons (ObjectBook.lt objects2) best rest)
    as (heap' & Hpop & Hperm & Hlen).
  pose proof (heappop_fmap objects2 (ObjectBook.lt objects2) Order.__lt__
                (λ _ _, eq_refl) (best :: rest)) as Hpopv.
  rewrite Hpop in Hpopv. simpl in Hpopv.
  change (list_fmap nat Order.t objects2 rest) with (objects2 <$> rest) in Hpopv.
  rewrite Hbest, Hrest2 in Hpopv.
  unfold ObjectMatching.settle. rewrite Hbest.
  destruct self as [inst bh sh tl cb nt], s.
  all: cbn -[heapq.heappop Z.min Z.sub Z.eqb] in *; subst.
  all: cbn -[heapq.heappop Z.min Z.sub Z.eqb] in *.
  all: rewrite Hpop, Hpopv.
  all: assert (∀ r, r ≠ order → r ∉ best :: rest → objects2 r = objects r) as Hkeep
         by (intros r ? [? ?]%not_elem_of_cons; by apply Hother).
  all: destruct (_ =? 0); destruct cb.
  all: cbn -[Z.min Z.sub]; unfold ObjectBook.view; cbn -[Z.min Z.sub].
  all: rewrite ?Horder, ?Hbest, ?Hown2, ?Hrest2.
  all: split; [done|].
  all: split; [try done; intros r Hr; rewrite Hperm in Hr; by right|].
  all: split; [try (by rewrite Hperm); by apply NoDup_cons|].
  all: done.
Qed.

Lemma loop_fresh s fuel objects self order :
  NoDup (ObjectMatching.resting s self) →
  order ∉ ObjectMatching.resting s self →
  order ∉ ObjectMatching.own s self →
  (∀ r, r ∈ ObjectMatching.own s self → r ∉ ObjectMatching.resting s self) →
  let after := ObjectMatching.loop s fuel objects self order in
  Matching.loop s fuel (ObjectBook.view objects self) (objects order) =
    (ObjectBook.view after.1 after.2, after.1 order) ∧
  ObjectMatching.resting s after.2 ⊆ ObjectMatching.resting s self ∧
  NoDup (ObjectMatching.resting s after.2) ∧
  ObjectMatching.own s after.2 = ObjectMatching.own s self ∧
  (∀ r, r ≠ order → r ∉ ObjectMatching.resting s self → after.1 r = objects r).
Proof.
  revert objects self.
  induction fuel as [|fuel IH]; intros objects self Hnodup Hfresh Hown Hdisj; [done|].
  cbn [ObjectMatching.loop Matching.loop].
  pose proof (body_fresh s objects self order Hnodup Hfresh Hown Hdisj) as Hbody.
  destruct (ObjectMatching.body s objects self order) as [[objects1 self1]|].
  - destruct Hbody as (-> & Hsub & Hnodup1 & Hown1 & Hkeep).
    destruct (IH objects1 self1) as (Hloop & Hsub' & Hnodup' & Hown' & Hkeep').
    + done.
    + intros Hin. by apply Hfresh, Hsub.
    + by rewrite Hown1.
    + rewrite Hown1. intros r Hr Hin. by apply (Hdisj r Hr), Hsub.
    + cbn zeta. split; [done|]. split; [by etrans|]. split; [done|].
      split; [congruence|].
      intros r Hr Hin. rewrite Hkeep' by (try done; intros Hin'; by apply Hin, Hsub).
      by apply Hkeep.
  - by rewrite Hbody.
Qed.

(** [add_order] on an object that does not rest in the book, when the
    objects that rest in it are distinct, is [OrderBook.add_order] on the
    fields of the objects; the objects that rest afterwards are distinct
    again, and no other object is touched. *)
Lemma add_order_fresh objects self order :
  NoDup (ObjectBook.resting_objects self) →
  order ∉ ObjectBook.resting_objects self →
  let after := ObjectBook.add_order objects self order in
  ObjectBook.view after.1 after.2 =
    OrderBook.add_order (ObjectBook.view objects self) (objects order) ∧
  NoDup (ObjectBook.resting_objects after.2) ∧
  ObjectBook.resting_objects after.2 ⊆ order :: ObjectBook.resting_objects self ∧
  (∀ r, r ∉ order :: ObjectBook.resting_objects self → after.1 r = objects r).
Proof.
  intros Hnodup Hfresh.
  rewrite object_add_order_eq, add_order_eq. cbn zeta.
  set (s := Order.side (objects order)).
  assert (ObjectBook.resting_objects self ≡ₚ
            ObjectMatching.own s self ++ ObjectMatching.resting s self) as Hheaps.
  { unfold ObjectBook.resting_objects. destruct s; simpl; [done|apply Permutation_app_comm]. }
  rewrite Hheaps in Hnodup, Hfresh.
  apply NoDup_app in Hnodup as (Hnd_own & Hdisj & Hnd_rest).
  apply not_elem_of_app in Hfresh as [Hown Hrest].
  unfold ObjectMatching.run, Matching.run.
  rewrite <-(length_fmap objects), <-view_resting.
  destruct (loop_fresh s (S (length (Matching.resting s (ObjectBook.view objects self))))
              objects self order Hnd_rest Hrest Hown Hdisj)
    as (Hloop & Hsub & Hnd_rest' & Hown' & Hkeep).
  destruct (ObjectMatching.loop s _ objects self order) as [objects' self'].
  simpl in *. rewrite Hloop.
  assert (∀ h, ObjectBook.resting_objects (ObjectMatching.set_own s self' h) ≡ₚ
               h ++ ObjectMatching.resting s self') as Hset.
  { intros h. unfold ObjectBook.resting_objects.
    destruct s; simpl; [done|apply Permutation_app_comm]. }
  assert (ObjectBook.resting_objects self' ≡ₚ
            ObjectMatching.own s self ++ ObjectMatching.resting s self') as Hheaps'.
  { rewrite <-Hown'. unfold ObjectBook.resting_objects.
    destruct s; simpl; [done|apply Permutation_app_comm]. }
  assert (∀ r, r ∉ order :: ObjectBook.resting_objects self → objects' r = objects r)
    as Hkeep'.
  { intros r [Hr Hin]%not_elem_of_cons. rewrite Hheaps in Hin.
    apply not_elem_of_app in Hin as [_ Hin]. by apply Hkeep. }
  destruct (_ && _); simpl.
  - split; [|split; [|split; [|done]]].
    + rewrite view_set_own, view_own. f_equal.
      apply (heappush_fmap objects' (ObjectBook.lt objects') Order.__lt__ (λ _ _, eq_refl)).
    + rewrite Hset, heappush_Permutation, Hown'. simpl.
      apply NoDup_cons. split.
      * apply not_elem_of_app. split; [done|]. intros Hin. by apply Hrest, Hsub.
      * apply NoDup_app. split; [done|]. split; [|done].
        intros r Hr Hin. by apply (Hdisj r Hr), Hsub.
    + rewrite Hset, heappush_Permutation, Hown', Hheaps. simpl.
      intros r [->|Hr]%elem_of_cons; [by left|right].
      apply elem_of_app in Hr as [Hr|Hr]; apply elem_of_app; [by left|right; by apply Hsub].
  - split; [done|]. split; [|split; [|done]].
    + rewrite Hheaps'. apply NoDup_app. split; [done|]. split; [|done].
      intros r Hr Hin. by apply (Hdisj r Hr), Hsub.
    + rewrite Hheaps', Hheaps. intros r Hr. right.
      apply elem_of_app in Hr as [Hr|Hr]; apply elem_of_app; [by left|right; by apply Hsub].
Qed.

Lemma calls_fresh objects self orders :
  NoDup (ObjectBook.resting_objects self ++ orders) →
  let after := ObjectBook.calls objects self orders in
  ObjectBook.view after.1 after.2 =
    foldl OrderBook.add_order (ObjectBook.view objects self) (objects <$> orders) ∧
  NoDup (ObjectBook.resting_objects after.2) ∧
  ObjectBook.resting_objects after.2 ⊆ ObjectBook.resting_objects self ++ orders ∧
  (∀ r, r ∉ ObjectBook.resting_objects self ++ orders → after.1 r = objects r).
Proof.
  revert objects self.
  induction orders as [|order orders IH]; intros objects self Hnodup.
  { rewrite app_nil_r in *. by split_and!. }
  assert (ObjectBook.resting_objects self ++ order :: orders ≡ₚ
            (order :: ObjectBook.resting_objects self) ++ orders) as Hperm.
  { by rewrite <-Permutation_middle. }
  rewrite Hperm in Hnodup. clear Hperm.
  apply NoDup_app in Hnodup as (Hnd & Hdisj & Hnd_orders).
  apply NoDup_cons in Hnd as [Hfresh Hnd].
  destruct (add_order_fresh objects self order Hnd Hfresh)
    as (Hview & Hnd1 & Hsub1 & Hkeep1).
  unfold ObjectBook.calls in *. cbn [foldl fmap list_fmap].
  fold (objects <$> orders).
  destruct (ObjectBook.add_order objects self order) as [objects1 self1].
  simpl in Hview, Hnd1, Hsub1, Hkeep1.
  destruct (IH objects1 self1) as (Hview' & Hnd' & Hsub' & Hkeep').
  { apply NoDup_app. split; [done|]. split; [|done].
    intros r Hr. by apply Hdisj, Hsub1. }
  cbn zeta in *. split_and!.
  - rewrite Hview', Hview. f_equal.
    apply list_fmap_ext. intros i r Hr. apply list_elem_of_lookup_2 in Hr.
    apply Hkeep1. intros Hin. by apply (Hdisj r Hin).
  - done.
  - intros r Hr. apply Hsub', elem_of_app in Hr as [Hr|Hr].
    + apply Hsub1, elem_of_cons in Hr as [->|Hr]; apply elem_of_app;
        [right; by left|by left].
    + apply elem_of_app. right. by right.
  - intros r Hr. apply not_elem_of_app in Hr as [Hr1 Hr2].
    apply not_elem_of_cons in Hr2 as [Hr2 Hr3].
    rewrite Hkeep'.
    + apply Hkeep1. by apply not_elem_of_cons.
    + apply not_elem_of_app. split; [|done]. intros Hin.
      apply Hsub1, elem_of_cons in Hin as [?|?]; done.
Qed.

(** When every call is given an object of its own, the book that the
    readers find is the one of [OrderBook.run] on the fields with which the
    objects were created. *)
Lemma run_fresh instrument_id on_market_update objects orders :
  NoDup orders →
  let after := ObjectBook.run instrument_id on_market_update objects orders in
  ObjectBook.view after.1 after.2 =
    OrderBook.run instrument_id on_market_update (objects <$> orders) ∧
  NoDup (ObjectBook.resting_objects after.2) ∧
  ObjectBook.resting_objects after.2 ⊆ orders ∧
  (∀ r, r ∉ orders → after.1 r = objects r).
Proof.
  intros Hnodup.
  apply (calls_fresh objects (ObjectBook.__init__ instrument_id on_market_update) orders).
  done.
Qed.

(** ** The loop bound of [ObjectBook]

    On every store and book, also when an object rests twice or is matched
    against itself: an iteration either pops the first resting object or
    leaves the incoming object without a positive quantity, so that the loop
    condition fails next. *)
Lemma object_resting_log_trade s self trade :
  ObjectMatching.resting s (ObjectBook.log_trade self trade) = ObjectMatching.resting s self.
Proof. by destruct s. Qed.

Lemma object_resting_notify_update s self price quantity side :
  ObjectMatching.resting s (ObjectBook._notify_update self price quantity side) =
  ObjectMatching.resting s self.
Proof.
  unfold ObjectBook._notify_update.
  by destruct (ObjectBook.on_market_update self), s.
Qed.

Lemma object_resting_set_resting s self h :
  ObjectMatching.resting s (ObjectMatching.set_resting s self h) = h.
Proof. by destruct s. Qed.

Lemma object_body_cases s objects self order objects' self' :
  ObjectMatching.body s objects self order = Some (objects', self') →
  (S (length (ObjectMatching.resting s self')) = length (ObjectMatching.resting s self)) ∨
  (Order.quantity (objects' order) ≤ 0 ∧
   ObjectMatching.resting s self' = ObjectMatching.resting s self).
Proof.
  unfold ObjectMatching.body, ObjectMatching.trade.
  case_bool_decide as Hpos; [|done].
  destruct (ObjectMatching.resting s self) as [|best rest] eqn:Hrest; [done|].
  cbn [lookup list_lookup].
  destruct (_ && _); [done|].
  set (q := Z.min (Order.quantity (objects order)) (Order.quantity (objects best))).
  unfold ObjectMatching.settle.
  rewrite object_resting_log_trade, Hrest.
  destruct (heappop_cons (ObjectBook.lt
              (ObjectBook.sub_quantity (ObjectBook.sub_quantity objects order q) best q))
              best rest) as (heap' & -> & _ & Hlen).
  destruct (_ =? 0) eqn:Hzero; intros [= <- <-].
  - left. rewrite object_resting_notify_update, object_resting_set_resting. simpl. lia.
  - right. rewrite object_resting_notify_update, object_resting_log_trade.
    split; [|done]. apply Z.eqb_neq in Hzero. revert Hzero.
    destruct (decide (order = best)) as [->|Hne].
    + rewrite !sub_quantity_eq. simpl. rewrite ?sub_quantity_eq. simpl. lia.
    + rewrite sub_quantity_eq, (sub_quantity_ne _ order q best) by done.
      rewrite (sub_quantity_ne _ best q order) by done. rewrite ?sub_quantity_eq.
      simpl. lia.
Qed.

Lemma object_loop_exit s fuel objects self order :
  (length (ObjectMatching.resting s self) < fuel)%nat →
  let after := ObjectMatching.loop s fuel objects self order in
  ObjectMatching.body s after.1 after.2 order = None.
Proof.
  revert objects self.
  induction fuel as [|fuel IH]; intros objects self Hfuel; [lia|].
  cbn [ObjectMatching.loop].
  destruct (ObjectMatching.body s objects self order) as [[objects1 self1]|] eqn:Hrun;
    [|done].
  destruct (object_body_cases _ _ _ _ _ _ Hrun) as [Hlen|[Hzero _]].
  - apply IH. lia.
  - assert (ObjectMatching.body s objects1 self1 order = None) as Hnone.
    { unfold ObjectMatching.body, ObjectMatching.trade.
      by rewrite bool_decide_eq_false_2 by lia. }
    destruct fuel; cbn [ObjectMatching.loop]; [done|]. by rewrite Hnone.
Qed.

(** The loop stops because its condition fails or its [break] is taken. *)
Lemma object_body_None s objects self order :
  ObjectMatching.body s objects self order = None →
  Order.quantity (objects order) ≤ 0 ∨ ObjectMatching.resting s self = [] ∨
  ∃ best, ObjectMatching.resting s self !! 0%nat = Some best ∧
          Order.order_type (objects order) = "limit" ∧
          Matching.beyond_limit s (objects best) (objects order) = true.
Proof.
  unfold ObjectMatching.body, ObjectMatching.trade.
  case_bool_decide as Hpos; [|intros _; left; lia].
  destruct (ObjectMatching.resting s self) as [|best rest] eqn:Hrest; [by auto|].
  cbn [lookup list_lookup].
  destruct ((Order.order_type (objects order) =? "limit")%string) eqn:Htype;
    [destruct (Matching.beyond_limit s (objects best) (objects order)) eqn:Hlim|]; simpl.
  { intros _. right; right. exists best. by apply String.eqb_eq in Htype. }
  all: set (q := Z.min (Order.quantity (objects order)) (Order.quantity (objects best))).
  all: unfold ObjectMatching.settle; rewrite object_resting_log_trade, Hrest.
  all: destruct (heappop_cons (ObjectBook.lt
              (ObjectBook.sub_quantity (ObjectBook.sub_quantity objects order q) best q))
              best rest) as (heap' & -> & _).
  all: by destruct (_ =? 0).
Qed.

Lemma object_run_exit s objects self order :
  let after := ObjectMatching.run s objects self order in
  ObjectMatching.body s after.1 after.2 order = None.
Proof. apply object_loop_exit. lia. Qed.

(** ** Priority among the resting orders within one call *)

Lemma StronglySorted_lookup_lt {A} (R : relation A) (l : list A) i j x y :
  StronglySorted R l → l !! i = Some x → l !! j = Some y → (i < j)%nat → R x y.
Proof.
  intros Hsorted. revert i j.
  induction Hsorted as [|a l Hsorted IH Hall]; intros i j Hx Hy Hij; [done|].
  destruct j as [|j]; [lia|]. destruct i as [|i]; simpl in *.
  - injection Hx as <-. apply (proj1 (Forall_forall _ _) Hall).
    by eapply list_elem_of_lookup_2.
  - apply (IH i j); [done|done|lia].
Qed.

Lemma steps_taker_pos s self taker fills self' taker' :
  steps s self taker fills self' taker' → fills ≠ [] → Order.quantity taker > 0.
Proof.
  intros Hsteps Hne. inversion Hsteps as [|? ? ? ? ? ? ? ? ? Hstep _]; subst; [done|].
  by eapply step_taker_pos.
Qed.

(** A fill that is not the last one of its call consumes its order. *)
Lemma step_full_fill s self taker self1 taker1 best rest fills self' taker' :
  step_spec s self taker self1 taker1 best rest →
  steps s self1 taker1 fills self' taker' → fills ≠ [] →
  Z.min (Order.quantity taker) (Order.quantity best) = Order.quantity best ∧
  Matching.resting s self1 ≡ₚ rest.
Proof.
  intros Hstep Hsteps Hne.
  pose proof (steps_taker_pos _ _ _ _ _ _ Hsteps Hne) as Hpos.
  destruct (step_resting_cases _ _ _ _ _ _ _ Hstep)
    as [(Hzero & Hperm & _)|(_ & Hzero & _)]; [|lia].
  split; [lia|done].
Qed.

(** Within one call of [add_order] the resting orders are filled in the
    order of [Order.__lt__]. *)
Lemma steps_priority s self taker fills self' taker' :
  steps s self taker fills self' taker' →
  side_inv (negb s) (Matching.resting s self) →
  Forall (λ fill, fill.1 ∈ Matching.resting s self) fills ∧
  StronglySorted (λ f g, Order.__lt__ g.1 f.1 = false) fills ∧
  (∀ i fill, fills !! i = Some fill → (S i < length fills)%nat →
             fill.2 = Order.quantity fill.1) ∧
  (∀ j fill r, fills !! j = Some fill → r ∈ Matching.resting s self →
               Order.__lt__ r fill.1 = true →
               ∃ i, (i < j)%nat ∧ fills !! i = Some (r, Order.quantity r)) ∧
  (∀ fill, last fills = Some fill → fill.2 ≠ Order.quantity fill.1 →
           Matching.resting s self' !! 0%nat =
             Some (Order.set_quantity fill.1 (Order.quantity fill.1 - fill.2))).
Proof.
  induction 1 as [self taker|self taker self1 taker1 best rest fills self' taker'
                    Hstep Hsteps IH]; intros Hinv.
  { split; [by apply Forall_nil|]. split; [constructor|]. by split_and!. }
  pose proof (step_side_inv _ _ _ _ _ _ _ Hstep Hinv) as Hinv1.
  destruct (IH Hinv1) as (Hin & Hsorted & Hfull & Hover & Hlast). clear IH.
  pose proof (step_resting _ _ _ _ _ _ _ Hstep) as Hrest.
  assert (Matching.resting s self !! 0%nat = Some best) as Hbest by by rewrite Hrest.
  assert (fills ≠ [] → ∀ x, x ∈ Matching.resting s self1 → x ∈ Matching.resting s self)
    as Hback.
  { intros Hne x Hx.
    destruct (step_full_fill _ _ _ _ _ _ _ _ _ _ Hstep Hsteps Hne) as [_ Hperm].
    rewrite Hrest. right. by rewrite <-Hperm. }
  assert (Forall (λ fill, fill.1 ∈ Matching.resting s self) fills) as Hin'.
  { destruct fills as [|f fills]; [by apply Forall_nil|].
    eapply Forall_impl; [exact Hin|]. intros fill. by apply Hback. }
  split_and!.
  - apply Forall_cons. split; [|done]. rewrite Hrest. by left.
  - constructor; [done|]. eapply Forall_impl; [exact Hin'|].
    intros fill Hfill. simpl in *. exact (side_inv_root _ _ _ _ Hinv Hbest Hfill).
  - intros [|i] fill Hfill Hlen; simpl in *.
    + injection Hfill as <-. simpl.
      apply (step_full_fill _ _ _ _ _ _ _ _ _ _ Hstep Hsteps).
      intros ->. simpl in Hlen. lia.
    + apply (Hfull i); [done|lia].
  - intros [|j] fill r Hfill Hr Hlt; simpl in *.
    + injection Hfill as <-. simpl in Hlt.
      by rewrite (side_inv_root _ _ _ _ Hinv Hbest Hr) in Hlt.
    + assert (fills ≠ []) as Hne by (intros ->; by rewrite lookup_nil in Hfill).
      destruct (step_full_fill _ _ _ _ _ _ _ _ _ _ Hstep Hsteps Hne) as [Hmin Hperm].
      rewrite Hrest in Hr. apply elem_of_cons in Hr as [->|Hr].
      * exists 0%nat. split; [lia|]. simpl. by rewrite Hmin.
      * rewrite <-Hperm in Hr.
        destruct (Hover j fill r Hfill Hr Hlt) as (i & Hi & Hfi).
        exists (S i). split; [lia|done].
  - intros fill Hfill Hpart. destruct fills as [|f fills].
    + simpl in Hfill. injection Hfill as <-. simpl in *.
      inversion Hsteps; subst.
      destruct (step_resting_cases _ _ _ _ _ _ _ Hstep)
        as [(Hzero & _)|(_ & _ & ->)]; [lia|done].
    + apply Hlast; [|done]. by rewrite last_cons_cons in Hfill.
Qed.

(** ** The scenarios of the specification, run on the model *)

(** Cross and rest: the trade is made at the resting bid's price, 100, not at
    the incoming ask's 99. *)
Example scenario_cross_and_rest :
  let book := OrderBook.run "BTC_USD" true
                [Order.mk 1 100 10 true "limit" 1; Order.mk 2 99 4 false "limit" 2] in
  OrderBook.trade_log book = [Trade.mk 1 2 100 4] ∧
  OrderBook.dump_book book = ([(100, 6)], []) ∧
  OrderBook.notified book = [LevelUpdate.mk "BTC_USD" 100 6 true].
Proof. vm_compute. done. Qed.

(** A market order exhausts the liquidity. *)
Example scenario_market_exhausts :
  let book := OrderBook.run "BTC_USD" true
                (thin_asks_orders ++ [Order.mk 3 0 10 true "market" 3]) in
  OrderBook.trade_log book = [Trade.mk 3 1 101 3; Trade.mk 3 2 102 2] ∧
  OrderBook.dump_book book = ([], []) ∧
  OrderBook.notified book =
    [LevelUpdate.mk "BTC_USD" 101 0 false; LevelUpdate.mk "BTC_USD" 102 0 false].
Proof. vm_compute. done. Qed.

(** Two bids at one price with timestamps 1 and 2: the earlier one is
    filled. *)
Example scenario_time_priority :
  let book := OrderBook.run "BTC_USD" true
                [Order.mk 1 100 5 true "limit" 1; Order.mk 2 100 5 true "limit" 2;
                 Order.mk 3 100 5 false "limit" 3] in
  OrderBook.trade_log book = [Trade.mk 1 3 100 5] ∧
  OrderBook.buy_heap book = [Order.mk 2 100 5 true "limit" 2].
Proof. vm_compute. done. Qed.

(** * The claims *)

(** C1.  After any sequence of [add_order] calls on a new book, and one more
    call with any order, the book is not crossed: the bid side or the ask
    side is empty, or the highest resting bid price is strictly below the
    lowest resting ask price. *)
Theorem add_order_uncrossed instrument_id on_market_update orders order :
  uncrossed
    (OrderBook.add_order (OrderBook.run instrument_id on_market_update orders) order).
Proof. apply book_inv_uncrossed, add_order_book_inv, run_book_inv. Qed.

(** C10, counterexample.  One [Order] object, a bid for 5 at 100, is passed
    to [add_order] twice, and rests twice; a sell order for 5 fills it and
    pops one of the two entries.  The other entry stays on [buy_heap] with
    quantity 0: [get_best_bid] returns an order without quantity and
    [dump_book] a level [(100, 0)].  The same is found during a call on
    distinct objects, between [best_buy.quantity -= trade_qty] and the
    [heappop] that follows. *)
Lemma resting_order_without_quantity :
  let after := ObjectBook.run "BTC_USD" true bid_and_asks [0; 0; 1]%nat in
  ObjectBook.buy_heap after.2 = [0%nat] ∧
  Order.quantity <$> ObjectBook.get_best_bid after.1 after.2 = Some 0 ∧
  ObjectBook.dump_book after.1 after.2 = ([(100, 0)], []) ∧
  let before := ObjectBook.run "BTC_USD" true bid_and_asks [0%nat] in
  match ObjectBook.match_sell_trade before.1 before.2 1 with
  | Some (objects, during, _) =>
      ObjectBook.buy_heap during = [0%nat] ∧
      Order.quantity <$> ObjectBook.get_best_bid objects during = Some 0 ∧
      ObjectBook.dump_book objects during = ([(100, 0)], [])
  | None => False
  end.
Proof. vm_compute. done. Qed.

(** C10, amended.  After any sequence of [add_order] calls in which no
    [Order] object is passed twice, whatever the fields of the objects, and
    when no call is in progress: every object resting on [buy_heap] or
    [sell_heap] has a strictly positive quantity; so have the orders returned
    by [get_best_bid] and [get_best_ask], and every level of [dump_book] has
    quantity at least 1. *)
Theorem resting_quantity_positive instrument_id on_market_update objects orders :
  NoDup orders →
  let after := ObjectBook.run instrument_id on_market_update objects orders in
  Forall (λ r, 0 < Order.quantity (after.1 r)) (ObjectBook.buy_heap after.2) ∧
  Forall (λ r, 0 < Order.quantity (after.1 r)) (ObjectBook.sell_heap after.2) ∧
  match ObjectBook.get_best_bid after.1 after.2 with
  | Some o => 0 < Order.quantity o
  | None => True
  end ∧
  match ObjectBook.get_best_ask after.1 after.2 with
  | Some o => 0 < Order.quantity o
  | None => True
  end ∧
  Forall (λ level, 1 ≤ level.2) (ObjectBook.dump_book after.1 after.2).1 ∧
  Forall (λ level, 1 ≤ level.2) (ObjectBook.dump_book after.1 after.2).2.
Proof.
  intros Hnodup after.
  destruct (run_fresh instrument_id on_market_update objects orders Hnodup)
    as (Hview & _). fold after in Hview.
  destruct (run_book_inv instrument_id on_market_update (objects <$> orders))
    as ((_ & _ & Hbuy) & (_ & _ & Hsell) & _).
  rewrite <-Hview in Hbuy, Hsell.
  pose proof Hbuy as Hbuy'. pose proof Hsell as Hsell'.
  cbn [ObjectBook.view OrderBook.buy_heap OrderBook.sell_heap] in Hbuy', Hsell'.
  rewrite Forall_fmap in Hbuy'. rewrite Forall_fmap in Hsell'.
  unfold ObjectBook.dump_book, ObjectBook.get_best_bid, ObjectBook.get_best_ask.
  split_and!.
  - exact Hbuy'.
  - exact Hsell'.
  - destruct (ObjectBook.buy_heap after.2 !! 0%nat) as [r|] eqn:Hr; [|done].
    exact (Forall_lookup_1 _ _ _ _ Hbuy' Hr).
  - destruct (ObjectBook.sell_heap after.2 !! 0%nat) as [r|] eqn:Hr; [|done].
    exact (Forall_lookup_1 _ _ _ _ Hsell' Hr).
  - by apply Forall_reverse, sorted_items_positive, levels_of_positive.
  - by apply sorted_items_positive, levels_of_positive.
Qed.

(** C10 (amended) at three objects, each passed once: the bid, and the two
    asks of which the second one rests. *)
Lemma resting_quantity_positive_witness :
  let after := ObjectBook.run "BTC_USD" true bid_and_asks [0; 1; 2]%nat in
  Forall (λ r, 0 < Order.quantity (after.1 r)) (ObjectBook.buy_heap after.2) ∧
  Forall (λ r, 0 < Order.quantity (after.1 r)) (ObjectBook.sell_heap after.2) ∧
  match ObjectBook.get_best_bid after.1 after.2 with
  | Some o => 0 < Order.quantity o
  | None => True
  end ∧
  match ObjectBook.get_best_ask after.1 after.2 with
  | Some o => 0 < Order.quantity o
  | None => True
  end ∧
  Forall (λ level, 1 ≤ level.2) (ObjectBook.dump_book after.1 after.2).1 ∧
  Forall (λ level, 1 ≤ level.2) (ObjectBook.dump_book after.1 after.2).2.
Proof.
  apply (resting_quantity_positive "BTC_USD" true bid_and_asks [0; 1; 2]%nat).
  compute_done.
Defined.

(** C8.  Every trade that a call of [add_order] appends to the trade log is
    made at the price of the resting order it was matched with: that order
    was on the opposite heap before the call, and the trade carries its
    identifier and its price, whatever the price of the incoming order. *)
Theorem trade_at_maker_price self order :
  let s := Order.side order in
  Forall (λ trade, ∃ maker, maker ∈ Matching.resting s self ∧
                            Matching.maker_id s trade = Order.order_id maker ∧
                            Trade.price trade = Order.price maker)
         (new_trades self (OrderBook.add_order self order)).
Proof.
  intros s.
  destruct (add_order_logs self order) as (fills & self' & order' & Hsteps & _ & _ & -> & _).
  fold s in Hsteps |- *.
  destruct (steps_makers _ _ _ _ _ _ Hsteps) as [Hmakers _].
  apply Forall_fmap. eapply Forall_impl; [exact Hmakers|].
  intros [best q] (maker & Hmaker & Hsame). simpl in *.
  apply same_order_fields in Hsame as (Hid & Hprice & _).
  exists maker. split; [done|]. rewrite <-Hid, <-Hprice. by destruct s.
Qed.

(** C5, counterexample.  A buy order that consumes the two sell orders resting
    at 100 makes the callback fire twice for the level (100, sell) within one
    call of [add_order]. *)
Lemma two_updates_for_one_level :
  let after := OrderBook.add_order two_asks_book (Order.mk 3 100 8 true "limit" 3) in
  new_updates two_asks_book after =
    [LevelUpdate.mk "BTC_USD" 100 0 false; LevelUpdate.mk "BTC_USD" 100 0 false] ∧
  new_trades two_asks_book after = [Trade.mk 3 1 100 5; Trade.mk 3 2 100 3].
Proof. vm_compute. done. Qed.

(** C5, amended.  [add_order] calls the callback once per trade, not once per
    price level: the notifications of a call are, in order, one for each trade
    of the call, for the price of the trade on the side opposite to the
    incoming order; without a callback there is none. *)
Theorem one_update_per_trade self order :
  let after := OrderBook.add_order self order in
  (λ u, (LevelUpdate.price u, LevelUpdate.side u)) <$> new_updates self after =
  if OrderBook.on_market_update self
  then (λ t, (Trade.price t, negb (Order.side order))) <$> new_trades self after
  else [].
Proof.
  intros after. subst after.
  destruct (add_order_logs self order) as (fills & self' & order' & _ & _ & _ & -> & ->).
  destruct (OrderBook.on_market_update self); [|done].
  rewrite <-!list_fmap_compose. apply list_fmap_ext.
  intros _ [best q] _. simpl. by destruct (Order.side order).
Qed.



(** C6, counterexample.  Four bids arrive at price 100 in the order 1, 2, 3,
    4 with equal timestamps.  The first sell order fills bid 1; the second
    fills bid 3, while bid 2, which arrived before it, has received no fill
    and still rests. *)
Lemma later_arrival_filled_first :
  let book := OrderBook.run "BTC_USD" true
                (tied_bids_orders ++
                 [Order.mk 5 100 5 false "limit" 2; Order.mk 6 100 5 false "limit" 3]) in
  OrderBook.trade_log book = [Trade.mk 1 5 100 5; Trade.mk 3 6 100 5] ∧
  OrderBook.buy_heap book =
    [Order.mk 2 100 5 true "limit" 1; Order.mk 4 100 5 true "limit" 1].
Proof. vm_compute. done. Qed.

(** Priority does not outlast a call either.  Bid 1, created at 5, is partly
    filled; bid 2, created at 3 and submitted after that, goes ahead of it:
    the next sell order fills bid 2 while bid 1 still rests with 3. *)
Example partly_filled_order_overtaken :
  let book := OrderBook.run "BTC_USD" true
                [Order.mk 1 100 5 true "limit" 5; Order.mk 3 100 2 false "limit" 6;
                 Order.mk 2 100 5 true "limit" 3; Order.mk 4 100 2 false "limit" 7] in
  OrderBook.trade_log book = [Trade.mk 1 3 100 2; Trade.mk 2 4 100 2] ∧
  OrderBook.buy_heap book =
    [Order.mk 2 100 3 true "limit" 3; Order.mk 1 100 3 true "limit" 5].
Proof. vm_compute. done. Qed.

(** C6, amended.  Priority within a price level follows [Order.timestamp],
    not arrival, and it holds within one call of [add_order].  On a book
    whose opposite heap holds orders of the opposite side with positive
    quantities, in heap order, the trades of a call are made with orders of
    that heap, as they were before the call, such that:
    - an order with a positive quantity that finds the first order of the
      heap within its limit fills that order first;
    - of two orders filled at the same price, the one filled first has no
      later timestamp;
    - an order that rests at the price of a filled order with a strictly
      earlier timestamp has been filled in full before it in the call;
    - every fill but the last of the call consumes its order in full;
    - an order that the last fill leaves with a remainder is the first of
      its heap after the call. *)
Theorem fill_earliest_timestamp self order :
  let s := Order.side order in
  let after := OrderBook.add_order self order in
  side_inv (negb s) (Matching.resting s self) →
  ∃ fills,
    new_trades self after = fill_trade s order <$> fills ∧
    Forall (λ fill, fill.1 ∈ Matching.resting s self) fills ∧
    (∀ best, Order.quantity order > 0 → Matching.resting s self !! 0%nat = Some best →
       (Order.order_type order =? "limit")%string && Matching.beyond_limit s best order
         = false →
       head fills = Some (best, Z.min (Order.quantity order) (Order.quantity best))) ∧
    (∀ i j f g, (i < j)%nat → fills !! i = Some f → fills !! j = Some g →
       Order.price f.1 = Order.price g.1 → Order.timestamp f.1 ≤ Order.timestamp g.1) ∧
    (∀ j g r, fills !! j = Some g → r ∈ Matching.resting s self →
       Order.price r = Order.price g.1 → Order.timestamp r < Order.timestamp g.1 →
       ∃ i, (i < j)%nat ∧ fills !! i = Some (r, Order.quantity r)) ∧
    (∀ i f, fills !! i = Some f → (S i < length fills)%nat → f.2 = Order.quantity f.1) ∧
    (∀ f, last fills = Some f → f.2 ≠ Order.quantity f.1 →
       Matching.resting s after !! 0%nat =
         Some (Order.set_quantity f.1 (Order.quantity f.1 - f.2))).
Proof.
  intros s after Hinv. subst after.
  destruct (add_order_logs self order)
    as (fills & self' & order' & Hsteps & Hexit & Heq & Htrades & _).
  fold s in Hsteps, Hexit, Heq, Htrades.
  destruct (steps_priority _ _ _ _ _ _ Hsteps Hinv)
    as (Hin & Hsorted & Hfull & Hover & Hlast).
  exists fills. split_and!; try done.
  - intros best Hq Hbest Hlim.
    inversion Hsteps as [|? ? self1 order1 best' rest fills' ? ? Hstep _]; subst.
    + apply body_None in Hexit as [?|[Hnil|(b & Hb & Htype & Hbeyond)]]; [lia| |].
      * by rewrite Hnil in Hbest.
      * rewrite Hb in Hbest. injection Hbest as ->.
        by rewrite Htype, Hbeyond in Hlim.
    + rewrite (step_resting _ _ _ _ _ _ _ Hstep) in Hbest. by injection Hbest as ->.
  - intros i j f g Hij Hf Hg Hprice.
    pose proof (StronglySorted_lookup_lt _ fills i j f g Hsorted Hf Hg Hij) as Hlt.
    revert Hlt. unfold Order.__lt__. rewrite Hprice, Z.eqb_refl. simpl.
    destruct (Order.side g.1); lia.
  - intros j g r Hg Hr Hprice Hts. apply (Hover j g r Hg Hr).
    unfold Order.__lt__. rewrite Hprice, Z.eqb_refl. simpl.
    destruct (Order.side r); lia.
  - intros f Hf Hpart. rewrite Heq.
    destruct (_ && _); [rewrite resting_set_own|]; by apply Hlast.
Qed.

(** C6 (amended) at a book with three bids at 100, created at 2, 1 and 3, and
    an incoming sell order for 12: the bids are filled in the order of their
    timestamps, the last one in part. *)
Lemma fill_earliest_timestamp_witness :
  let book := OrderBook.mk "BTC_USD"
                [Order.mk 2 100 5 true "limit" 1; Order.mk 1 100 5 true "limit" 2;
                 Order.mk 3 100 5 true "limit" 3] [] [] true [] in
  let order := Order.mk 4 100 12 false "limit" 4 in
  let after := OrderBook.add_order book order in
  ∃ fills,
    new_trades book after = fill_trade false order <$> fills ∧
    Forall (λ fill, fill.1 ∈ Matching.resting false book) fills ∧
    (∀ best, Order.quantity order > 0 → Matching.resting false book !! 0%nat = Some best →
       (Order.order_type order =? "limit")%string
         && Matching.beyond_limit false best order = false →
       head fills = Some (best, Z.min (Order.quantity order) (Order.quantity best))) ∧
    (∀ i j f g, (i < j)%nat → fills !! i = Some f → fills !! j = Some g →
       Order.price f.1 = Order.price g.1 → Order.timestamp f.1 ≤ Order.timestamp g.1) ∧
    (∀ j g r, fills !! j = Some g → r ∈ Matching.resting false book →
       Order.price r = Order.price g.1 → Order.timestamp r < Order.timestamp g.1 →
       ∃ i, (i < j)%nat ∧ fills !! i = Some (r, Order.quantity r)) ∧
    (∀ i f, fills !! i = Some f → (S i < length fills)%nat → f.2 = Order.quantity f.1) ∧
    (∀ f, last fills = Some f → f.2 ≠ Order.quantity f.1 →
       Matching.resting false after !! 0%nat =
         Some (Order.set_quantity f.1 (Order.quantity f.1 - f.2))).
Proof.
  apply (fill_earliest_timestamp
           (OrderBook.mk "BTC_USD"
              [Order.mk 2 100 5 true "limit" 1; Order.mk 1 100 5 true "limit" 2;
               Order.mk 3 100 5 true "limit" 3] [] [] true [])
           (Order.mk 4 100 12 false "limit" 4)).
  unfold side_inv. cbn [Order.side negb Matching.resting OrderBook.buy_heap].
  split_and!.
  - repeat (apply Forall_cons_2; [reflexivity|]). apply Forall_nil_2.
  - intros j x y Hj Hx Hy.
    destruct j as [|[|[|j]]]; [lia|..]; cbn in Hx, Hy; simplify_eq; reflexivity.
  - repeat (apply Forall_cons_2; [reflexivity|]). apply Forall_nil_2.
Defined.

(** C2, the code at the failing input.  Two sell orders rest at 100, for 5 and
    for 3.  A buy order for 5 consumes the first one: the callback is told
    quantity 0 for the level (100, sell), while 3 still rest there.  A buy
    order for 2 leaves 3 of the first order: the callback is told 3, while 6
    rest at the level. *)
Theorem update_carries_order_quantity :
  let full := OrderBook.add_order two_asks_book (Order.mk 3 100 5 true "limit" 3) in
  let part := OrderBook.add_order two_asks_book (Order.mk 3 100 2 true "limit" 3) in
  new_updates two_asks_book full = [LevelUpdate.mk "BTC_USD" 100 0 false] ∧
  level_quantity 100 (OrderBook.sell_heap full) = 3 ∧
  new_updates two_asks_book part = [LevelUpdate.mk "BTC_USD" 100 3 false] ∧
  level_quantity 100 (OrderBook.sell_heap part) = 6.
Proof. vm_compute. done. Qed.

(** C4, the code at the failing input.  A limit buy order for 10 at 100 on an
    empty book with a callback installed rests in full, and the callback is
    not called. *)
Theorem rest_without_update :
  let book := OrderBook.__init__ "BTC_USD" true in
  let order := Order.mk 1 100 10 true "limit" 1 in
  let after := OrderBook.add_order book order in
  OrderBook.buy_heap after = [order] ∧
  level_quantity 100 (OrderBook.buy_heap after) = 10 ∧
  new_updates book after = [].
Proof. vm_compute. done. Qed.




(** * The client-side replica *)

(** C9, counterexample.  The update carries timestamp 5, the snapshot was
    taken at 10; [apply_update] applies it all the same: the bid level at 100
    goes from 5 to 7 and the replica's timestamp goes back to 5. *)
Lemma stale_update_applied :
  OrderBookUpdate.timestamp stale_update
    ≤ ClientOrderBook.last_update_timestamp synced_client ∧
  ClientOrderBook.bids synced_client !! 100 = Some 5 ∧
  ClientOrderBook.bids (ClientOrderBook.apply_update synced_client stale_update) !! 100
    = Some 7 ∧
  ClientOrderBook.last_update_timestamp
    (ClientOrderBook.apply_update synced_client stale_update) = 5.
Proof. vm_compute. split_and!; (done || by intros [=]). Qed.

Lemma update_target_dict update target_dict target_heap :
  (ClientOrderBook.update_target update target_dict target_heap).1 =
  if bool_decide (OrderBookUpdate.quantity update > 0)
  then <[OrderBookUpdate.price update := OrderBookUpdate.quantity update]> target_dict
  else delete (OrderBookUpdate.price update) target_dict.
Proof.
  unfold ClientOrderBook.update_target. case_bool_decide; [done|]. simpl.
  destruct (target_dict !! OrderBookUpdate.price update) eqn:Hp; [done|].
  by rewrite delete_id.
Qed.

Lemma update_target_idem update target_dict target_heap :
  let '(d, h) := ClientOrderBook.update_target update target_dict target_heap in
  ClientOrderBook.update_target update d h = (d, h).
Proof.
  unfold ClientOrderBook.update_target. case_bool_decide; simpl.
  - rewrite lookup_insert_eq, insert_insert_eq. done.
  - destruct (target_dict !! OrderBookUpdate.price update) eqn:Hp.
    + by rewrite lookup_delete_eq.
    + by rewrite Hp.
Qed.

(** The body of [apply_update] changes nothing exactly when the level is
    already what the update makes it. *)
Lemma update_target_same update target_dict target_heap :
  ClientOrderBook.update_target update target_dict target_heap
    = (target_dict, target_heap) ↔
  target_dict !! OrderBookUpdate.price update =
    if bool_decide (OrderBookUpdate.quantity update > 0)
    then Some (OrderBookUpdate.quantity update) else None.
Proof.
  unfold ClientOrderBook.update_target. case_bool_decide; simpl.
  - split.
    + intros [= Hd _]. by rewrite <-Hd, lookup_insert_eq.
    + intros Hp. rewrite Hp. by rewrite insert_id.
  - destruct (target_dict !! OrderBookUpdate.price update) as [q|] eqn:Hp.
    + split; [|done]. intros [= Hd]. by rewrite <-Hd, lookup_delete_eq in Hp.
    + done.
Qed.

(** C9, amended.  [apply_update] does not look at the timestamp of the update
    or of the replica.  It always sets [last_update_timestamp] to the update's
    timestamp and applies the update to the map of the update's side (a
    positive quantity sets the level, any other removes it), leaving the
    other side alone.  An update applied again right after itself changes
    nothing more.  An update leaves the replica as it was exactly when it
    carries the replica's own timestamp and the level is already what the
    update makes it: whether it does is decided by what the replica holds,
    never by the update being old. *)
Theorem apply_update_unconditional self update :
  let after := ClientOrderBook.apply_update self update in
  let price := OrderBookUpdate.price update in
  let level (d : gmap Z Z) : gmap Z Z :=
    if bool_decide (OrderBookUpdate.quantity update > 0)
    then <[price := OrderBookUpdate.quantity update]> d
    else delete price d in
  ClientOrderBook.last_update_timestamp after = OrderBookUpdate.timestamp update ∧
  ClientOrderBook.bids after =
    (if OrderBookUpdate.side update
     then level (ClientOrderBook.bids self) else ClientOrderBook.bids self) ∧
  ClientOrderBook.asks after =
    (if OrderBookUpdate.side update
     then ClientOrderBook.asks self else level (ClientOrderBook.asks self)) ∧
  ClientOrderBook.apply_update after update = after ∧
  (after = self ↔
   OrderBookUpdate.timestamp update = ClientOrderBook.last_update_timestamp self ∧
   (if OrderBookUpdate.side update
    then ClientOrderBook.bids self else ClientOrderBook.asks self) !! price =
     if bool_decide (OrderBookUpdate.quantity update > 0)
     then Some (OrderBookUpdate.quantity update) else None).
Proof.
  intros after price level. subst after level price.
  unfold ClientOrderBook.apply_update.
  destruct (OrderBookUpdate.side update) eqn:Hside.
  - pose proof (update_target_dict update (ClientOrderBook.bids self)
                  (ClientOrderBook._bid_heap self)) as Hd.
    pose proof (update_target_idem update (ClientOrderBook.bids self)
                  (ClientOrderBook._bid_heap self)) as Hidem.
    pose proof (update_target_same update (ClientOrderBook.bids self)
                  (ClientOrderBook._bid_heap self)) as Hsame.
    destruct (ClientOrderBook.update_target update _ _) as [d h]. simpl in *.
    rewrite Hidem. split_and!; try done. rewrite <-Hsame.
    destruct self; simpl. split; [by intros [= -> -> ->]|by intros [-> [= -> ->]]].
  - pose proof (update_target_dict update (ClientOrderBook.asks self)
                  (ClientOrderBook._ask_heap self)) as Hd.
    pose proof (update_target_idem update (ClientOrderBook.asks self)
                  (ClientOrderBook._ask_heap self)) as Hidem.
    pose proof (update_target_same update (ClientOrderBook.asks self)
                  (ClientOrderBook._ask_heap self)) as Hsame.
    destruct (ClientOrderBook.update_target update _ _) as [d h]. simpl in *.
    rewrite Hidem. split_and!; try done. rewrite <-Hsame.
    destruct self; simpl. split; [by intros [= -> -> ->]|by intros [-> [= -> ->]]].
Qed.

(** * Further properties of the matching engine *)

(** ** The views of the book: [dump_book], [get_best_bid], [get_best_ask] *)

Lemma level_quantity_cons p o heap :
  level_quantity p (o :: heap) =
  (if decide (Order.price o = p) then Order.quantity o else 0) + level_quantity p heap.
Proof.
  unfold level_quantity. rewrite filter_cons.
  destruct (decide (Order.price o = p)); simpl; lia.
Qed.

Lemma level_quantity_Permutation p heap1 heap2 :
  heap1 ≡ₚ heap2 → level_quantity p heap1 = level_quantity p heap2.
Proof.
  intros Hperm. unfold level_quantity.
  apply total_quantity_Permutation. by rewrite Hperm.
Qed.

(** The aggregation loop of [dump_book], started from any dictionary. *)
Lemma levels_fold_lookup heap (acc : gmap Z Z) p :
  foldl (λ levels order,
           match levels !! Order.price order with
           | Some q => <[Order.price order := q + Order.quantity order]> levels
           | None => <[Order.price order := Order.quantity order]> levels
           end) acc heap !! p =
  match acc !! p with
  | Some q0 => Some (q0 + level_quantity p heap)
  | None => if decide (p ∈ prices_of heap) then Some (level_quantity p heap) else None
  end.
Proof.
  revert acc. induction heap as [|o heap IH]; intros acc.
  { cbn [foldl]. unfold level_quantity, prices_of. rewrite fmap_nil.
    destruct (acc !! p); [simpl; f_equal; lia|].
    destruct (decide (p ∈ [])) as [Hin|_]; [|done]. by apply elem_of_nil in Hin. }
  cbn [foldl]. rewrite IH, level_quantity_cons. unfold prices_of. rewrite fmap_cons.
  destruct (decide (Order.price o = p)) as [<-|Hne].
  - destruct (acc !! Order.price o) as [q0|] eqn:Hacc.
    + rewrite lookup_insert_eq. f_equal. lia.
    + rewrite lookup_insert_eq.
      destruct (decide (_ ∈ _ :: _)) as [_|Hnot]; [done|].
      exfalso. apply Hnot. by left.
  - assert (∀ v, <[Order.price o := v]> acc !! p = acc !! p) as Hother
      by (intros v; by rewrite lookup_insert_ne).
    assert (p ∈ Order.price o :: (Order.price <$> heap) ↔ p ∈ Order.price <$> heap)
      as Hiff by (rewrite elem_of_cons; intuition congruence).
    destruct (acc !! Order.price o); rewrite Hother; destruct (acc !! p);
      try (f_equal; lia).
    all: destruct (decide (p ∈ Order.price <$> heap)) as [Hin|Hin];
      destruct (decide (p ∈ Order.price o :: (Order.price <$> heap))) as [Hin'|Hin'];
      try (exfalso; tauto); try done; f_equal; lia.
Qed.

Lemma levels_of_lookup heap p q :
  OrderBook.levels_of heap !! p = Some q ↔
  p ∈ prices_of heap ∧ q = level_quantity p heap.
Proof.
  unfold OrderBook.levels_of. rewrite levels_fold_lookup, lookup_empty.
  destruct (decide (p ∈ prices_of heap)); intuition congruence.
Qed.

Lemma sorted_items_elem levels p q :
  (p, q) ∈ OrderBook.sorted_items levels ↔ levels !! p = Some q.
Proof.
  unfold OrderBook.sorted_items.
  by rewrite merge_sort_Permutation, elem_of_map_to_list.
Qed.

(** The levels of [dump_book], side by side. *)
Lemma dump_book_elem book p q :
  ((p, q) ∈ (OrderBook.dump_book book).1 ↔
   p ∈ prices_of (OrderBook.buy_heap book) ∧
   q = level_quantity p (OrderBook.buy_heap book)) ∧
  ((p, q) ∈ (OrderBook.dump_book book).2 ↔
   p ∈ prices_of (OrderBook.sell_heap book) ∧
   q = level_quantity p (OrderBook.sell_heap book)).
Proof.
  unfold OrderBook.dump_book. simpl. rewrite elem_of_reverse.
  by rewrite !sorted_items_elem, !levels_of_lookup.
Qed.

(** X1.  [dump_book] lists exactly the prices at which orders rest, each with
    the sum of the quantities of the orders resting at that price. *)
Theorem dump_book_levels book p q :
  ((p, q) ∈ (OrderBook.dump_book book).1 ↔
   p ∈ prices_of (OrderBook.buy_heap book) ∧
   q = level_quantity p (OrderBook.buy_heap book)) ∧
  ((p, q) ∈ (OrderBook.dump_book book).2 ↔
   p ∈ prices_of (OrderBook.sell_heap book) ∧
   q = level_quantity p (OrderBook.sell_heap book)).
Proof.
  unfold OrderBook.dump_book. cbn [fst snd].
  rewrite elem_of_reverse, !sorted_items_elem, !levels_of_lookup.
  by split.
Qed.

Global Instance tuple_le_transitive : Transitive OrderBook.tuple_le.
Proof. intros x y z. unfold OrderBook.tuple_le. lia. Qed.

Global Instance tuple_le_total : Total OrderBook.tuple_le.
Proof. intros x y. unfold OrderBook.tuple_le. lia. Qed.

Lemma StronglySorted_reverse {A} (R : relation A) (l : list A) :
  StronglySorted R l → StronglySorted (flip R) (reverse l).
Proof.
  induction 1 as [|x l _ IH Hx]; [constructor|].
  rewrite reverse_cons. apply StronglySorted_app_2; [|done|repeat constructor].
  intros y z Hy Hz. apply list_elem_of_singleton in Hz as ->.
  rewrite elem_of_reverse in Hy. unfold flip.
  by apply (proj1 (Forall_forall _ _) Hx).
Qed.

Lemma StronglySorted_weaken {A} (R1 R2 : relation A) (l : list A) :
  (∀ x y, R1 x y → R2 x y) → StronglySorted R1 l → StronglySorted R2 l.
Proof.
  intros HR. induction 1 as [|x l _ IH Hx]; constructor; [done|].
  eapply Forall_impl; [exact Hx|]. auto.
Qed.

(** A list sorted by key whose keys are distinct is strictly sorted. *)
Lemma StronglySorted_distinct_keys (R : relation (Z * Z)) (l : list (Z * Z)) :
  (∀ x y, R x y → x.1 ≤ y.1) →
  StronglySorted R l → NoDup (l.*1) → StronglySorted (λ x y, x.1 < y.1) l.
Proof.
  intros HR. induction 1 as [|x l _ IH Hx]; intros Hnodup; [constructor|].
  rewrite fmap_cons in Hnodup. apply NoDup_cons in Hnodup as [Hnotin Hnodup].
  constructor; [by apply IH|].
  apply Forall_forall. intros y Hy.
  pose proof (HR x y (proj1 (Forall_forall _ _) Hx y Hy)).
  assert (x.1 ≠ y.1); [|lia].
  intros Heq. apply Hnotin. rewrite Heq. by apply list_elem_of_fmap_2.
Qed.

Lemma sorted_items_sorted levels :
  StronglySorted (λ x y, x.1 < y.1) (OrderBook.sorted_items levels).
Proof.
  apply (StronglySorted_distinct_keys OrderBook.tuple_le).
  - intros x y. unfold OrderBook.tuple_le. lia.
  - apply StronglySorted_merge_sort; apply _.
  - unfold OrderBook.sorted_items. rewrite merge_sort_Permutation.
    apply NoDup_fst_map_to_list.
Qed.

Lemma dump_book_order book :
  StronglySorted (λ x y, x.1 > y.1) (OrderBook.dump_book book).1 ∧
  StronglySorted (λ x y, x.1 < y.1) (OrderBook.dump_book book).2.
Proof.
  unfold OrderBook.dump_book. simpl. split; [|apply sorted_items_sorted].
  eapply StronglySorted_weaken; [|apply StronglySorted_reverse, sorted_items_sorted].
  intros x y. unfold flip. lia.
Qed.

(** X2.  [dump_book] returns the bids by strictly decreasing price and the
    asks by strictly increasing price: no price appears twice. *)
Theorem dump_book_sorted book :
  StronglySorted (λ x y, x.1 > y.1) (OrderBook.dump_book book).1 ∧
  StronglySorted (λ x y, x.1 < y.1) (OrderBook.dump_book book).2.
Proof.
  unfold OrderBook.dump_book. cbn [fst snd].
  pose proof (sorted_items_sorted (OrderBook.levels_of (OrderBook.buy_heap book)))
    as Hbids.
  apply StronglySorted_reverse in Hbids.
  split; [|apply sorted_items_sorted].
  eapply StronglySorted_weaken; [|exact Hbids].
  intros x y. unfold flip. lia.
Qed.

Lemma max_price_upper heap m x :
  max_price heap = Some m → x ∈ heap → Order.price x ≤ m.
Proof.
  revert m. induction heap as [|o heap IH]; intros m Hm Hx; [by apply elem_of_nil in Hx|].
  simpl in Hm. apply elem_of_cons in Hx.
  destruct (max_price heap) as [p|] eqn:Hp; injection Hm as <-.
  - destruct Hx as [->|Hx]; [lia|]. specialize (IH p eq_refl Hx). lia.
  - destruct Hx as [->|Hx]; [lia|]. destruct heap; [by apply elem_of_nil in Hx|].
    simpl in Hp. by destruct (max_price heap).
Qed.

Lemma min_price_lower heap m x :
  min_price heap = Some m → x ∈ heap → m ≤ Order.price x.
Proof.
  revert m. induction heap as [|o heap IH]; intros m Hm Hx; [by apply elem_of_nil in Hx|].
  simpl in Hm. apply elem_of_cons in Hx.
  destruct (min_price heap) as [p|] eqn:Hp; injection Hm as <-.
  - destruct Hx as [->|Hx]; [lia|]. specialize (IH p eq_refl Hx). lia.
  - destruct Hx as [->|Hx]; [lia|]. destruct heap; [by apply elem_of_nil in Hx|].
    simpl in Hp. by destruct (min_price heap).
Qed.

(** The first order of a heap of the book has the best price of its side. *)
Lemma side_inv_best_price s heap best x :
  side_inv s heap → heap !! 0%nat = Some best → x ∈ heap →
  if s then Order.price x ≤ Order.price best else Order.price best ≤ Order.price x.
Proof.
  intros Hinv Hbest Hx.
  pose proof (side_inv_root _ _ _ _ Hinv Hbest Hx) as Hroot.
  destruct Hinv as (Hside & _ & _).
  pose proof (proj1 (Forall_forall _ _) Hside x Hx) as Hxs. simpl in Hxs.
  revert Hroot. unfold Order.__lt__. rewrite Hxs. destruct s; order_lt_cases.
Qed.

(** X3.  In every book reached by calls of [add_order], [get_best_bid]
    returns an order at the highest resting bid price and [get_best_ask] an
    order at the lowest resting ask price; each returns nothing exactly when
    its side is empty. *)
Theorem best_orders_have_best_prices instrument_id on_market_update orders :
  let book := OrderBook.run instrument_id on_market_update orders in
  Order.price <$> OrderBook.get_best_bid book = max_price (OrderBook.buy_heap book) ∧
  Order.price <$> OrderBook.get_best_ask book = min_price (OrderBook.sell_heap book).
Proof.
  intros book.
  destruct (run_book_inv instrument_id on_market_update orders) as (Hbuy & Hsell & _).
  fold book in Hbuy, Hsell.
  unfold OrderBook.get_best_bid, OrderBook.get_best_ask. split.
  - destruct (OrderBook.buy_heap book) as [|best rest] eqn:Hheap; [done|].
    cbn [lookup list_lookup fmap option_fmap option_map].
    destruct (max_price (best :: rest)) as [m|] eqn:Hm;
      [|simpl in Hm; by destruct (max_price rest)].
    destruct (max_price_Some _ _ Hm) as (x & Hx & <-).
    pose proof (side_inv_best_price true _ best x Hbuy eq_refl Hx) as Hle.
    pose proof (max_price_upper _ _ best Hm ltac:(by left)).
    simpl in Hle. f_equal. lia.
  - destruct (OrderBook.sell_heap book) as [|best rest] eqn:Hheap; [done|].
    cbn [lookup list_lookup fmap option_fmap option_map].
    destruct (min_price (best :: rest)) as [m|] eqn:Hm;
      [|simpl in Hm; by destruct (min_price rest)].
    destruct (min_price_Some _ _ Hm) as (x & Hx & <-).
    pose proof (side_inv_best_price false _ best x Hsell eq_refl Hx) as Hle.
    pose proof (min_price_lower _ _ best Hm ltac:(by left)).
    simpl in Hle. f_equal. lia.
Qed.

(** The first element of a list sorted by [cmp] on its keys is the element
    whose key no other key beats. *)
Lemma sorted_head (cmp : Z → Z → Prop) (l : list (Z * Z)) (b : Z * Z) :
  StronglySorted (λ x y, cmp x.1 y.1) l → b ∈ l →
  (∀ x, x ∈ l → ¬ cmp x.1 b.1) → head l = Some b.
Proof.
  intros Hsorted Hb Hbest. destruct l as [|x l]; [by apply elem_of_nil in Hb|].
  simpl. f_equal. apply elem_of_cons in Hb as [->|Hb]; [done|].
  apply StronglySorted_inv in Hsorted as [_ Hx].
  exfalso. apply (Hbest x); [by left|].
  by apply (proj1 (Forall_forall _ _) Hx b).
Qed.

Lemma empty_head {A} (l : list A) : (∀ x, x ∉ l) → head l = None.
Proof. destruct l as [|x l]; [done|]. intros H. destruct (H x). by left. Qed.

(** X4.  The two views of a book agree: the first bid level of [dump_book] is
    the price of the order returned by [get_best_bid], with the quantity
    resting at that price, and likewise for the asks; an empty side gives an
    empty list and no best order. *)
Theorem dump_book_starts_at_best instrument_id on_market_update orders :
  let book := OrderBook.run instrument_id on_market_update orders in
  head (OrderBook.dump_book book).1 =
    level_of (OrderBook.buy_heap book) <$> OrderBook.get_best_bid book ∧
  head (OrderBook.dump_book book).2 =
    level_of (OrderBook.sell_heap book) <$> OrderBook.get_best_ask book.
Proof.
  intros book.
  destruct (run_book_inv instrument_id on_market_update orders) as (Hbuy & Hsell & _).
  fold book in Hbuy, Hsell.
  destruct (dump_book_order book) as [Hbids Hasks].
  unfold OrderBook.get_best_bid, OrderBook.get_best_ask. split.
  - destruct (OrderBook.buy_heap book !! 0%nat) as [best|] eqn:Hbest; simpl.
    + apply (sorted_head (λ a b, a > b)); [done| |].
      * apply dump_book_elem. split; [|done].
        apply list_elem_of_fmap_2. by eapply list_elem_of_lookup_2.
      * intros [p q] [Hp _]%dump_book_elem. simpl.
        apply list_elem_of_fmap in Hp as (x & -> & Hx).
        pose proof (side_inv_best_price true _ best x Hbuy Hbest Hx). simpl in *. lia.
    + apply empty_head. intros [p q] [Hp _]%dump_book_elem.
      destruct (OrderBook.buy_heap book); [by apply elem_of_nil in Hp|done].
  - destruct (OrderBook.sell_heap book !! 0%nat) as [best|] eqn:Hbest; simpl.
    + apply (sorted_head (λ a b, a < b)); [done| |].
      * apply dump_book_elem. split; [|done].
        apply list_elem_of_fmap_2. by eapply list_elem_of_lookup_2.
      * intros [p q] [Hp _]%dump_book_elem. simpl.
        apply list_elem_of_fmap in Hp as (x & -> & Hx).
        pose proof (side_inv_best_price false _ best x Hsell Hbest Hx). simpl in *. lia.
    + apply empty_head. intros [p q] [Hp _]%dump_book_elem.
      destruct (OrderBook.sell_heap book); [by apply elem_of_nil in Hp|done].
Qed.

(** ** What a call of [add_order] trades *)

Lemma step_resting_positive s self taker self' taker' best rest :
  step_spec s self taker self' taker' best rest →
  Forall (λ o, 0 < Order.quantity o) (Matching.resting s self) →
  0 < Z.min (Order.quantity taker) (Order.quantity best) ∧
  0 ≤ Order.quantity taker' ∧
  Forall (λ o, 0 < Order.quantity o) (Matching.resting s self').
Proof.
  intros Hstep. rewrite (step_resting _ _ _ _ _ _ _ Hstep).
  intros [Hbest Hrest]%Forall_cons.
  pose proof (step_taker_pos _ _ _ _ _ _ _ Hstep) as Hq.
  rewrite (step_taker _ _ _ _ _ _ _ Hstep). simpl.
  split; [lia|]. split; [lia|].
  destruct (step_resting_cases _ _ _ _ _ _ _ Hstep)
    as [(_ & Hperm & _)|(Hne & _ & ->)]; [by rewrite Hperm|].
  apply Forall_cons. split; [simpl; lia|done].
Qed.



Lemma steps_fills_positive s self taker fills self' taker' :
  steps s self taker fills self' taker' →
  Forall (λ o, 0 < Order.quantity o) (Matching.resting s self) →
  Forall (λ fill, 0 < fill.2) fills ∧
  foldr (λ fill acc, fill.2 + acc) 0 fills ≤ Z.max 0 (Order.quantity taker).
Proof.
  induction 1 as [self taker|self taker self1 taker1 best rest fills self' taker'
                    Hstep _ IH]; intros Hpos.
  { split; [by apply Forall_nil|simpl; lia]. }
  destruct (step_resting_positive _ _ _ _ _ _ _ Hstep Hpos) as (Ht & Htaker & Hpos').
  destruct (IH Hpos') as [Hfills Hsum].
  pose proof (step_taker_pos _ _ _ _ _ _ _ Hstep) as Hq.
  rewrite (step_taker _ _ _ _ _ _ _ Hstep) in Hsum, Htaker. simpl in Hsum, Htaker.
  split; [by apply Forall_cons|]. simpl. lia.
Qed.

Lemma add_order_trades_positive self order :
  Forall (λ o, 0 < Order.quantity o) (Matching.resting (Order.side order) self) →
  let after := OrderBook.add_order self order in
  Forall (λ t, 0 < Trade.quantity t) (new_trades self after) ∧
  trades_quantity (new_trades self after) ≤ Z.max 0 (Order.quantity order).
Proof.
  intros Hpos after. subst after.
  destruct (add_order_logs self order)
    as (fills & self' & order' & Hsteps & _ & _ & -> & _).
  destruct (steps_fills_positive _ _ _ _ _ _ Hsteps Hpos) as [Hfills Hsum].
  rewrite trades_quantity_fills. split; [|done].
  apply Forall_fmap. eapply Forall_impl; [exact Hfills|].
  intros [best q]. simpl. by destruct (Order.side order).
Qed.

(** The condition of X6 is needed.  The bid that was passed twice rests
    without quantity after it was filled; the next sell order is matched with
    it and logs a trade for 0. *)
Example repeated_object_trades_nothing :
  let after := ObjectBook.run "BTC_USD" true bid_and_asks [0; 0; 1; 2]%nat in
  ObjectBook.trade_log after.2 = [Trade.mk 1 2 100 5; Trade.mk 1 3 100 0].
Proof. vm_compute. done. Qed.

(** X6.  After calls of [add_order] in which no [Order] object is passed
    twice, each trade of one more call, on an object not passed before, has a
    strictly positive quantity, and the trades of the call together never
    exceed the quantity with which the incoming object was created. *)
Theorem trades_positive_and_bounded instrument_id on_market_update objects orders order :
  NoDup (orders ++ [order]) →
  let before := ObjectBook.run instrument_id on_market_update objects orders in
  let after := ObjectBook.add_order before.1 before.2 order in
  let trades := drop (length (ObjectBook.trade_log before.2))
                     (ObjectBook.trade_log after.2) in
  Forall (λ t, 0 < Trade.quantity t) trades ∧
  trades_quantity trades ≤ Z.max 0 (Order.quantity (objects order)).
Proof.
  intros Hnodup before after trades.
  apply NoDup_app in Hnodup as (Hnodup & Hfresh & _).
  assert (order ∉ orders) as Hnew.
  { intros Hin. apply (Hfresh order Hin). by left. }
  destruct (run_fresh instrument_id on_market_update objects orders Hnodup)
    as (Hview & Hnd & Hsub & Hkeep).
  fold before in Hview, Hnd, Hsub, Hkeep.
  destruct (add_order_fresh before.1 before.2 order Hnd) as (Hadd & _).
  { intros Hin. by apply Hnew, Hsub. }
  fold after in Hadd. rewrite Hkeep in Hadd by done.
  pose proof (run_book_inv instrument_id on_market_update (objects <$> orders)) as Hinv.
  rewrite <-Hview in Hinv.
  apply (book_inv_sides (Order.side (objects order))) in Hinv as (_ & (_ & _ & Hpos) & _).
  destruct (add_order_trades_positive _ _ Hpos) as [Hall Hsum].
  rewrite <-Hadd in Hall, Hsum. done.
Qed.

(** X6 at the bid of the example followed by the ask that fills it. *)
Lemma trades_positive_and_bounded_witness :
  let before := ObjectBook.run "BTC_USD" true bid_and_asks [0%nat] in
  let after := ObjectBook.add_order before.1 before.2 1%nat in
  let trades := drop (length (ObjectBook.trade_log before.2))
                     (ObjectBook.trade_log after.2) in
  Forall (λ t, 0 < Trade.quantity t) trades ∧
  trades_quantity trades ≤ Z.max 0 (Order.quantity (bid_and_asks 1%nat)).
Proof.
  apply (trades_positive_and_bounded "BTC_USD" true bid_and_asks [0%nat] 1%nat).
  compute_done.
Defined.

Lemma steps_within_limit s self taker fills self' taker' :
  steps s self taker fills self' taker' →
  Order.order_type taker = "limit" →
  Forall (λ fill, Matching.beyond_limit s fill.1 taker = false) fills.
Proof.
  induction 1 as [self taker|self taker self1 taker1 best rest fills self' taker'
                    Hstep _ IH]; intros Htype; [by apply Forall_nil|].
  apply Forall_cons. split; [by apply (step_within_limit _ _ _ _ _ _ _ Hstep)|].
  rewrite (step_taker _ _ _ _ _ _ _ Hstep) in IH.
  eapply Forall_impl; [by apply IH|]. intros fill Hfill. exact Hfill.
Qed.

(** X7.  Every trade of a limit order is within its limit and names it: a
    buy limit order never pays more than its price, a sell limit order never
    receives less, and the trade carries the order's identifier on its own
    side. *)
Theorem limit_price_respected self order :
  Order.order_type order = "limit" →
  Forall (λ t, if Order.side order
               then Trade.buy_order_id t = Order.order_id order ∧
                    Trade.price t ≤ Order.price order
               else Trade.sell_order_id t = Order.order_id order ∧
                    Order.price order ≤ Trade.price t)
         (new_trades self (OrderBook.add_order self order)).
Proof.
  intros Htype.
  destruct (add_order_logs self order)
    as (fills & self' & order' & Hsteps & _ & _ & -> & _).
  pose proof (steps_within_limit _ _ _ _ _ _ Hsteps Htype) as Hlim.
  apply Forall_fmap. eapply Forall_impl; [exact Hlim|].
  intros [best q]. unfold Matching.beyond_limit, fill_trade, Matching.trade_of.
  destruct (Order.side order); simpl; intros Hb; (split; [done|]); lia.
Qed.

Lemma limit_price_respected_witness :
  Forall (λ t, Trade.buy_order_id t = 3 ∧ Trade.price t ≤ 101)
    (new_trades two_asks_book
       (OrderBook.add_order two_asks_book (Order.mk 3 101 8 true "limit" 3))).
Proof.
  apply (limit_price_respected two_asks_book (Order.mk 3 101 8 true "limit" 3)).
  reflexivity.
Defined.

(** A limit order that every resting order of the opposite side is out of
    reach of does not enter the loop. *)
Lemma body_passive s self order :
  Order.order_type order = "limit" →
  Forall (below s order) (Matching.resting s self) →
  Matching.body s self order = None.
Proof.
  intros Htype Hbelow. unfold Matching.body. case_bool_decide; [|done].
  destruct (Matching.resting s self) as [|best rest]; [done|].
  cbn [lookup list_lookup]. apply Forall_cons in Hbelow as [Hbest _].
  rewrite Htype. cbn [String.eqb Ascii.eqb Bool.eqb andb].
  assert (Matching.beyond_limit s best order = true) as ->; [|done].
  unfold Matching.beyond_limit, below in *. destruct s; lia.
Qed.

(** X8.  A limit order with a positive quantity that does not cross (every
    resting order of the opposite side is strictly beyond its price) trades
    nothing and notifies nothing; it leaves the opposite side untouched and
    joins its own side, whose level at the order's price grows by exactly the
    order's quantity. *)
Theorem passive_limit_order_rests self order :
  let s := Order.side order in
  let after := OrderBook.add_order self order in
  Order.order_type order = "limit" →
  Order.quantity order > 0 →
  Forall (below s order) (Matching.resting s self) →
  new_trades self after = [] ∧
  new_updates self after = [] ∧
  Matching.resting s after = Matching.resting s self ∧
  Matching.own s after ≡ₚ order :: Matching.own s self ∧
  level_quantity (Order.price order) (Matching.own s after) =
    level_quantity (Order.price order) (Matching.own s self) + Order.quantity order.
Proof.
  intros s after Htype Hq Hbelow. subst after.
  rewrite add_order_eq. cbn zeta. fold s. unfold Matching.run.
  cbn [Matching.loop]. rewrite (body_passive s self order Htype Hbelow).
  rewrite bool_decide_eq_true_2, Htype by done.
  cbn [String.eqb Ascii.eqb Bool.eqb andb].
  unfold new_trades, new_updates.
  rewrite (proj1 (set_own_logs _ _ _)), (proj2 (set_own_logs _ _ _)), !drop_all.
  rewrite resting_set_own, own_set_own.
  pose proof (heappush_Permutation Order.__lt__ (Matching.own s self) order) as Hperm.
  split_and!; try done.
  rewrite (level_quantity_Permutation _ _ _ Hperm), level_quantity_cons.
  rewrite decide_True by done. lia.
Qed.

(** X8 at the book with asks [{101: 3, 102: 2}] and a bid of 4 at 100. *)
Lemma passive_limit_order_rests_witness :
  let self := OrderBook.run "BTC_USD" true thin_asks_orders in
  let order := Order.mk 3 100 4 true "limit" 3 in
  let after := OrderBook.add_order self order in
  new_trades self after = [] ∧
  new_updates self after = [] ∧
  Matching.resting true after = Matching.resting true self ∧
  Matching.own true after ≡ₚ order :: Matching.own true self ∧
  level_quantity 100 (Matching.own true after) =
    level_quantity 100 (Matching.own true self) + 4.
Proof.
  apply (passive_limit_order_rests (OrderBook.run "BTC_USD" true thin_asks_orders)
           (Order.mk 3 100 4 true "limit" 3)).
  - reflexivity.
  - reflexivity.
  - vm_compute. repeat constructor.
Defined.

(** Within one call the fills go from the best resting price to worse
    ones. *)
Lemma steps_prices_sorted s self taker fills self' taker' :
  steps s self taker fills self' taker' →
  side_inv (negb s) (Matching.resting s self) →
  StronglySorted
    (λ f1 f2, if s then Order.price f1.1 ≤ Order.price f2.1
              else Order.price f2.1 ≤ Order.price f1.1) fills.
Proof.
  induction 1 as [self taker|self taker self1 taker1 best rest fills self' taker'
                    Hstep Hsteps IH]; intros Hinv; [constructor|].
  constructor; [by eapply IH, step_side_inv|].
  destruct (steps_makers _ _ _ _ _ _ Hsteps) as [Hmakers _].
  eapply Forall_impl; [exact Hmakers|].
  intros fill (maker & Hmaker & Hsame).
  destruct (step_resting_elem _ _ _ _ _ _ _ maker Hstep Hmaker) as (y0 & Hy0 & Hsame0).
  apply same_order_fields in Hsame as (_ & -> & _).
  apply same_order_fields in Hsame0 as (_ & -> & _).
  assert (Matching.resting s self !! 0%nat = Some best) as Hbest
    by by rewrite (step_resting _ _ _ _ _ _ _ Hstep).
  pose proof (side_inv_best_price _ _ _ _ Hinv Hbest Hy0) as Hle.
  simpl. by destruct s.
Qed.

(** X9.  In every book reached by calls of [add_order], the trades of one
    call are made from the best resting price to worse ones: the prices paid
    by a buy order never decrease along the call, those received by a sell
    order never increase. *)
Theorem sweep_from_best_price instrument_id on_market_update orders order :
  let self := OrderBook.run instrument_id on_market_update orders in
  StronglySorted
    (λ t1 t2, if Order.side order then Trade.price t1 ≤ Trade.price t2
              else Trade.price t2 ≤ Trade.price t1)
    (new_trades self (OrderBook.add_order self order)).
Proof.
  intros self.
  destruct (add_order_logs self order)
    as (fills & self' & order' & Hsteps & _ & _ & -> & _).
  pose proof (run_book_inv instrument_id on_market_update orders) as Hinv.
  fold self in Hinv.
  apply (book_inv_sides (Order.side order)) in Hinv as (_ & Hrest & _).
  pose proof (steps_prices_sorted _ _ _ _ _ _ Hsteps Hrest) as Hsorted.
  eapply StronglySorted_fmap; [|exact Hsorted].
  intros [b1 q1] [b2 q2]. unfold fill_trade, Matching.trade_of.
  by destruct (Order.side order).
Qed.

Lemma add_order_all_limit self order :
  all_limit (OrderBook.buy_heap self) → all_limit (OrderBook.sell_heap self) →
  all_limit (OrderBook.buy_heap (OrderBook.add_order self order)) ∧
  all_limit (OrderBook.sell_heap (OrderBook.add_order self order)).
Proof.
  intros Hbuy Hsell.
  set (s := Order.side order).
  assert (all_limit (Matching.own s self) ∧ all_limit (Matching.resting s self))
    as [Hown Hrest] by (by destruct s).
  destruct (add_order_logs self order)
    as (fills & self' & order' & Hsteps & _ & Heq & _).
  fold s in Hsteps, Heq.
  destruct (steps_logs _ _ _ _ _ _ Hsteps) as (_ & _ & _ & Hown' & _).
  destruct (steps_makers _ _ _ _ _ _ Hsteps) as [_ Hback].
  assert (all_limit (Matching.resting s self')) as Hrest'.
  { apply Forall_forall. intros y Hy. destruct (Hback y Hy) as (y0 & Hy0 & Hsame).
    apply same_order_fields in Hsame as (_ & _ & _ & _ & ->).
    by apply (proj1 (Forall_forall _ _) Hrest). }
  assert (all_limit (Matching.own s (OrderBook.add_order self order)) ∧
          all_limit (Matching.resting s (OrderBook.add_order self order)))
    as [H1 H2]; [|by destruct s].
  rewrite Heq.
  destruct (bool_decide _) eqn:Hq; simpl; [|by rewrite Hown'].
  destruct (_ =? _)%string eqn:Htype; simpl; [|by rewrite Hown'].
  rewrite own_set_own, resting_set_own. split; [|done].
  unfold all_limit. rewrite heappush_Permutation, Hown'.
  apply Forall_cons. split; [by apply String.eqb_eq|done].
Qed.

Lemma foldl_all_limit self orders :
  all_limit (OrderBook.buy_heap self) → all_limit (OrderBook.sell_heap self) →
  all_limit (OrderBook.buy_heap (foldl OrderBook.add_order self orders)) ∧
  all_limit (OrderBook.sell_heap (foldl OrderBook.add_order self orders)).
Proof.
  revert self. induction orders as [|order orders IH]; intros self H1 H2; [done|].
  simpl. destruct (add_order_all_limit self order H1 H2). by apply IH.
Qed.

(** X10.  Only limit orders rest: in every book reached by calls of
    [add_order], every order on [buy_heap] is a buy limit order and every
    order on [sell_heap] is a sell limit order, whatever types were
    submitted. *)
Theorem only_limit_orders_rest instrument_id on_market_update orders :
  let book := OrderBook.run instrument_id on_market_update orders in
  Forall (λ o, Order.side o = true ∧ Order.order_type o = "limit")
         (OrderBook.buy_heap book) ∧
  Forall (λ o, Order.side o = false ∧ Order.order_type o = "limit")
         (OrderBook.sell_heap book).
Proof.
  intros book.
  destruct (run_book_inv instrument_id on_market_update orders)
    as ((Hbs & _) & (Hss & _) & _).
  fold book in Hbs, Hss.
  destruct (foldl_all_limit (OrderBook.__init__ instrument_id on_market_update) orders)
    as [Hbl Hsl]; [apply Forall_nil_2..|].
  split; apply Forall_and; done.
Qed.

Lemma add_order_settings self order :
  OrderBook.instrument_id (OrderBook.add_order self order) = OrderBook.instrument_id self ∧
  OrderBook.on_market_update (OrderBook.add_order self order)
    = OrderBook.on_market_update self.
Proof.
  destruct (add_order_logs self order)
    as (fills & self' & order' & Hsteps & _ & -> & _).
  destruct (steps_logs _ _ _ _ _ _ Hsteps) as (_ & _ & _ & _ & Hinst & Hcb).
  destruct (_ && _); [|done]. by destruct (Order.side order).
Qed.

(** X11.  The trade log and the sequence of notifications only grow: after
    any further calls of [add_order], what was logged or notified before is
    still there, unchanged and first; the instrument and the callback setting
    stay the same. *)
Theorem logs_only_grow self orders :
  let after := foldl OrderBook.add_order self orders in
  OrderBook.trade_log self `prefix_of` OrderBook.trade_log after ∧
  OrderBook.notified self `prefix_of` OrderBook.notified after ∧
  OrderBook.instrument_id after = OrderBook.instrument_id self ∧
  OrderBook.on_market_update after = OrderBook.on_market_update self.
Proof.
  revert self. induction orders as [|order orders IH]; intros self; simpl; [done|].
  destruct (IH (OrderBook.add_order self order)) as (Ht & Hn & Hi & Hc).
  destruct (add_order_appends self order) as [Htrades Hnotes].
  destruct (add_order_settings self order) as [Hinst Hcb].
  split_and!.
  - etrans; [|exact Ht]. rewrite Htrades. by apply prefix_app_r.
  - etrans; [|exact Hn]. rewrite Hnotes. by apply prefix_app_r.
  - by rewrite Hi.
  - by rewrite Hc.
Qed.

(** * Further properties of the client-side replica *)

(** ** From the server's snapshot to the replica *)

(** [apply_snapshot] by fields. *)
Lemma apply_snapshot_fields self snapshot :
  let insert_level (d : gmap Z Z) level :=
    <[OrderBookLevel.price level := OrderBookLevel.quantity level]> d in
  ClientOrderBook.bids (ClientOrderBook.apply_snapshot self snapshot) =
    foldl insert_level ∅ (OrderBookSnapshot.bids snapshot) ∧
  ClientOrderBook.asks (ClientOrderBook.apply_snapshot self snapshot) =
    foldl insert_level ∅ (OrderBookSnapshot.asks snapshot) ∧
  ClientOrderBook.last_update_timestamp (ClientOrderBook.apply_snapshot self snapshot) =
    OrderBookSnapshot.timestamp snapshot ∧
  ClientOrderBook.instrument_id (ClientOrderBook.apply_snapshot self snapshot) =
    ClientOrderBook.instrument_id self.
Proof.
  intros insert_level. unfold ClientOrderBook.apply_snapshot.
  assert (∀ (e : Z → Z * Z) levels d h,
            (foldl (λ '(d, h) level,
                      (<[OrderBookLevel.price level := OrderBookLevel.quantity level]> d,
                       heapq.heappush ClientOrderBook.tuple_lt h
                         (e (OrderBookLevel.price level))))
                   (d, h) levels).1 = foldl insert_level d levels) as Hfst.
  { intros e levels. induction levels as [|level levels IH]; intros d h; [done|].
    simpl. by rewrite IH. }
  pose proof (Hfst (λ p, (- p, p)) (OrderBookSnapshot.bids snapshot) ∅ []) as Hb.
  pose proof (Hfst (λ p, (p, p)) (OrderBookSnapshot.asks snapshot) ∅ []) as Ha.
  cbv beta in Hb, Ha.
  destruct (foldl _ _ (OrderBookSnapshot.bids snapshot)) as [bids bid_heap].
  destruct (foldl _ _ (OrderBookSnapshot.asks snapshot)) as [asks ask_heap].
  simpl in *. by subst.
Qed.

(** Inserting the levels of a list of distinct prices one after the other
    builds the dictionary of the list. *)
Lemma foldl_insert_levels (l : list (Z * Z)) :
  NoDup (l.*1) →
  foldl (λ (d : gmap Z Z) level,
           <[OrderBookLevel.price level := OrderBookLevel.quantity level]> d) ∅
        ((λ level, OrderBookLevel.mk level.1 level.2) <$> l) = list_to_map l.
Proof.
  induction l as [|[p q] l IH] using rev_ind; intros Hnodup; [done|].
  rewrite fmap_app in Hnodup. apply NoDup_app in Hnodup as (Hl & Hnotin & _).
  rewrite fmap_snoc, foldl_snoc, IH by done. simpl.
  rewrite list_to_map_snoc; [done|].
  intros Hin. apply (Hnotin p Hin). simpl. by left.
Qed.

Lemma sorted_items_to_map (levels : gmap Z Z) :
  list_to_map (OrderBook.sorted_items levels) = levels ∧
  NoDup ((OrderBook.sorted_items levels).*1).
Proof.
  unfold OrderBook.sorted_items.
  assert (NoDup ((merge_sort OrderBook.tuple_le (map_to_list levels)).*1)) as Hnodup.
  { rewrite merge_sort_Permutation. apply NoDup_fst_map_to_list. }
  split; [|done].
  rewrite (list_to_map_proper _ (map_to_list levels)); [|done|].
  - apply list_to_map_to_list.
  - apply merge_sort_Permutation.
Qed.

Lemma snapshot_pb_round_trip self book now :
  let replica := ClientOrderBook.apply_snapshot self
                   (MarketDataServicer.snapshot_pb book now) in
  ClientOrderBook.bids replica = OrderBook.levels_of (OrderBook.buy_heap book) ∧
  ClientOrderBook.asks replica = OrderBook.levels_of (OrderBook.sell_heap book).
Proof.
  intros replica. subst replica.
  destruct (apply_snapshot_fields self (MarketDataServicer.snapshot_pb book now))
    as (-> & -> & _).
  unfold MarketDataServicer.snapshot_pb, OrderBook.dump_book. simpl.
  destruct (sorted_items_to_map (OrderBook.levels_of (OrderBook.buy_heap book)))
    as [Hb Hnb].
  destruct (sorted_items_to_map (OrderBook.levels_of (OrderBook.sell_heap book)))
    as [Ha Hna].
  rewrite !foldl_insert_levels; [| done | by rewrite fmap_reverse, reverse_Permutation].
  split; [|done].
  rewrite <-Hb at 2. apply list_to_map_proper; [|apply reverse_Permutation].
  by rewrite fmap_reverse, reverse_Permutation.
Qed.

(** X12.  Snapshot round trip.  A replica that applies the snapshot the
    server builds from [dump_book] holds, whatever it held before, exactly the
    price levels of the server's book: a bid level at [p] with quantity [q]
    if and only if buy orders rest at [p] and their quantities sum to [q],
    likewise for the asks; its timestamp is the snapshot's. *)
Theorem snapshot_round_trip self book now p q :
  let replica := ClientOrderBook.apply_snapshot self
                   (MarketDataServicer.snapshot_pb book now) in
  (ClientOrderBook.bids replica !! p = Some q ↔
   p ∈ prices_of (OrderBook.buy_heap book) ∧
   q = level_quantity p (OrderBook.buy_heap book)) ∧
  (ClientOrderBook.asks replica !! p = Some q ↔
   p ∈ prices_of (OrderBook.sell_heap book) ∧
   q = level_quantity p (OrderBook.sell_heap book)) ∧
  ClientOrderBook.last_update_timestamp replica = now.
Proof.
  intros replica. subst replica.
  destruct (snapshot_pb_round_trip self book now) as [-> ->].
  rewrite !levels_of_lookup. split; [done|]. split; [done|].
  by destruct (apply_snapshot_fields self (MarketDataServicer.snapshot_pb book now))
    as (_ & _ & -> & _).
Qed.

(** ** The heaps of prices and the best levels *)

(** [<] on tuples is a strict total order. *)
Lemma tuple_lt_asym a b :
  ClientOrderBook.tuple_lt a b = true → ClientOrderBook.tuple_lt b a = false.
Proof.
  unfold ClientOrderBook.tuple_lt.
  destruct (Z.ltb_spec a.1 b.1), (Z.eqb_spec a.1 b.1), (Z.ltb_spec a.2 b.2),
    (Z.ltb_spec b.1 a.1), (Z.eqb_spec b.1 a.1), (Z.ltb_spec b.2 a.2);
    simpl; try done; lia.
Qed.

Lemma tuple_lt_negtrans a b c :
  ClientOrderBook.tuple_lt b a = false → ClientOrderBook.tuple_lt c b = false →
  ClientOrderBook.tuple_lt c a = false.
Proof.
  unfold ClientOrderBook.tuple_lt.
  destruct (Z.ltb_spec b.1 a.1), (Z.eqb_spec b.1 a.1), (Z.ltb_spec b.2 a.2),
    (Z.ltb_spec c.1 b.1), (Z.eqb_spec c.1 b.1), (Z.ltb_spec c.2 b.2),
    (Z.ltb_spec c.1 a.1), (Z.eqb_spec c.1 a.1), (Z.ltb_spec c.2 a.2);
    simpl; try done; lia.
Qed.

Lemma tuple_heappush_ordered heap item :
  heapq.heap_ordered ClientOrderBook.tuple_lt heap →
  heapq.heap_ordered ClientOrderBook.tuple_lt
    (heapq.heappush ClientOrderBook.tuple_lt heap item).
Proof.
  intros Hord.
  apply (heappush_ordered ClientOrderBook.tuple_lt (λ _, True)
           (λ a b _ _, tuple_lt_asym a b) (λ a b c _ _ _, tuple_lt_negtrans a b c));
    [by apply Forall_forall|done|done].
Qed.

Lemma tuple_heappop_ordered heap item heap' :
  heapq.heap_ordered ClientOrderBook.tuple_lt heap →
  heapq.heappop ClientOrderBook.tuple_lt heap = Some (item, heap') →
  heapq.heap_ordered ClientOrderBook.tuple_lt heap'.
Proof.
  intros Hord Hpop.
  apply (heappop_ordered ClientOrderBook.tuple_lt (λ _, True)
           (λ a b _ _, tuple_lt_asym a b) (λ a b c _ _ _, tuple_lt_negtrans a b c)
           heap item heap'); [by apply Forall_forall|done|done].
Qed.

Lemma tuple_heap_root heap root entry :
  heapq.heap_ordered ClientOrderBook.tuple_lt heap →
  heap !! 0%nat = Some root → entry ∈ heap → root.1 ≤ entry.1.
Proof.
  intros Hord Hroot Hentry.
  pose proof (heap_ordered_root ClientOrderBook.tuple_lt (λ _, True)
                (λ a b _ _, tuple_lt_asym a b) (λ a b c _ _ _, tuple_lt_negtrans a b c)
                heap root entry Hord ltac:(by apply Forall_forall) Hroot Hentry) as Hlt.
  revert Hlt. unfold ClientOrderBook.tuple_lt.
  destruct (Z.ltb_spec entry.1 root.1); [done|lia].
Qed.

Lemma level_heap_inv_empty key : level_heap_inv key ∅ [].
Proof.
  split; [|split]; [|by apply Forall_nil|].
  - intros j x y _ Hx. by rewrite lookup_nil in Hx.
  - intros p q Hp. by rewrite lookup_empty in Hp.
Qed.

(** Setting a level and pushing its price keeps the agreement. *)
Lemma level_heap_inv_insert_push key levels heap p q :
  q > 0 → level_heap_inv key levels heap →
  level_heap_inv key (<[p := q]> levels)
    (heapq.heappush ClientOrderBook.tuple_lt heap (key p, p)).
Proof.
  intros Hq (Hord & Hkeys & Hcover).
  pose proof (heappush_Permutation ClientOrderBook.tuple_lt heap (key p, p)) as Hperm.
  split; [|split].
  - by apply tuple_heappush_ordered.
  - rewrite Hperm. by apply Forall_cons.
  - intros p' q' Hp'. rewrite Hperm.
    apply lookup_insert_Some in Hp' as [[<- <-]|[Hne Hp']].
    + split; [done|by left].
    + destruct (Hcover p' q' Hp'). split; [done|by right].
Qed.

Lemma level_heap_inv_insert key levels heap p q :
  q > 0 → is_Some (levels !! p) → level_heap_inv key levels heap →
  level_heap_inv key (<[p := q]> levels) heap.
Proof.
  intros Hq [q0 Hp] (Hord & Hkeys & Hcover).
  split; [done|]. split; [done|].
  intros p' q' Hp'. apply lookup_insert_Some in Hp' as [[<- <-]|[Hne Hp']].
  - split; [done|]. by destruct (Hcover p q0 Hp).
  - by apply Hcover.
Qed.

Lemma level_heap_inv_delete key levels heap p :
  level_heap_inv key levels heap → level_heap_inv key (delete p levels) heap.
Proof.
  intros (Hord & Hkeys & Hcover). split; [done|]. split; [done|].
  intros p' q' Hp'. apply lookup_delete_Some in Hp' as [_ Hp']. by apply Hcover.
Qed.

(** [apply_update] on the side it selects. *)
Lemma update_target_inv key update levels heap :
  (if OrderBookUpdate.side update
   then (- OrderBookUpdate.price update, OrderBookUpdate.price update)
   else (OrderBookUpdate.price update, OrderBookUpdate.price update))
  = (key (OrderBookUpdate.price update), OrderBookUpdate.price update) →
  level_heap_inv key levels heap →
  level_heap_inv key (ClientOrderBook.update_target update levels heap).1
                     (ClientOrderBook.update_target update levels heap).2.
Proof.
  intros Hentry Hinv. unfold ClientOrderBook.update_target.
  case_bool_decide as Hq; simpl.
  - destruct (levels !! OrderBookUpdate.price update) as [q0|] eqn:Hp.
    + apply level_heap_inv_insert; [done|by rewrite Hp|done].
    + rewrite Hentry. by apply level_heap_inv_insert_push.
  - destruct (levels !! OrderBookUpdate.price update); [|done].
    by apply level_heap_inv_delete.
Qed.

Lemma apply_update_inv self update :
  client_inv self → client_inv (ClientOrderBook.apply_update self update).
Proof.
  intros [Hbids Hasks]. unfold ClientOrderBook.apply_update, client_inv.
  destruct (OrderBookUpdate.side update) eqn:Hside.
  - pose proof (update_target_inv Z.opp update _ _ ltac:(by rewrite Hside) Hbids).
    by destruct (ClientOrderBook.update_target update _ _).
  - pose proof (update_target_inv id update _ _ ltac:(by rewrite Hside) Hasks).
    by destruct (ClientOrderBook.update_target update _ _).
Qed.

(** The loops of [apply_snapshot]. *)
Lemma snapshot_fold_inv key (entry : Z → Z * Z) levels d h :
  (∀ p, entry p = (key p, p)) →
  Forall (λ level, OrderBookLevel.quantity level > 0) levels →
  level_heap_inv key d h →
  let result :=
    foldl (λ '(d, h) level,
             (<[OrderBookLevel.price level := OrderBookLevel.quantity level]> d,
              heapq.heappush ClientOrderBook.tuple_lt h
                (entry (OrderBookLevel.price level))))
          (d, h) levels in
  level_heap_inv key result.1 result.2.
Proof.
  intros Hentry Hpos. revert d h.
  induction Hpos as [|level levels Hq _ IH]; intros d h Hinv; [done|].
  simpl. apply IH. rewrite Hentry. by apply level_heap_inv_insert_push.
Qed.

Lemma apply_snapshot_inv self snapshot :
  positive_snapshot snapshot →
  client_inv (ClientOrderBook.apply_snapshot self snapshot).
Proof.
  intros [Hbids Hasks]. unfold ClientOrderBook.apply_snapshot, client_inv.
  pose proof (snapshot_fold_inv Z.opp (λ p, (- p, p)) _ ∅ [] ltac:(done) Hbids
                (level_heap_inv_empty _)) as Hb.
  pose proof (snapshot_fold_inv id (λ p, (p, p)) _ ∅ [] ltac:(done) Hasks
                (level_heap_inv_empty _)) as Ha.
  cbv beta zeta in Hb, Ha.
  destruct (foldl _ _ (OrderBookSnapshot.bids snapshot)) as [bids bid_heap].
  destruct (foldl _ _ (OrderBookSnapshot.asks snapshot)) as [asks ask_heap].
  done.
Qed.

(** The loop of [get_best_bid] and [get_best_ask]: it keeps the agreement
    and finds the level whose key is least, or finds that there is no
    level. *)
Lemma best_level_loop_spec key fuel levels heap :
  level_heap_inv key levels heap → (length heap ≤ fuel)%nat →
  let result := ClientOrderBook.best_level_loop fuel levels heap in
  level_heap_inv key levels result.2 ∧
  match result.1 with
  | Some (p, q) =>
      levels !! p = Some q ∧ q > 0 ∧
      ∀ p' q', levels !! p' = Some q' → key p ≤ key p'
  | None => levels = ∅
  end.
Proof.
  revert heap. induction fuel as [|fuel IH]; intros heap Hinv Hfuel.
  { destruct heap; [|simpl in Hfuel; lia]. simpl. split; [done|].
    destruct Hinv as (_ & _ & Hcover). apply map_empty. intros p.
    destruct (levels !! p) as [q|] eqn:Hp; [|done].
    destruct (Hcover p q Hp) as [_ Hin]. by apply elem_of_nil in Hin. }
  cbn [ClientOrderBook.best_level_loop].
  destruct heap as [|[k price] rest].
  { simpl. split; [done|].
    destruct Hinv as (_ & _ & Hcover). apply map_empty. intros p.
    destruct (levels !! p) as [q|] eqn:Hp; [|done].
    destruct (Hcover p q Hp) as [_ Hin]. by apply elem_of_nil in Hin. }
  cbn [lookup list_lookup].
  destruct Hinv as (Hord & Hkeys & Hcover).
  pose proof (Forall_inv Hkeys) as Hk. simpl in Hk.
  destruct (heappop_cons ClientOrderBook.tuple_lt (k, price) rest)
    as (heap' & Hpop & Hperm & Hlen).
  assert (levels !! price = None → level_heap_inv key levels heap') as Hpopped.
  { intros Hnone. split; [by eapply tuple_heappop_ordered|]. split.
    - rewrite Hperm. by apply Forall_inv_tail in Hkeys.
    - intros p q Hp. destruct (Hcover p q Hp) as [Hq Hin]. split; [done|].
      rewrite Hperm. apply elem_of_cons in Hin as [Heq|Hin]; [|done].
      injection Heq as _ ->. congruence. }
  destruct (levels !! price) as [q|] eqn:Hprice.
  - destruct (Hcover price q Hprice) as [Hq _].
    rewrite bool_decide_eq_true_2 by done. simpl.
    split; [done|]. split; [done|]. split; [done|].
    intros p' q' Hp'. destruct (Hcover p' q' Hp') as [_ Hin].
    pose proof (tuple_heap_root _ (k, price) (key p', p') Hord eq_refl Hin).
    simpl in *. lia.
  - rewrite Hpop. apply IH; [by apply Hpopped|]. simpl in Hfuel. lia.
Qed.

Lemma get_best_bid_spec self :
  client_inv self →
  client_inv (ClientOrderBook.get_best_bid self).2 ∧
  ClientOrderBook.bids (ClientOrderBook.get_best_bid self).2 = ClientOrderBook.bids self ∧
  ClientOrderBook.asks (ClientOrderBook.get_best_bid self).2 = ClientOrderBook.asks self ∧
  match (ClientOrderBook.get_best_bid self).1 with
  | Some (p, q) =>
      ClientOrderBook.bids self !! p = Some q ∧ q > 0 ∧
      ∀ p' q', ClientOrderBook.bids self !! p' = Some q' → p' ≤ p
  | None => ClientOrderBook.bids self = ∅
  end.
Proof.
  intros [Hbids Hasks]. unfold ClientOrderBook.get_best_bid.
  pose proof (best_level_loop_spec Z.opp _ _ _ Hbids (le_n _)) as [Hinv Hbest].
  cbv zeta in Hinv, Hbest.
  destruct (ClientOrderBook.best_level_loop _ _ _) as [best heap].
  split; [done|]. split; [done|]. split; [done|]. simpl in *.
  destruct best as [[p q]|]; [|done].
  destruct Hbest as (Hp & Hq & Hmax). split; [done|]. split; [done|].
  intros p' q' Hp'. specialize (Hmax p' q' Hp'). lia.
Qed.

Lemma get_best_ask_spec self :
  client_inv self →
  client_inv (ClientOrderBook.get_best_ask self).2 ∧
  ClientOrderBook.bids (ClientOrderBook.get_best_ask self).2 = ClientOrderBook.bids self ∧
  ClientOrderBook.asks (ClientOrderBook.get_best_ask self).2 = ClientOrderBook.asks self ∧
  match (ClientOrderBook.get_best_ask self).1 with
  | Some (p, q) =>
      ClientOrderBook.asks self !! p = Some q ∧ q > 0 ∧
      ∀ p' q', ClientOrderBook.asks self !! p' = Some q' → p ≤ p'
  | None => ClientOrderBook.asks self = ∅
  end.
Proof.
  intros [Hbids Hasks]. unfold ClientOrderBook.get_best_ask.
  pose proof (best_level_loop_spec id _ _ _ Hasks (le_n _)) as [Hinv Hbest].
  cbv zeta in Hinv, Hbest.
  destruct (ClientOrderBook.best_level_loop _ _ _) as [best heap].
  split; [done|]. split; [done|]. split; [done|]. simpl in *.
  by destruct best as [[p q]|].
Qed.

Lemma to_dict_inv self :
  client_inv self → client_inv (ClientOrderBook.to_dict self).2.
Proof.
  intros Hinv. unfold ClientOrderBook.to_dict.
  destruct (ClientOrderBook.get_top_n_levels_list self 10) as [bids_list asks_list].
  destruct (get_best_bid_spec self Hinv) as (Hinv1 & _).
  destruct (ClientOrderBook.get_best_bid self) as [best_bid self1].
  destruct (get_best_ask_spec self1 Hinv1) as (Hinv2 & _).
  by destruct (ClientOrderBook.get_best_ask self1) as [best_ask self2].
Qed.

Lemma client_inv_init instrument_id :
  client_inv (ClientOrderBook.__init__ instrument_id).
Proof. split; apply level_heap_inv_empty. Qed.

(** Every replica reached by the calls of the clients keeps its dictionaries
    and heaps in agreement. *)
Lemma calls_inv self calls :
  client_inv self → Forall positive_call calls →
  client_inv (foldl do_call self calls).
Proof.
  intros Hinv Hpos. revert self Hinv.
  induction Hpos as [|call calls Hcall _ IH]; intros self Hinv; [done|].
  simpl. apply IH. destruct call; simpl.
  - by apply apply_snapshot_inv.
  - by apply apply_update_inv.
  - by apply get_best_bid_spec.
  - by apply get_best_ask_spec.
  - by apply to_dict_inv.
Qed.

(** X13.  On a replica driven by any sequence of snapshots without empty
    levels, updates and reads, [get_best_bid] returns the highest-priced bid
    level of the dictionary with its quantity and [get_best_ask] the
    lowest-priced ask level, however many stale prices the heaps hold; each
    returns [(None, None)] exactly when its dictionary is empty. *)
Theorem replica_best_levels instrument_id calls :
  Forall positive_call calls →
  let replica := foldl do_call (ClientOrderBook.__init__ instrument_id) calls in
  match (ClientOrderBook.get_best_bid replica).1 with
  | Some (p, q) =>
      ClientOrderBook.bids replica !! p = Some q ∧ q > 0 ∧
      ∀ p' q', ClientOrderBook.bids replica !! p' = Some q' → p' ≤ p
  | None => ClientOrderBook.bids replica = ∅
  end ∧
  match (ClientOrderBook.get_best_ask replica).1 with
  | Some (p, q) =>
      ClientOrderBook.asks replica !! p = Some q ∧ q > 0 ∧
      ∀ p' q', ClientOrderBook.asks replica !! p' = Some q' → p ≤ p'
  | None => ClientOrderBook.asks replica = ∅
  end.
Proof.
  intros Hpos replica.
  pose proof (calls_inv _ calls (client_inv_init instrument_id) Hpos) as Hinv.
  fold replica in Hinv.
  split; [by apply get_best_bid_spec|by apply get_best_ask_spec].
Qed.

(** X13 at a replica that holds bids at 100 and 99 and is told that the level
    at 100 is gone: the heap still holds 100, the best bid is at 99. *)
Lemma replica_best_levels_witness :
  let replica :=
    foldl do_call (ClientOrderBook.__init__ "BTC_USD")
      [call_snapshot (OrderBookSnapshot.mk
                        [OrderBookLevel.mk 100 5; OrderBookLevel.mk 99 2]
                        [OrderBookLevel.mk 101 4] 10);
       call_update (OrderBookUpdate.mk 100 0 true 11)] in
  match (ClientOrderBook.get_best_bid replica).1 with
  | Some (p, q) =>
      ClientOrderBook.bids replica !! p = Some q ∧ q > 0 ∧
      ∀ p' q', ClientOrderBook.bids replica !! p' = Some q' → p' ≤ p
  | None => ClientOrderBook.bids replica = ∅
  end ∧
  match (ClientOrderBook.get_best_ask replica).1 with
  | Some (p, q) =>
      ClientOrderBook.asks replica !! p = Some q ∧ q > 0 ∧
      ∀ p' q', ClientOrderBook.asks replica !! p' = Some q' → p ≤ p'
  | None => ClientOrderBook.asks replica = ∅
  end.
Proof.
  apply (replica_best_levels "BTC_USD"
           [call_snapshot (OrderBookSnapshot.mk
                             [OrderBookLevel.mk 100 5; OrderBookLevel.mk 99 2]
                             [OrderBookLevel.mk 101 4] 10);
            call_update (OrderBookUpdate.mk 100 0 true 11)]).
  repeat constructor.
Defined.

(** ** The levels shown: [get_top_n_levels_list] and [to_dict] *)

Global Instance key_le_transitive : Transitive ClientOrderBook.key_le.
Proof. intros x y z. unfold ClientOrderBook.key_le. lia. Qed.

Global Instance key_le_total : Total ClientOrderBook.key_le.
Proof. intros x y. unfold ClientOrderBook.key_le. lia. Qed.

Lemma sorted_levels_elem levels p q :
  (p, q) ∈ ClientOrderBook.sorted_levels levels ↔ levels !! p = Some q ∧ q > 0.
Proof.
  unfold ClientOrderBook.sorted_levels.
  rewrite merge_sort_Permutation, list_elem_of_filter, elem_of_map_to_list. simpl.
  tauto.
Qed.

Lemma sorted_levels_sorted levels :
  StronglySorted (λ x y, x.1 < y.1) (ClientOrderBook.sorted_levels levels).
Proof.
  apply (StronglySorted_distinct_keys ClientOrderBook.key_le).
  - intros x y. unfold ClientOrderBook.key_le. lia.
  - apply StronglySorted_merge_sort; apply _.
  - unfold ClientOrderBook.sorted_levels. rewrite merge_sort_Permutation.
    eapply sublist_NoDup; [apply (NoDup_fst_map_to_list levels)|].
    apply fmap_sublist, sublist_filter.
Qed.

(** The first [n] elements of a sorted list are sorted, they are elements of
    the list, and every element left out comes after all of them, in which
    case there are [n] of them. *)
Lemma take_sorted {A} (R : relation A) (l : list A) n :
  StronglySorted R l →
  (length (take n l) ≤ n)%nat ∧
  StronglySorted R (take n l) ∧
  Forall (λ x, x ∈ l) (take n l) ∧
  Forall (λ x, x ∈ take n l ∨
               (length (take n l) = n ∧ Forall (λ y, R y x) (take n l))) l.
Proof.
  intros Hsorted. rewrite <-(take_drop n l) in Hsorted at 1.
  split; [rewrite length_take; lia|].
  split; [by eapply StronglySorted_app_1_l|].
  split.
  - apply Forall_forall. intros x Hx. rewrite <-(take_drop n l). apply elem_of_app. by left.
  - apply Forall_forall. intros x Hx. rewrite <-(take_drop n l) in Hx.
    apply elem_of_app in Hx as [Hx|Hx]; [by left|right].
    split.
    + rewrite length_take. apply list_elem_of_lookup_1 in Hx as [i Hi].
      apply lookup_lt_Some in Hi. rewrite length_drop in Hi. lia.
    + apply Forall_forall. intros y Hy.
      by eapply StronglySorted_app_1_elem_of.
Qed.

(** A slice [l[:n]] of a sorted list is sorted, its elements are elements of
    the list, and every element left out comes after all of them. *)
Lemma slice_to_sorted {A} (R : relation A) (l : list A) (n : Z) :
  StronglySorted R l →
  let top := ClientOrderBook.slice_to n l in
  length top = (if decide (n < 0) then (length l - Z.to_nat (- n))%nat
                else Nat.min (Z.to_nat n) (length l)) ∧
  StronglySorted R top ∧
  Forall (λ x, x ∈ l) top ∧
  Forall (λ x, x ∈ top ∨ Forall (λ y, R y x) top) l.
Proof.
  intros Hsorted top. subst top. unfold ClientOrderBook.slice_to.
  assert (∀ k, StronglySorted R (take k l) ∧
               Forall (λ x, x ∈ l) (take k l) ∧
               Forall (λ x, x ∈ take k l ∨ Forall (λ y, R y x) (take k l)) l) as Htake.
  { intros k. destruct (take_sorted R l k Hsorted) as (_ & Hs & Hsub & Hall).
    split; [done|]. split; [done|].
    eapply Forall_impl; [exact Hall|]. intros x [Hx|[_ Hx]]; [by left|by right]. }
  destruct (Z.ltb_spec n 0).
  - rewrite decide_True by done. split; [|apply Htake]. rewrite length_take. lia.
  - rewrite decide_False by lia. split; [|apply Htake]. by rewrite length_take.
Qed.

(** X14.  [get_top_n_levels_list], for any integer [n]: the bids come by
    strictly decreasing price and the asks by strictly increasing price; each
    is a level of the replica's dictionary with a positive quantity; a level
    with a positive quantity that is left out has a worse price than every
    level listed; and of the levels with a positive quantity, the first [n]
    are listed when [n] is not negative (all of them when there are fewer),
    and all but the last [-n] when it is negative. *)
Theorem top_n_levels self n :
  let top := ClientOrderBook.get_top_n_levels_list self n in
  let positive (d : gmap Z Z) := filter (λ level, level.2 > 0) (map_to_list d) in
  let listed (d : gmap Z Z) : nat :=
    if decide (n < 0) then (length (positive d) - Z.to_nat (- n))%nat
    else Nat.min (Z.to_nat n) (length (positive d)) in
  (length top.1 = listed (ClientOrderBook.bids self) ∧
   StronglySorted (λ x y, x.1 > y.1) top.1 ∧
   Forall (λ level, ClientOrderBook.bids self !! level.1 = Some level.2 ∧ level.2 > 0)
          top.1 ∧
   Forall (λ level, level ∈ top.1 ∨ Forall (λ listed, listed.1 > level.1) top.1)
          (positive (ClientOrderBook.bids self))) ∧
  (length top.2 = listed (ClientOrderBook.asks self) ∧
   StronglySorted (λ x y, x.1 < y.1) top.2 ∧
   Forall (λ level, ClientOrderBook.asks self !! level.1 = Some level.2 ∧ level.2 > 0)
          top.2 ∧
   Forall (λ level, level ∈ top.2 ∨ Forall (λ listed, listed.1 < level.1) top.2)
          (positive (ClientOrderBook.asks self))).
Proof.
  intros top positive listed. subst top positive listed.
  unfold ClientOrderBook.get_top_n_levels_list. cbn [fst snd].
  assert (∀ d, length (ClientOrderBook.sorted_levels d) =
               length (filter (λ level : Z * Z, level.2 > 0) (map_to_list d))) as Hlen.
  { intros d. unfold ClientOrderBook.sorted_levels. by rewrite merge_sort_Permutation. }
  split.
  - assert (StronglySorted (λ x y, x.1 > y.1)
              (reverse (ClientOrderBook.sorted_levels (ClientOrderBook.bids self))))
      as Hsorted.
    { eapply StronglySorted_weaken;
        [|apply StronglySorted_reverse, sorted_levels_sorted].
      intros x y. unfold flip. lia. }
    destruct (slice_to_sorted _ _ n Hsorted) as (Hl & Hs & Hsub & Hall).
    rewrite length_reverse, Hlen in Hl.
    split_and!; [done|done| |].
    + eapply Forall_impl; [exact Hsub|]. intros [p q] Hpq.
      rewrite elem_of_reverse in Hpq. by apply sorted_levels_elem.
    + apply Forall_forall. intros [p q] Hpq.
      apply (proj1 (Forall_forall _ _) Hall).
      rewrite elem_of_reverse. unfold ClientOrderBook.sorted_levels.
      by rewrite merge_sort_Permutation.
  - pose proof (sorted_levels_sorted (ClientOrderBook.asks self)) as Hsorted.
    destruct (slice_to_sorted _ _ n Hsorted) as (Hl & Hs & Hsub & Hall).
    rewrite Hlen in Hl.
    split_and!; [done|done| |].
    + eapply Forall_impl; [exact Hsub|]. intros [p q] Hpq.
      by apply sorted_levels_elem.
    + apply Forall_forall. intros [p q] Hpq.
      apply (proj1 (Forall_forall _ _) Hall).
      unfold ClientOrderBook.sorted_levels. by rewrite merge_sort_Permutation.
Qed.

(** With [n = -1] on a replica with three bid levels, two levels are listed:
    a negative [n] does not bound the number of levels. *)
Example negative_n_lists_levels :
  let replica :=
    ClientOrderBook.apply_snapshot (ClientOrderBook.__init__ "BTC_USD")
      (OrderBookSnapshot.mk
         [OrderBookLevel.mk 100 5; OrderBookLevel.mk 99 2; OrderBookLevel.mk 98 1] [] 10) in
  (ClientOrderBook.get_top_n_levels_list replica (-1)).1 = [(100, 5); (99, 2)].
Proof. vm_compute. done. Qed.

Lemma head_take_S {A} (l : list A) n : head (take (S n) l) = head l.
Proof. by destruct l. Qed.

(** The first of the listed levels is the best level. *)
Lemma best_is_head_of_sorted (cmp : Z → Z → Prop) (l : list (Z * Z))
    (levels : gmap Z Z) (best : option (Z * Z)) :
  StronglySorted (λ x y, cmp x.1 y.1) l →
  (∀ p q, (p, q) ∈ l ↔ levels !! p = Some q ∧ q > 0) →
  match best with
  | Some (p, q) => levels !! p = Some q ∧ q > 0 ∧
                   ∀ p' q', levels !! p' = Some q' → ¬ cmp p' p
  | None => levels = ∅
  end →
  head l = best.
Proof.
  intros Hsorted Helem Hbest. destruct best as [[p q]|].
  - destruct Hbest as (Hp & Hq & Hmax).
    apply (sorted_head cmp); [done|by apply Helem|].
    intros [p' q'] [Hp' _]%Helem. simpl. by eapply Hmax.
  - subst levels. apply empty_head. intros [p q] [Hp _]%Helem.
    by rewrite lookup_empty in Hp.
Qed.

Lemma to_dict_spec self :
  client_inv self →
  let d := (ClientOrderBook.to_dict self).1 in
  ClientOrderBook.dict_best_bid d = head (ClientOrderBook.dict_bids d) ∧
  ClientOrderBook.dict_best_ask d = head (ClientOrderBook.dict_asks d) ∧
  ClientOrderBook.dict_bids d = (ClientOrderBook.get_top_n_levels_list self 10).1 ∧
  ClientOrderBook.dict_asks d = (ClientOrderBook.get_top_n_levels_list self 10).2 ∧
  ClientOrderBook.dict_instrument_id d = ClientOrderBook.instrument_id self ∧
  ClientOrderBook.dict_timestamp d = ClientOrderBook.last_update_timestamp self.
Proof.
  intros Hinv d. subst d. unfold ClientOrderBook.to_dict.
  unfold ClientOrderBook.get_top_n_levels_list, ClientOrderBook.slice_to.
  change (10 <? 0) with false. change (Z.to_nat 10) with 10%nat. cbn iota.
  destruct (get_best_bid_spec self Hinv) as (Hinv1 & _ & Hasks1 & Hbid).
  assert (ClientOrderBook.instrument_id (ClientOrderBook.get_best_bid self).2
            = ClientOrderBook.instrument_id self ∧
          ClientOrderBook.last_update_timestamp (ClientOrderBook.get_best_bid self).2
            = ClientOrderBook.last_update_timestamp self) as [Hid1 Hts1].
  { unfold ClientOrderBook.get_best_bid.
    by destruct (ClientOrderBook.best_level_loop _ _ _). }
  destruct (ClientOrderBook.get_best_bid self) as [best_bid self1]. simpl in *.
  destruct (get_best_ask_spec self1 Hinv1) as (_ & _ & _ & Hask).
  assert (ClientOrderBook.instrument_id (ClientOrderBook.get_best_ask self1).2
            = ClientOrderBook.instrument_id self1 ∧
          ClientOrderBook.last_update_timestamp (ClientOrderBook.get_best_ask self1).2
            = ClientOrderBook.last_update_timestamp self1) as [Hid2 Hts2].
  { unfold ClientOrderBook.get_best_ask.
    by destruct (ClientOrderBook.best_level_loop _ _ _). }
  destruct (ClientOrderBook.get_best_ask self1) as [best_ask self2]. simpl in *.
  rewrite Hasks1 in Hask.
  split_and!; try done; try congruence.
  - rewrite head_take_S. symmetry.
    apply (best_is_head_of_sorted (λ a b, a > b) _ (ClientOrderBook.bids self)).
    + eapply StronglySorted_weaken;
        [|apply StronglySorted_reverse, sorted_levels_sorted].
      intros x y. unfold flip. lia.
    + intros p q. by rewrite elem_of_reverse, sorted_levels_elem.
    + destruct best_bid as [[p q]|]; [|done].
      destruct Hbid as (Hp & Hq & Hmax). split; [done|]. split; [done|].
      intros p' q' Hp'. specialize (Hmax p' q' Hp'). lia.
  - rewrite head_take_S. symmetry.
    apply (best_is_head_of_sorted (λ a b, a < b) _ (ClientOrderBook.asks self)).
    + apply sorted_levels_sorted.
    + intros p q. by rewrite sorted_levels_elem.
    + destruct best_ask as [[p q]|]; [|done].
      destruct Hask as (Hp & Hq & Hmax). split; [done|]. split; [done|].
      intros p' q' Hp'. specialize (Hmax p' q' Hp'). lia.
Qed.

(** X15.  The dictionary that [to_dict] sends to the web page is consistent:
    on a replica driven by snapshots without empty levels, updates and reads,
    its best bid is the first of its (at most ten) bids, its best ask the
    first of its asks, and a side without levels has neither; the instrument
    and the timestamp are the replica's. *)
Theorem to_dict_consistent instrument_id calls :
  Forall positive_call calls →
  let replica := foldl do_call (ClientOrderBook.__init__ instrument_id) calls in
  let d := (ClientOrderBook.to_dict replica).1 in
  ClientOrderBook.dict_best_bid d = head (ClientOrderBook.dict_bids d) ∧
  ClientOrderBook.dict_best_ask d = head (ClientOrderBook.dict_asks d) ∧
  ClientOrderBook.dict_bids d = (ClientOrderBook.get_top_n_levels_list replica 10).1 ∧
  ClientOrderBook.dict_asks d = (ClientOrderBook.get_top_n_levels_list replica 10).2 ∧
  ClientOrderBook.dict_instrument_id d = instrument_id ∧
  ClientOrderBook.dict_timestamp d = ClientOrderBook.last_update_timestamp replica.
Proof.
  intros Hpos replica d.
  pose proof (calls_inv _ calls (client_inv_init instrument_id) Hpos) as Hinv.
  fold replica in Hinv.
  destruct (to_dict_spec replica Hinv) as (H1 & H2 & H3 & H4 & H5 & H6).
  split_and!; try done. fold d in H5. rewrite H5.
  subst replica. clear -Hpos. 
  assert (∀ self, ClientOrderBook.instrument_id (foldl do_call self calls)
                  = ClientOrderBook.instrument_id self) as Hid; [|by rewrite Hid].
  clear Hpos. induction calls as [|call calls IH]; intros self; [done|].
  simpl. rewrite IH. destruct call; simpl.
  - by destruct (apply_snapshot_fields self snapshot) as (_ & _ & _ & ->).
  - unfold ClientOrderBook.apply_update.
    destruct (OrderBookUpdate.side update);
      by destruct (ClientOrderBook.update_target update _ _).
  - unfold ClientOrderBook.get_best_bid.
    by destruct (ClientOrderBook.best_level_loop _ _ _).
  - unfold ClientOrderBook.get_best_ask.
    by destruct (ClientOrderBook.best_level_loop _ _ _).
  - unfold ClientOrderBook.to_dict, ClientOrderBook.get_best_bid,
      ClientOrderBook.get_best_ask.
    destruct (ClientOrderBook.get_top_n_levels_list self 10).
    destruct (ClientOrderBook.best_level_loop _ _ _). simpl.
    by destruct (ClientOrderBook.best_level_loop _ _ _).
Qed.

(** X15 at a replica that applied a snapshot and one update. *)
Lemma to_dict_consistent_witness :
  let replica :=
    foldl do_call (ClientOrderBook.__init__ "BTC_USD")
      [call_snapshot (OrderBookSnapshot.mk
                        [OrderBookLevel.mk 100 5; OrderBookLevel.mk 99 2]
                        [OrderBookLevel.mk 101 4] 10);
       call_update (OrderBookUpdate.mk 100 0 true 11)] in
  let d := (ClientOrderBook.to_dict replica).1 in
  ClientOrderBook.dict_best_bid d = head (ClientOrderBook.dict_bids d) ∧
  ClientOrderBook.dict_best_ask d = head (ClientOrderBook.dict_asks d) ∧
  ClientOrderBook.dict_bids d = (ClientOrderBook.get_top_n_levels_list replica 10).1 ∧
  ClientOrderBook.dict_asks d = (ClientOrderBook.get_top_n_levels_list replica 10).2 ∧
  ClientOrderBook.dict_instrument_id d = "BTC_USD" ∧
  ClientOrderBook.dict_timestamp d = ClientOrderBook.last_update_timestamp replica.
Proof.
  apply (to_dict_consistent "BTC_USD"
           [call_snapshot (OrderBookSnapshot.mk
                             [OrderBookLevel.mk 100 5; OrderBookLevel.mk 99 2]
                             [OrderBookLevel.mk 101 4] 10);
            call_update (OrderBookUpdate.mk 100 0 true 11)]).
  repeat constructor.
Defined.

(** ** From the server's book to the replica's best levels *)




(** ** A crossing order trades *)

(** X17.  An order with a positive quantity that finds a first resting order
    on the opposite side and, if it is a limit order, finds it within its
    limit, trades: the first trade of the call is against that order, at that
    order's price, for the smaller of the two quantities. *)
Theorem crossing_order_trades self order best :
  let s := Order.side order in
  Order.quantity order > 0 →
  Matching.resting s self !! 0%nat = Some best →
  (Order.order_type order =? "limit")%string && Matching.beyond_limit s best order = false →
  head (new_trades self (OrderBook.add_order self order)) =
    Some (Matching.trade_of s order best
            (Z.min (Order.quantity order) (Order.quantity best))).
Proof.
  intros s Hq Hbest Hlim.
  destruct (add_order_logs self order)
    as (fills & self' & order' & Hsteps & Hexit & _ & -> & _).
  fold s in Hsteps, Hexit |- *.
  inversion Hsteps as [|? ? self1 order1 best' rest fills' ? ? Hstep _]; subst.
  - apply body_None in Hexit as [?|[Hnil|(b & Hb & Htype & Hbeyond)]]; [lia| |].
    + by rewrite Hnil in Hbest.
    + rewrite Hb in Hbest. injection Hbest as ->.
      by rewrite Htype, Hbeyond in Hlim.
  - rewrite (step_resting _ _ _ _ _ _ _ Hstep) in Hbest. injection Hbest as ->.
    done.
Qed.

(** X17 at the book with two asks at 100 and a bid of 8 at 101. *)
Lemma crossing_order_trades_witness :
  head (new_trades two_asks_book
          (OrderBook.add_order two_asks_book (Order.mk 3 101 8 true "limit" 3))) =
  Some (Matching.trade_of true (Order.mk 3 101 8 true "limit" 3)
          (Order.mk 1 100 5 false "limit" 1)
          (Z.min 8 5)).
Proof.
  apply (crossing_order_trades two_asks_book (Order.mk 3 101 8 true "limit" 3)
           (Order.mk 1 100 5 false "limit" 1)).
  - reflexivity.
  - vm_compute. reflexivity.
  - reflexivity.
Defined.

(** The condition on the snapshots in X13 and X15 is needed.  A snapshot
    with an empty bid level at 100 puts 100 in the dictionary and in the
    heap; [get_best_bid] pops it; an update that then sets the level to 5
    finds the price in the dictionary and does not push it again: the replica
    holds a bid at 100 that [get_best_bid] does not report. *)
Example empty_level_hides_best_bid :
  let replica :=
    foldl do_call (ClientOrderBook.__init__ "BTC_USD")
      [call_snapshot (OrderBookSnapshot.mk [OrderBookLevel.mk 100 0] [] 10);
       call_best_bid;
       call_update (OrderBookUpdate.mk 100 5 true 11)] in
  ClientOrderBook.bids replica !! 100 = Some 5 ∧
  (ClientOrderBook.get_best_bid replica).1 = None.
Proof. vm_compute. done. Qed.

(** The bound on the iterations of [get_best_bid] and [get_best_ask] is
    enough on every replica: when the loop returns nothing, the heap is
    empty. *)
Lemma best_level_loop_exit fuel levels heap :
  (length heap ≤ fuel)%nat →
  (ClientOrderBook.best_level_loop fuel levels heap).1 = None →
  (ClientOrderBook.best_level_loop fuel levels heap).2 = [].
Proof.
  revert heap. induction fuel as [|fuel IH]; intros heap Hfuel.
  { destruct heap; [done|simpl in Hfuel; lia]. }
  cbn [ClientOrderBook.best_level_loop].
  destruct heap as [|[k price] rest]; [done|]. cbn [lookup list_lookup].
  destruct (heappop_cons ClientOrderBook.tuple_lt (k, price) rest)
    as (heap' & Hpop & _ & Hlen).
  rewrite Hpop. simpl in Hfuel.
  destruct (levels !! price) as [q|]; [case_bool_decide; [done|]|];
    apply IH; lia.
Qed.
